(** * lua-hashmap: the shared-memory hashmap core (hashmap.c / hashmap.h)

    A shallow embedding of the C core of mah0x211/lua-hashmap and the
    properties of its specification, stated against that embedding.

    Conventions of the embedding (LP64, little endian):
    - [size_t], [uint64_t] and [uintptr_t] are 64-bit unsigned, [int] and
      [int32_t] are 32-bit signed, [ssize_t] is 64-bit signed; every value
      is a [Z] and the wrap-around of the C arithmetic is written out with
      [to_uint64] and [to_int32];
    - the mapped region keeps the layout of the code: a header, the
      bucket-flags words, the bucket slots, the freelist slots and the data
      arena.  The four arrays are typed lists, the arena is a byte memory
      addressed by region offset, exactly as [reg + offset] addresses it;
    - a pointer to a record is the region offset of the record;
    - a key or value argument is the list of its bytes, its length
      argument is the length of that list, and the byte that follows a key
      in the caller's buffer is NUL (as for every Lua string). *)

From Stdlib Require Import ZArith Lia List Bool.
From stdpp Require Import base option list gmap.
Import ListNotations.

Local Open Scope Z_scope.

(** ** Machine integers *)

Definition to_uint64 (x : Z) : Z := x mod 2 ^ 64.

Definition to_int32 (x : Z) : Z := (x + 2 ^ 31) mod 2 ^ 32 - 2 ^ 31.

Definition SIZE_MAX : Z := 2 ^ 64 - 1.

(** [a << n] at type [int].  The count of a 32-bit shift is taken modulo 32
    by the shift instructions of x86-64 and AArch64, and the 32-bit result
    is read back as a signed [int]; the C standard leaves counts of 31 and
    more undefined for the operand 1. *)
Definition int_shl (a n : Z) : Z := to_int32 (Z.shiftl a (n mod 32)).

(** [~a] at type [int]. *)
Definition int_not (a : Z) : Z := Z.lnot a.

(** The value of a plain [char] holding byte [b] (plain [char] is signed on
    x86-64). *)
Definition char_to_int (b : Z) : Z := if b <? 128 then b else b - 256.

(** In-range array read; the model reads 0 outside the list. *)
Definition nthZ (l : list Z) (i : Z) : Z := default 0 (l !! Z.to_nat i).

(** In-range array write. *)
Definition setZ (l : list Z) (i v : Z) : list Z := <[Z.to_nat i := v]> l.

(** ** Byte memory of the arena *)

Abbreviation mem := (gmap Z Z).

Definition load8 (d : mem) (a : Z) : Z := default 0 (d !! a).

Definition store8 (d : mem) (a v : Z) : mem := <[a := v mod 256]> d.

Fixpoint load_le (n : nat) (d : mem) (a : Z) : Z :=
  match n with
  | O => 0
  | S n' => load8 d a + 256 * load_le n' d (a + 1)
  end.

Fixpoint store_le (n : nat) (d : mem) (a v : Z) : mem :=
  match n with
  | O => d
  | S n' => store_le n' (store8 d a v) (a + 1) (v / 256)
  end.

(** [*(size_t * )(reg + a)] and [*(uint64_t * )(reg + a)]. *)
Definition load64 (d : mem) (a : Z) : Z := load_le 8 d a.

Definition store64 (d : mem) (a v : Z) : mem := store_le 8 d a v.

(** [memcpy(reg + dst, src, length src)]. *)
Fixpoint memcpy (d : mem) (dst : Z) (src : list Z) : mem :=
  match src with
  | [] => d
  | b :: src' => memcpy (store8 d dst b) (dst + 1) src'
  end.

(** [memcmp(reg + a, bs, length bs) == 0]. *)
Fixpoint memcmp_eq (d : mem) (a : Z) (bs : list Z) : bool :=
  match bs with
  | [] => true
  | b :: bs' => (load8 d a =? b) && memcmp_eq d (a + 1) bs'
  end.

(** The [n] bytes at [reg + a]. *)
Fixpoint read_bytes (d : mem) (a : Z) (n : nat) : list Z :=
  match n with
  | O => []
  | S n' => load8 d a :: read_bytes d (a + 1) n'
  end.

(** ** hashmap.h *)

Inductive hm_error_t : Set :=
  | HM_OK
  | HM_MAP_FAILED
  | HM_LOCK_FAILED
  | HM_MEMORY_SIZE_TOO_SMALL
  | HM_NO_SPACE
  | HM_NO_EMPTY_BUCKET
  | HM_NO_EMPTY_FREE_BLOCK
  | HM_NOT_FOUND.

Definition sizeof_hashmap_record_t : Z := 24.
Definition sizeof_hashmap_header_t : Z := 64.
Definition sizeof_size_t : Z := 8.
Definition sizeof_uint64_t : Z := 8.

Record hashmap_header_t : Set := {
  memory_size : Z;
  max_bucket_flags : Z;
  max_buckets : Z;
  max_free_blocks : Z;
  num_free_blocks : Z;
  bucket_flags_offset : Z;
  buckets_offset : Z;
  freelist_offset : Z;
  data_offset : Z;
  data_tail : Z
}.

(** The mapped region: [seek_bucket_flags], [seek_buckets] and
    [seek_freelist] are the three list fields, [seek_record] and
    [seek_free_block_size] address [data]. *)
Record hashmap_region_t : Type := {
  hdr : hashmap_header_t;
  bucket_flags : list Z;
  buckets : list Z;
  freelist : list Z;
  data : mem
}.

(** The handle.  [lock] is the error number that [pthread_rwlock_rdlock] and
    [pthread_rwlock_wrlock] return on the handle's lock: 0 when the lock is
    granted. *)
Record hashmap_t : Type := {
  region : hashmap_region_t;
  lock : Z
}.

Record hashmap_stat_t : Set := {
  s_memory_size : Z;
  s_max_bucket_flags : Z;
  s_max_buckets : Z;
  s_max_free_blocks : Z;
  s_bucket_flags_size : Z;
  s_buckets_size : Z;
  s_free_blocks_size : Z;
  s_header_size : Z;
  s_data_size : Z;
  s_record_header_size : Z;
  s_record_size : Z;
  s_used_buckets : Z;
  s_used_free_blocks : Z;
  s_used_data_size : Z
}.

(** [hashmap_stat_t s = {0}]. *)
Definition stat_zero : hashmap_stat_t :=
  {| s_memory_size := 0; s_max_bucket_flags := 0; s_max_buckets := 0;
     s_max_free_blocks := 0; s_bucket_flags_size := 0; s_buckets_size := 0;
     s_free_blocks_size := 0; s_header_size := 0; s_data_size := 0;
     s_record_header_size := 0; s_record_size := 0; s_used_buckets := 0;
     s_used_free_blocks := 0; s_used_data_size := 0 |}.

Definition set_num_free_blocks (h : hashmap_header_t) (n : Z) : hashmap_header_t :=
  {| memory_size := memory_size h; max_bucket_flags := max_bucket_flags h;
     max_buckets := max_buckets h; max_free_blocks := max_free_blocks h;
     num_free_blocks := n; bucket_flags_offset := bucket_flags_offset h;
     buckets_offset := buckets_offset h; freelist_offset := freelist_offset h;
     data_offset := data_offset h; data_tail := data_tail h |}.

Definition set_data_tail (h : hashmap_header_t) (t : Z) : hashmap_header_t :=
  {| memory_size := memory_size h; max_bucket_flags := max_bucket_flags h;
     max_buckets := max_buckets h; max_free_blocks := max_free_blocks h;
     num_free_blocks := num_free_blocks h;
     bucket_flags_offset := bucket_flags_offset h;
     buckets_offset := buckets_offset h; freelist_offset := freelist_offset h;
     data_offset := data_offset h; data_tail := t |}.

Definition with_hdr (reg : hashmap_region_t) (h : hashmap_header_t) : hashmap_region_t :=
  {| hdr := h; bucket_flags := bucket_flags reg; buckets := buckets reg;
     freelist := freelist reg; data := data reg |}.

Definition with_bucket_flags (reg : hashmap_region_t) (fs : list Z) : hashmap_region_t :=
  {| hdr := hdr reg; bucket_flags := fs; buckets := buckets reg;
     freelist := freelist reg; data := data reg |}.

Definition with_buckets (reg : hashmap_region_t) (bs : list Z) : hashmap_region_t :=
  {| hdr := hdr reg; bucket_flags := bucket_flags reg; buckets := bs;
     freelist := freelist reg; data := data reg |}.

Definition with_freelist (reg : hashmap_region_t) (fl : list Z) : hashmap_region_t :=
  {| hdr := hdr reg; bucket_flags := bucket_flags reg; buckets := buckets reg;
     freelist := fl; data := data reg |}.

Definition with_data (reg : hashmap_region_t) (d : mem) : hashmap_region_t :=
  {| hdr := hdr reg; bucket_flags := bucket_flags reg; buckets := buckets reg;
     freelist := freelist reg; data := d |}.

Definition with_region (m : hashmap_t) (reg : hashmap_region_t) : hashmap_t :=
  {| region := reg; lock := lock m |}.

(** ** Records in the arena *)

Definition record_hash (d : mem) (r : Z) : Z := load64 d r.
Definition record_key_size (d : mem) (r : Z) : Z := load64 d (r + 8).
Definition record_value_size (d : mem) (r : Z) : Z := load64 d (r + 16).

Definition hm_get_record_key (r : Z) : Z := r + sizeof_hashmap_record_t.

Definition hm_get_record_value (d : mem) (r : Z) : Z :=
  hm_get_record_key r + record_key_size d r + 1.

Definition hm_get_record_size (d : mem) (r : Z) : Z :=
  to_uint64 (sizeof_hashmap_record_t + record_key_size d r + record_value_size d r + 2).

(** ** Region layout and sizing *)

(** [ALIGNMENT_OF(hashmap_region_t)], the alignment of [uintptr_t]. *)
Definition align_size : Z := 8.

Definition get_aligned_size (size : Z) : Z :=
  Z.land (to_uint64 (size + align_size - 1)) (to_uint64 (Z.lnot (align_size - 1))).

(** [s] is the caller's structure; the fields the function does not assign
    keep their values. *)
Definition hm_calc_required_memory_size (s : hashmap_stat_t)
    (memory_size max_buckets max_free_blocks record_kv_size : Z)
    : hm_error_t * hashmap_stat_t :=
  if (max_buckets =? 0) && (memory_size =? 0) then (HM_MEMORY_SIZE_TOO_SMALL, s)
  else
    let max_buckets :=
      if max_buckets =? 0 then (memory_size / 4) / sizeof_uint64_t else max_buckets in
    let max_free_blocks :=
      if max_free_blocks =? 0 then max_buckets else max_free_blocks in
    let mbf := to_int32 (to_uint64 (max_buckets + 63) / 64) in
    let mb := to_int32 max_buckets in
    let mfb := to_int32 max_free_blocks in
    let bucket_flags_size := to_uint64 (to_uint64 mbf * sizeof_uint64_t) in
    let buckets_size := to_uint64 (max_buckets * sizeof_size_t) in
    let free_blocks_size := to_uint64 (max_free_blocks * sizeof_size_t) in
    let header_size := sizeof_hashmap_header_t in
    let total :=
      to_uint64 (header_size + bucket_flags_size + buckets_size + free_blocks_size) in
    let record_header_size := sizeof_hashmap_record_t + 2 in
    (* if (record_kv_size) *)
    let '(record_size, data_size, total) :=
      if negb (record_kv_size =? 0) then
        let record_size := to_uint64 (record_header_size + record_kv_size) in
        let data_size := to_uint64 (record_size * to_uint64 mb) in
        (record_size, data_size, to_uint64 (total + data_size))
      else (s_record_size s, s_data_size s, total) in
    (* if (memory_size) *)
    let '(record_size, data_size) :=
      if negb (memory_size =? 0) then
        if total <? memory_size then
          let data_size := memory_size - total in
          (data_size / record_header_size, data_size)
        else (0, 0)
      else (record_size, data_size) in
    (HM_OK,
     {| s_memory_size := get_aligned_size total;
        s_max_bucket_flags := mbf;
        s_max_buckets := mb;
        s_max_free_blocks := mfb;
        s_bucket_flags_size := bucket_flags_size;
        s_buckets_size := buckets_size;
        s_free_blocks_size := free_blocks_size;
        s_header_size := header_size;
        s_data_size := data_size;
        s_record_header_size := record_header_size;
        s_record_size := record_size;
        s_used_buckets := s_used_buckets s;
        s_used_free_blocks := s_used_free_blocks s;
        s_used_data_size := s_used_data_size s |}).

(** [hm_init].  [lock_errno] is the first non-zero result of the three
    [pthread_rwlock*] initialisation calls (0 when all succeed) and
    [mmap_ok] tells whether [mmap] returned a mapping; the mapping is
    zero-filled.  The handle is [None] when nothing was initialised. *)
Definition hm_init (lock_errno : Z) (mmap_ok : bool)
    (memory_size max_buckets max_free_blocks : Z) : hm_error_t * option hashmap_t :=
  let memory_size := get_aligned_size memory_size in
  let '(e, s) :=
    hm_calc_required_memory_size stat_zero memory_size max_buckets max_free_blocks 0 in
  match e with
  | HM_OK =>
    if memory_size <? s_memory_size s then (HM_MEMORY_SIZE_TOO_SMALL, None)
    else if negb (lock_errno =? 0) then (HM_LOCK_FAILED, None)
    else if negb mmap_ok then (HM_MAP_FAILED, None)
    else
      let bucket_flags_offset := sizeof_hashmap_header_t in
      let buckets_offset := to_uint64 (bucket_flags_offset + s_bucket_flags_size s) in
      let freelist_offset := to_uint64 (buckets_offset + s_buckets_size s) in
      let data_offset := to_uint64 (freelist_offset + s_free_blocks_size s) in
      let h :=
        {| memory_size := memory_size;
           max_bucket_flags := s_max_bucket_flags s;
           max_buckets := s_max_buckets s;
           max_free_blocks := s_max_free_blocks s;
           num_free_blocks := 0;
           bucket_flags_offset := bucket_flags_offset;
           buckets_offset := buckets_offset;
           freelist_offset := freelist_offset;
           data_offset := data_offset;
           data_tail := data_offset |} in
      (HM_OK,
       Some {| region :=
                 {| hdr := h;
                    bucket_flags := replicate (Z.to_nat (s_max_bucket_flags s)) 0;
                    buckets := replicate (Z.to_nat (s_max_buckets s)) 0;
                    freelist := replicate (Z.to_nat (s_max_free_blocks s)) 0;
                    data := ∅ |};
               lock := 0 |})
  | _ => (HM_MEMORY_SIZE_TOO_SMALL, None)
  end.

Definition lock_region_for_read (m : hashmap_t) : option hashmap_region_t :=
  if negb (lock m =? 0) then None else Some (region m).

Definition lock_region_for_write (m : hashmap_t) : option hashmap_region_t :=
  if negb (lock m =? 0) then None else Some (region m).

Definition unlock_region (m : hashmap_t) : hashmap_t := m.

(** ** Freelist allocator *)

(** 0 = the freelist is full. *)
Definition has_empty_free_block (reg : hashmap_region_t) : bool :=
  num_free_blocks (hdr reg) <? max_free_blocks (hdr reg).

(** The binary search of [add_free_block]: the [while (left <= right)] loop,
    returning [left].  [fuel] bounds the number of iterations; [right - left
    + 1] iterations always suffice ([add_free_block_search_fuel]). *)
Fixpoint add_free_block_search (fuel : nat) (d : mem) (fl : list Z) (size : Z)
    (left right : Z) : Z :=
  match fuel with
  | O => left
  | S fuel' =>
    if left <=? right then
      let mid := (left + right) / 2 in
      let offset := nthZ fl mid in
      let block_size := load64 d offset in
      if block_size <? size then add_free_block_search fuel' d fl size (mid + 1) right
      else add_free_block_search fuel' d fl size left (mid - 1)
    else left
  end.

(** [for (i = left; i < n; i++)] of the merge branch: the merged entry moves
    behind every following entry whose block is smaller. *)
Fixpoint add_free_block_sort (fuel : nat) (d : mem) (fl : list Z)
    (offset size : Z) (i n : Z) : list Z :=
  match fuel with
  | O => fl
  | S fuel' =>
    if i <? n then
      let next_size := load64 d (nthZ fl (i + 1)) in
      if next_size <? size then
        let fl := setZ fl i (nthZ fl (i + 1)) in
        let fl := setZ fl (i + 1) offset in
        add_free_block_sort fuel' d fl offset size (i + 1) n
      else fl
    else fl
  end.

(** [for (i = num_free_blocks - 1; i >= left; i--) freelist[i + 1] =
    freelist[i]], [k] entries to move. *)
Fixpoint add_free_block_shift (fl : list Z) (left : Z) (k : nat) : list Z :=
  match k with
  | O => fl
  | S k' =>
    let i := left + Z.of_nat k' in
    add_free_block_shift (setZ fl (i + 1) (nthZ fl i)) left k'
  end.

(** The index at which [add_free_block] compares and inserts: 0 on an empty
    freelist, the result of the binary search otherwise.  [size] is the
    stored size, the 8 bytes of the size field included. *)
Definition add_free_block_left (reg : hashmap_region_t) (size : Z) : Z :=
  let n := num_free_blocks (hdr reg) in
  if 0 <? n then
    add_free_block_search (Z.to_nat n) (data reg) (freelist reg) size 0 (n - 1)
  else 0.

(** The two assertions at the head of [add_free_block].  Where one fails
    the C program aborts; the model goes on, as the code compiled without
    assertions does.  [hm_insert], [hm_delete] and [find_free_block] test
    the first one before they call. *)
Definition add_free_block_asserts (reg : hashmap_region_t) (size : Z) : bool :=
  has_empty_free_block reg && (sizeof_size_t <=? size).

Definition add_free_block (reg : hashmap_region_t) (offset size : Z)
    : hm_error_t * hashmap_region_t :=
  let size := to_uint64 (size + sizeof_size_t) in
  let n := num_free_blocks (hdr reg) in
  let left := add_free_block_left reg size in
  if (0 <? n) && (to_uint64 (offset + size) =? nthZ (freelist reg) left) then
    (* merge with existing element *)
    let size := to_uint64 (size + load64 (data reg) (nthZ (freelist reg) left)) in
    let fl := setZ (freelist reg) left offset in
    let d := store64 (data reg) offset size in
    let fl := add_free_block_sort (Z.to_nat (n - 1 - left)) d fl offset size left (n - 1) in
    (HM_OK, with_data (with_freelist reg fl) d)
  else
    let fl :=
      if 0 <? n then add_free_block_shift (freelist reg) left (Z.to_nat (n - left))
      else freelist reg in
    (* set free block offset and size *)
    let fl := setZ fl left offset in
    let d := store64 (data reg) offset size in
    (HM_OK,
     with_hdr (with_data (with_freelist reg fl) d)
       (set_num_free_blocks (hdr reg) (to_int32 (n + 1)))).

(** [for (i = idx; i < n; i++) freelist[i] = freelist[i + 1]], [k] entries
    to move. *)
Fixpoint remove_free_block_shift (fl : list Z) (i : Z) (k : nat) : list Z :=
  match k with
  | O => fl
  | S k' => remove_free_block_shift (setZ fl i (nthZ fl (i + 1))) (i + 1) k'
  end.

Definition remove_free_block (reg : hashmap_region_t) (idx : Z) : hashmap_region_t :=
  let n := num_free_blocks (hdr reg) - 1 in
  let fl := remove_free_block_shift (freelist reg) idx (Z.to_nat (n - idx)) in
  with_hdr (with_freelist reg fl)
    (set_num_free_blocks (hdr reg) (to_int32 (num_free_blocks (hdr reg) - 1))).

(** The binary search of [find_free_block]: [inl mid] when the loop meets a
    block of exactly the required size, [inr left] when it runs out. *)
Fixpoint find_free_block_search (fuel : nat) (d : mem) (fl : list Z)
    (required_space : Z) (left right : Z) : Z + Z :=
  match fuel with
  | O => inr left
  | S fuel' =>
    if left <=? right then
      let mid := (left + right) / 2 in
      let offset := nthZ fl mid in
      let block_size := load64 d offset in
      if block_size =? required_space then inl mid
      else if required_space <? block_size then
        find_free_block_search fuel' d fl required_space left (mid - 1)
      else find_free_block_search fuel' d fl required_space (mid + 1) right
    else inr left
  end.

Definition find_free_block (reg : hashmap_region_t) (required_space : Z)
    : Z * hashmap_region_t :=
  let n := num_free_blocks (hdr reg) in
  if n =? 0 then (SIZE_MAX, reg)
  else
    match find_free_block_search (Z.to_nat n) (data reg) (freelist reg)
            required_space 0 (n - 1) with
    | inl mid =>
      let offset := nthZ (freelist reg) mid in
      (offset, remove_free_block reg mid)
    | inr lo =>
      (* left == lo after the loop *)
      if lo <? n then
        let offset := nthZ (freelist reg) lo in
        let block_size := load64 (data reg) offset in
        let remaining_size := to_uint64 (block_size - required_space) in
        if remaining_size =? 0 then (offset, remove_free_block reg lo)
        else if (remaining_size <? sizeof_size_t) || negb (has_empty_free_block reg) then
          (* the remaining unused size cannot be managed *)
          (SIZE_MAX, reg)
        else
          let reg := remove_free_block reg lo in
          (* Add a new free block for the remaining unused space *)
          let reg := snd (add_free_block reg (to_uint64 (offset + required_space)) remaining_size) in
          (offset, reg)
      else (SIZE_MAX, reg)
    end.

(** ** Bucket table *)

(** A key reaches the functions below as a pointer [key] and a length
    [key_len].  In the model [key] lists the bytes at the pointer, as far
    as the NUL that follows the last of them; they may hold NUL bytes
    themselves.  [memcpy] and [memcmp] read the first [key_len] of these
    bytes, [hash_string], which is not given [key_len], reads them up to
    the first NUL.  A caller that passes a NUL-terminated string of
    [key_len] bytes, as the Lua binding does, passes a list of [key_len]
    bytes; a list longer than [key_len] is a buffer that goes on behind the
    key.  [key_len] is at most the length of the list: the bytes behind
    the terminator are not modelled. *)

(** The [while ((c = *key++))] loop. *)
Fixpoint hash_string_loop (hash : Z) (key : list Z) : Z :=
  match key with
  | [] => hash
  | b :: key' =>
    let c := char_to_int b in
    if c =? 0 then hash
    else hash_string_loop (to_uint64 (Z.shiftl hash 5 + hash + c)) key'
  end.

Definition hash_string (key : list Z) : Z := hash_string_loop 5381 key.

(** The word [bucket_flags[bucket_index / 64]] after [|= 1 << (bucket_index
    % 64)]: the mask is computed at type [int] and converted to
    [uint64_t]. *)
Definition set_used_word (w bucket_index : Z) : Z :=
  Z.lor w (to_uint64 (int_shl 1 (bucket_index mod 64))).

(** The word after [&= ~(1 << (bucket_index % 64))]. *)
Definition unset_used_word (w bucket_index : Z) : Z :=
  Z.land w (to_uint64 (int_not (int_shl 1 (bucket_index mod 64)))).

(** [(w >> (bucket_index % 64)) & 1]. *)
Definition is_used_word (w bucket_index : Z) : Z :=
  Z.land (Z.shiftr w (bucket_index mod 64)) 1.

Definition set_used_bits (reg : hashmap_region_t) (bucket_index : Z) : hashmap_region_t :=
  let fs := bucket_flags reg in
  with_bucket_flags reg
    (setZ fs (bucket_index / 64) (set_used_word (nthZ fs (bucket_index / 64)) bucket_index)).

Definition unset_used_bits (reg : hashmap_region_t) (bucket_index : Z) : hashmap_region_t :=
  let fs := bucket_flags reg in
  with_bucket_flags reg
    (setZ fs (bucket_index / 64) (unset_used_word (nthZ fs (bucket_index / 64)) bucket_index)).

Definition is_used_bucket (reg : hashmap_region_t) (bucket_index : Z) : Z :=
  is_used_word (nthZ (bucket_flags reg) (bucket_index / 64)) bucket_index.

(** The probe loop of [find_record], [k] slots left to visit from step [i].
    [found_index] is the value of [*found_index], set to [max_buckets]
    before the loop; the result is the record found ([None] for [NULL]) and
    the value left in [*found_index]. *)
Fixpoint find_record_loop (k : nat) (reg : hashmap_region_t) (key : list Z)
    (key_len hash index found_index i : Z) : option Z * Z :=
  match k with
  | O => (None, found_index)
  | S k' =>
    let bucket_index := (index + i) mod max_buckets (hdr reg) in
    let offset := nthZ (buckets reg) bucket_index in
    if offset =? 0 then
      (None,
       if found_index =? max_buckets (hdr reg) then bucket_index else found_index)
    else if negb (is_used_bucket reg bucket_index =? 0) then
      let r := offset in
      if (record_hash (data reg) r =? hash)
         && (record_key_size (data reg) r =? key_len)
         && memcmp_eq (data reg) (hm_get_record_key r) (take (Z.to_nat key_len) key)
      then (Some r, bucket_index)
      else find_record_loop k' reg key key_len hash index found_index (i + 1)
    else find_record_loop k' reg key key_len hash index found_index (i + 1)
  end.

Definition find_record (reg : hashmap_region_t) (key : list Z) (key_len : Z)
    : option Z * Z :=
  let hash := hash_string key in
  let index := hash mod max_buckets (hdr reg) in
  let found_index := max_buckets (hdr reg) in
  find_record_loop (Z.to_nat (max_buckets (hdr reg))) reg key key_len hash index
    found_index 0.

(** ** Map operations *)

(** [!r] for a record pointer. *)
Definition is_null (r : option Z) : bool :=
  match r with
  | None => true
  | Some _ => false
  end.

(** The record written by [hm_insert] at [insert_offset]: header fields,
    key, NUL, value, NUL. *)
Definition write_record (d : mem) (insert_offset : Z) (key : list Z) (key_len : Z)
    (value : list Z) : mem :=
  let value_len := Z.of_nat (length value) in
  let newr := insert_offset in
  let d := store64 d newr (hash_string key) in
  let d := store64 d (newr + 8) key_len in
  let d := store64 d (newr + 16) value_len in
  let ptr := hm_get_record_key newr in
  let d := memcpy d ptr (take (Z.to_nat key_len) key) in
  let d := store8 d (ptr + key_len) 0 in
  let ptr := hm_get_record_value d newr in
  let d := memcpy d ptr value in
  store8 d (ptr + value_len) 0.

Definition hm_insert (m : hashmap_t) (key : list Z) (key_len : Z) (value : list Z)
    : hm_error_t * hashmap_t :=
  let value_len := Z.of_nat (length value) in
  match lock_region_for_write m with
  | None => (HM_LOCK_FAILED, m)
  | Some reg =>
    let '(r, bucket_index) := find_record reg key key_len in
    if is_null r && (bucket_index =? max_buckets (hdr reg))
    then (* No empty buckets available. *) (HM_NO_EMPTY_BUCKET, unlock_region m)
    else
      let required_space :=
        to_uint64 (sizeof_hashmap_record_t + key_len + value_len + 2) in
      let freed :=
        match r with
        | Some r =>
          if record_value_size (data reg) r =? value_len then
            (* Update the value in-place. *)
            inl (HM_OK,
                 with_data reg (memcpy (data reg) (hm_get_record_value (data reg) r) value))
          else if negb (has_empty_free_block reg) then
            (* The freelist is full *)
            inl (HM_NO_EMPTY_FREE_BLOCK, reg)
          else
            (* Add the old key-value pair space to the free block list. *)
            inr (snd (add_free_block reg r (hm_get_record_size (data reg) r)))
        | None => inr reg
        end in
      match freed with
      | inl (e, reg) => (e, unlock_region (with_region m reg))
      | inr reg =>
        let insert_offset := data_tail (hdr reg) in
        let available_space := to_uint64 (memory_size (hdr reg) - data_tail (hdr reg)) in
        let '(insert_offset, reg) :=
          if available_space <? required_space then find_free_block reg required_space
          else (insert_offset, reg) in
        if (available_space <? required_space) && (insert_offset =? SIZE_MAX) then
          (* Not enough space in data space to write new records. *)
          (HM_NO_SPACE, unlock_region (with_region m reg))
        else
          let reg := with_buckets reg (setZ (buckets reg) bucket_index insert_offset) in
          let reg := set_used_bits reg bucket_index in
          let reg :=
            with_data reg (write_record (data reg) insert_offset key key_len value) in
          let reg :=
            if required_space <=? available_space then
              with_hdr reg (set_data_tail (hdr reg)
                              (to_uint64 (data_tail (hdr reg) + required_space)))
            else reg in
          (HM_OK, unlock_region (with_region m reg))
      end
  end.

Definition hm_delete (m : hashmap_t) (key : list Z) (key_len : Z)
    : hm_error_t * hashmap_t :=
  match lock_region_for_write m with
  | None => (HM_LOCK_FAILED, m)
  | Some reg =>
    let '(r, bucket_index) := find_record reg key key_len in
    match r with
    | None => (* Key not found. *) (HM_NOT_FOUND, unlock_region m)
    | Some r =>
      if negb (has_empty_free_block reg) then
        (* The freelist is full *)
        (HM_NO_EMPTY_FREE_BLOCK, unlock_region m)
      else
        (* Add the offset of the record to the freelist. *)
        let reg := snd (add_free_block reg r (hm_get_record_size (data reg) r)) in
        let reg := unset_used_bits reg bucket_index in
        (HM_OK, unlock_region (with_region m reg))
    end
  end.

(** [hm_search]: on [HM_OK] the outputs [*value] (a region offset) and
    [*value_len]. *)
Definition hm_search (m : hashmap_t) (key : list Z) (key_len : Z)
    : hm_error_t * option (Z * Z) :=
  match lock_region_for_read m with
  | None => (HM_LOCK_FAILED, None)
  | Some reg =>
    let '(r, bucket_index) := find_record reg key key_len in
    match r with
    | None => (* Key not found. *) (HM_NOT_FOUND, None)
    | Some r =>
      (HM_OK, Some (hm_get_record_value (data reg) r, record_value_size (data reg) r))
    end
  end.

(** The bytes a successful [hm_search] hands to its caller. *)
Definition hm_search_bytes (m : hashmap_t) (key : list Z) (key_len : Z)
    : hm_error_t * option (list Z) :=
  match hm_search m key key_len with
  | (e, Some (value, value_len)) =>
    (e, Some (read_bytes (data (region m)) value (Z.to_nat value_len)))
  | (e, None) => (e, None)
  end.

Definition count_bits (x : Z) : Z :=
  let x := to_uint64 (x - Z.land (Z.shiftr x 1) 0x5555555555555555) in
  let x := to_uint64 (Z.land x 0x3333333333333333
                      + Z.land (Z.shiftr x 2) 0x3333333333333333) in
  let x := Z.land (to_uint64 (x + Z.shiftr x 4)) 0x0F0F0F0F0F0F0F0F in
  Z.shiftr (to_uint64 (x * 0x0101010101010101)) 56.

(** [for (int i = 0; i < hdr->max_bucket_flags; i++) count +=
    count_bits(bucket_flags[i])]. *)
Fixpoint count_bucket_flags_loop (k : nat) (fs : list Z) (i count : Z) : Z :=
  match k with
  | O => count
  | S k' =>
    count_bucket_flags_loop k' fs (i + 1) (to_uint64 (count + count_bits (nthZ fs i)))
  end.

Definition count_bucket_flags (reg : hashmap_region_t) : Z :=
  count_bucket_flags_loop (Z.to_nat (max_bucket_flags (hdr reg))) (bucket_flags reg) 0 0.

Definition hm_stat (s : hashmap_stat_t) (m : hashmap_t) : hm_error_t * hashmap_stat_t :=
  match lock_region_for_read m with
  | None => (HM_LOCK_FAILED, s)
  | Some reg =>
    let h := hdr reg in
    (HM_OK,
     {| s_memory_size := memory_size h;
        s_max_bucket_flags := max_bucket_flags h;
        s_max_buckets := max_buckets h;
        s_max_free_blocks := max_free_blocks h;
        s_bucket_flags_size := to_uint64 (to_uint64 (max_bucket_flags h) * sizeof_uint64_t);
        s_buckets_size := to_uint64 (to_uint64 (max_buckets h) * sizeof_size_t);
        s_free_blocks_size := to_uint64 (to_uint64 (max_free_blocks h) * sizeof_size_t);
        s_header_size := sizeof_hashmap_header_t;
        s_data_size := to_uint64 (memory_size h - data_offset h);
        s_record_header_size := sizeof_hashmap_record_t + 2;
        s_record_size := 0;
        s_used_buckets := count_bucket_flags reg;
        s_used_free_blocks := to_uint64 (num_free_blocks h);
        s_used_data_size := to_uint64 (data_tail h - data_offset h) |})
  end.

(** * The Lua binding *)

(** The module [hashmap] for Lua: [set], [get] and [del] of a map object,
    and the encoding of Lua values as stored values.  A Lua value is nil,
    a boolean, a number, a string or a value of another type (table,
    function, userdata, ...); a number is an integer (in the sense of
    [lauxh_isinteger]) or a float, of which the model keeps the 64 bits of
    the [lua_Number].  A string is the list of its bytes.  A C function
    called from Lua pushes values and returns a count [n]: its results are
    the [n] values on top of the stack. *)

Inductive lua_value : Type :=
  | LNil
  | LBoolean (b : bool)
  | LInteger (n : Z)
  | LNumber (bits : Z)
  | LString (s : list Z)
  | LOther.

Definition lua_return (pushed : list lua_value) (n : nat) : list lua_value :=
  drop (length pushed - n) pushed.

Definition T_STRING : Z := 0.
Definition T_BOOLEAN : Z := 1.
Definition T_NUMBER : Z := 2.
Definition T_INTEGER : Z := 3.

Definition EINVAL : Z := 22.
Definition EBADMSG : Z := 74.

(** A 64-bit pattern read as [lua_Integer]. *)
Definition to_int64 (x : Z) : Z := (x + 2 ^ 63) mod 2 ^ 64 - 2 ^ 63.

(** The [n] bytes of an object with value [x], low byte first:
    [(char * )&x]. *)
Fixpoint to_bytes (n : nat) (x : Z) : list Z :=
  match n with
  | O => []
  | S n' => x mod 256 :: to_bytes n' (x / 256)
  end.

Section LuaBinding.

(** [strerror] of the C library and the value of [errno]. *)
Variable strerror : Z → list Z.
Variable errno : Z.

(** [hm_strerror] of hashmap.c; the strings are given by their bytes. *)
Definition hm_strerror (e : hm_error_t) : list Z :=
  match e with
  | HM_OK => (* "success" *) [115; 117; 99; 99; 101; 115; 115]
  | HM_MAP_FAILED | HM_LOCK_FAILED => strerror errno
  | HM_MEMORY_SIZE_TOO_SMALL =>
    (* "memory size too small" *)
    [109; 101; 109; 111; 114; 121; 32; 115; 105; 122; 101; 32; 116; 111; 111; 32;
     115; 109; 97; 108; 108]
  | HM_NO_SPACE =>
    (* "not enough space in data space" *)
    [110; 111; 116; 32; 101; 110; 111; 117; 103; 104; 32; 115; 112; 97; 99; 101; 32;
     105; 110; 32; 100; 97; 116; 97; 32; 115; 112; 97; 99; 101]
  | HM_NO_EMPTY_BUCKET =>
    (* "buckets is full" *)
    [98; 117; 99; 107; 101; 116; 115; 32; 105; 115; 32; 102; 117; 108; 108]
  | HM_NO_EMPTY_FREE_BLOCK =>
    (* "freelist is full" *)
    [102; 114; 101; 101; 108; 105; 115; 116; 32; 105; 115; 32; 102; 117; 108; 108]
  | HM_NOT_FOUND => (* "not found" *) [110; 111; 116; 32; 102; 111; 117; 110; 100]
  end.

(** [decode_value]: the values pushed and the count returned.  [val] is an
    offset into the region. *)
Definition decode_value (d : mem) (val vlen : Z) : list lua_value * nat :=
  let t := char_to_int (load8 d val) in
  let val := val + 1 in
  let vlen := to_uint64 (vlen - 1) in
  if t =? T_STRING then ([LString (read_bytes d val (Z.to_nat vlen))], 1%nat)
  else if t =? T_BOOLEAN then
    ([LBoolean (negb (char_to_int (load8 d val) =? 0))], 1%nat)
  else if t =? T_NUMBER then ([LNumber (load64 d val)], 1%nat)
  else if t =? T_INTEGER then ([LInteger (to_int64 (load64 d val))], 1%nat)
  else ([LNil; LString (strerror EBADMSG)], 2%nat).

(** [encode_value]: the string left on the stack, [None] for the result
    -1. *)
Definition encode_value (v : lua_value) : option (list Z) :=
  match v with
  | LString s => Some (T_STRING :: s)
  | LBoolean b => Some [T_BOOLEAN; if b then 1 else 0]
  | LInteger n => Some (T_INTEGER :: to_bytes 8 n)
  | LNumber bits => Some (T_NUMBER :: to_bytes 8 bits)
  | LNil | LOther => None
  end.

(** [get_lua]: [key] is the string that [lauxh_checklstring] returns. *)
Definition get_lua (m : hashmap_t) (key : list Z) : list lua_value :=
  let klen := Z.of_nat (length key) in
  let '(err, out) := hm_search m key klen in
  let '(val, vlen) := default (0, 0) out in
  match err with
  | HM_OK =>
    let '(pushed, n) := decode_value (data (region m)) val vlen in
    lua_return pushed n
  | HM_NOT_FOUND => lua_return [LNil] 1
  | _ => lua_return [LNil; LString (hm_strerror err)] 1
  end.

Definition del_lua (m : hashmap_t) (key : list Z) : list lua_value * hashmap_t :=
  let klen := Z.of_nat (length key) in
  let '(err, m) := hm_delete m key klen in
  match err with
  | HM_OK | HM_NOT_FOUND => (lua_return [LBoolean true] 1, m)
  | _ => (lua_return [LBoolean false; LString (hm_strerror err)] 2, m)
  end.

Definition set_lua (m : hashmap_t) (key : list Z) (v : lua_value)
    : list lua_value * hashmap_t :=
  let klen := Z.of_nat (length key) in
  match encode_value v with
  | None => (lua_return [LBoolean false; LString (strerror EINVAL)] 2, m)
  | Some val =>
    let '(err, m) := hm_insert m key klen val in
    match err with
    | HM_OK => (lua_return [LBoolean true] 1, m)
    | _ => (lua_return [LBoolean false; LString (hm_strerror err)] 2, m)
    end
  end.

End LuaBinding.

(** * Vocabulary of the properties *)

(** ** Layout *)

(** The fixed overhead of the layout: header, bucket flags, bucket slots
    and freelist slots. *)
Definition fixed_overhead (max_buckets max_free_blocks : Z) : Z :=
  sizeof_hashmap_header_t + ((max_buckets + 63) / 64) * sizeof_uint64_t
  + max_buckets * sizeof_size_t
  + (if max_free_blocks =? 0 then max_buckets else max_free_blocks) * sizeof_size_t.

(** The number of buckets of the layout: [max_buckets] as given, or
    [(memory_size / 4) / 8] when 0 is given. *)
Definition layout_buckets (memory_size max_buckets : Z) : Z :=
  if max_buckets =? 0 then memory_size / 4 / sizeof_uint64_t else max_buckets.

(** The data size that [record_kv_size] asks for: none when it is 0. *)
Definition kv_data_size (max_buckets record_kv_size : Z) : Z :=
  if record_kv_size =? 0 then 0
  else (sizeof_hashmap_record_t + 2 + record_kv_size) * max_buckets.

(** ** Hashing *)

(** The 64-bit djb2 hash of a sequence of character codes: from 5381, each
    code [c] turns [h] into [h * 33 + c] modulo 2^64. *)
Definition djb2_64 (cs : list Z) : Z :=
  fold_left (λ h c, to_uint64 (h * 33 + c)) cs 5381.

(** The bytes of a buffer that precede its first NUL byte. *)
Fixpoint c_string (key : list Z) : list Z :=
  match key with
  | [] => []
  | b :: key' => if b =? 0 then [] else b :: c_string key'
  end.

(** ** Header invariant *)

(** The part of the invariant of C7 that only involves the header: the
    tail lies between the start of the arena and the end of the region, and
    the number of free blocks is at most [max_free_blocks]. *)
Definition header_ok (h : hashmap_header_t) : Prop :=
  (0 ≤ data_offset h ≤ data_tail h)
  ∧ (data_tail h ≤ memory_size h < 2 ^ 64)
  ∧ (0 ≤ num_free_blocks h ≤ max_free_blocks h)
  ∧ max_free_blocks h < 2 ^ 31.

(** ** Presence of a key *)

(** Slot [b] holds a live record of [key]: a non-zero offset, the used bit,
    and a record with the hash, the length and the bytes of [key]. *)
Definition key_at (reg : hashmap_region_t) (key : list Z) (b : Z) : Prop :=
  let r := nthZ (buckets reg) b in
  r ≠ 0
  ∧ is_used_bucket reg b ≠ 0
  ∧ record_hash (data reg) r = hash_string key
  ∧ record_key_size (data reg) r = Z.of_nat (length key)
  ∧ memcmp_eq (data reg) (hm_get_record_key r) key = true.

(** ** A [set] of a new key served from the tail *)

(** The region after [hm_insert] has stored a new key in bucket [b] with a
    record at the tail. *)
Definition fresh_insert_region (m : hashmap_t) (key value : list Z) (b : Z)
    : hashmap_region_t :=
  let reg := region m in
  let tail := data_tail (hdr reg) in
  let reg1 := with_buckets reg (setZ (buckets reg) b tail) in
  let reg2 := set_used_bits reg1 b in
  let reg3 := with_data reg2 (write_record (data reg2) tail key (Z.of_nat (length key)) value) in
  with_hdr reg3
    (set_data_tail (hdr reg3)
       (to_uint64
          (tail + to_uint64 (sizeof_hashmap_record_t + Z.of_nat (length key)
                             + Z.of_nat (length value) + 2)))).

(** The situation of such a call: the lock is granted; the arrays have the
    lengths of the header; the tail has room for the record; the probe for
    the key fails with bucket [b] as insertion candidate; the flag of [b]
    lies below bit 31 of its word; and the key of every live record lies
    below the tail. *)
Definition fresh_insert_pre (m : hashmap_t) (key value : list Z) (b : Z) : Prop :=
  lock m = 0
  ∧ 0 < max_buckets (hdr (region m))
  ∧ length (buckets (region m)) = Z.to_nat (max_buckets (hdr (region m)))
  ∧ max_buckets (hdr (region m)) ≤ 64 * Z.of_nat (length (bucket_flags (region m)))
  ∧ 0 < data_tail (hdr (region m))
  ∧ memory_size (hdr (region m)) < 2 ^ 64
  ∧ sizeof_hashmap_record_t + Z.of_nat (length key) + Z.of_nat (length value) + 2
    ≤ memory_size (hdr (region m)) - data_tail (hdr (region m))
  ∧ Forall (λ c, 0 ≤ c < 256) key
  ∧ Forall (λ c, 0 ≤ c < 256) value
  ∧ find_record (region m) key (Z.of_nat (length key)) = (None, b)
  ∧ b ≠ max_buckets (hdr (region m))
  ∧ b mod 64 < 31
  ∧ (∀ s, 0 ≤ s < max_buckets (hdr (region m)) →
          nthZ (buckets (region m)) s ≠ 0 → is_used_bucket (region m) s ≠ 0 →
          0 ≤ record_key_size (data (region m)) (nthZ (buckets (region m)) s)
          ∧ nthZ (buckets (region m)) s + sizeof_hashmap_record_t
            + record_key_size (data (region m)) (nthZ (buckets (region m)) s)
            ≤ data_tail (hdr (region m))).

(** ** Scenarios

    Sequences of calls of the public interface, run from the handle that
    [hm_init] returns. *)

(** The handle left by a failed [hm_init]: no region, and a lock that is
    never granted. *)
Definition no_map : hashmap_t :=
  {| region :=
       {| hdr := Build_hashmap_header_t 0 0 0 0 0 0 0 0 0 0;
          bucket_flags := []; buckets := []; freelist := []; data := ∅ |};
     lock := 1 |}.

Definition init_map (memory_size max_buckets max_free_blocks : Z) : hashmap_t :=
  default no_map (snd (hm_init 0 true memory_size max_buckets max_free_blocks)).

Inductive call : Type :=
  | Insert (key value : list Z)
  | Delete (key : list Z).

Definition do_call (m : hashmap_t) (c : call) : hm_error_t * hashmap_t :=
  match c with
  | Insert key value => hm_insert m key (Z.of_nat (length key)) value
  | Delete key => hm_delete m key (Z.of_nat (length key))
  end.

(** The error codes of the calls, in order, and the final handle. *)
Fixpoint run (m : hashmap_t) (cs : list call) : list hm_error_t * hashmap_t :=
  match cs with
  | [] => ([], m)
  | c :: cs' =>
    let '(e, m) := do_call m c in
    let '(es, m) := run m cs' in
    (e :: es, m)
  end.

(** The stored sizes of the blocks of the live part of the freelist. *)
Definition freelist_sizes (reg : hashmap_region_t) : list Z :=
  map (load64 (data reg)) (take (Z.to_nat (num_free_blocks (hdr reg))) (freelist reg)).

(** Sorted ascending, as a decidable check. *)
Fixpoint sorted_asc (l : list Z) : bool :=
  match l with
  | [] => true
  | x :: l' =>
    match l' with
    | [] => true
    | y :: _ => (x <=? y) && sorted_asc l'
    end
  end.

(** ** What a call keeps *)

(** The header fields of [h'] that describe the layout are those of [h]. *)
Definition same_layout (h h' : hashmap_header_t) : Prop :=
  memory_size h' = memory_size h
  ∧ max_bucket_flags h' = max_bucket_flags h
  ∧ max_buckets h' = max_buckets h
  ∧ max_free_blocks h' = max_free_blocks h
  ∧ bucket_flags_offset h' = bucket_flags_offset h
  ∧ buckets_offset h' = buckets_offset h
  ∧ freelist_offset h' = freelist_offset h
  ∧ data_offset h' = data_offset h.

(** From [reg] to [reg'] the layout and the lengths of the three arrays are
    kept and the tail has not moved back. *)
Definition region_step (reg reg' : hashmap_region_t) : Prop :=
  same_layout (hdr reg) (hdr reg')
  ∧ data_tail (hdr reg) ≤ data_tail (hdr reg')
  ∧ length (bucket_flags reg') = length (bucket_flags reg)
  ∧ length (buckets reg') = length (buckets reg)
  ∧ length (freelist reg') = length (freelist reg).

(** ** The freelist as a list *)

(** The live entries of the freelist, in order. *)
Definition live_freelist (reg : hashmap_region_t) : list Z :=
  take (Z.to_nat (num_free_blocks (hdr reg))) (freelist reg).

(** The size stored for the block at [offset]. *)
Definition block_size (reg : hashmap_region_t) (offset : Z) : Z :=
  load64 (data reg) offset.


(** ** Records of the live buckets *)

(** The header and the key of the record of every live bucket other than
    [b] lie outside the bytes from [lo] to [hi - 1]. *)
Definition other_keys_outside (reg : hashmap_region_t) (b lo hi : Z) : Prop :=
  ∀ s, 0 ≤ s < max_buckets (hdr reg) → s ≠ b →
       nthZ (buckets reg) s ≠ 0 → is_used_bucket reg s ≠ 0 →
       let r := nthZ (buckets reg) s in
       0 ≤ record_key_size (data reg) r
       ∧ (hm_get_record_key r + record_key_size (data reg) r ≤ lo ∨ hi ≤ r).

(** ** Counting bits *)

(** The number of 1 bits among the [n] low bits of [x]. *)
Fixpoint popcount (n : nat) (x : Z) : Z :=
  match n with
  | O => 0
  | S n' => x mod 2 + popcount n' (x / 2)
  end.

(** The value of a sequence of bytes, low byte first. *)
Fixpoint of_bytes (bs : list Z) : Z :=
  match bs with
  | [] => 0
  | b :: bs' => b + 256 * of_bytes bs'
  end.

(** The three folding steps of [count_bits] on one byte. *)
Definition fold_pairs (b : Z) : Z := b - Z.land (Z.shiftr b 1) 0x55.
Definition fold_nibbles (b : Z) : Z := Z.land b 0x33 + Z.land (Z.shiftr b 2) 0x33.
Definition fold_byte (b : Z) : Z := Z.land (b + Z.shiftr b 4) 0x0F.

(** A byte, and a byte whose two halves are at most 4. *)
Definition is_byte (b : Z) : bool := (0 <=? b) && (b <? 256).
Definition small_nibbles (b : Z) : bool :=
  is_byte b && (b mod 16 <=? 4) && (b / 16 <=? 4).

(** The sum of a list of numbers. *)
Definition sumZ (l : list Z) : Z := fold_right Z.add 0 l.

(** ** Lua values that [set] stores *)

(** The values that [encode_value] accepts, within the ranges of their C
    types: strings of bytes, booleans, integers of 64 bits and the 64 bits
    of a float. *)
Definition storable (v : lua_value) : Prop :=
  match v with
  | LString s => Forall (λ c, 0 ≤ c < 256) s ∧ Z.of_nat (length s) < 2 ^ 64 - 1
  | LBoolean _ => True
  | LInteger n => - 2 ^ 63 ≤ n < 2 ^ 63
  | LNumber bits => 0 ≤ bits < 2 ^ 64
  | LNil | LOther => False
  end.
(** * Properties *)

(** ** Machine integers *)

Section MachineIntegers.

Lemma to_uint64_small x : 0 ≤ x < 2 ^ 64 → to_uint64 x = x.
Proof. intros Hx. unfold to_uint64. apply Z.mod_small. lia. Qed.

Lemma to_int32_small x : - 2 ^ 31 ≤ x < 2 ^ 31 → to_int32 x = x.
Proof. intros Hx. unfold to_int32. rewrite Z.mod_small; lia. Qed.

Lemma to_uint64_range x : 0 ≤ to_uint64 x < 2 ^ 64.
Proof. unfold to_uint64. apply Z.mod_pos_bound. lia. Qed.

End MachineIntegers.

(** ** Byte memory *)

Section Memory.

Implicit Types (d : mem) (a b v : Z).

Lemma load8_store8_eq d a v : load8 (store8 d a v) a = v mod 256.
Proof. unfold load8, store8. by rewrite lookup_insert_eq. Qed.

Lemma load8_store8_ne d a b v : a ≠ b → load8 (store8 d a v) b = load8 d b.
Proof. intros Hne. unfold load8, store8. by rewrite lookup_insert_ne. Qed.

Lemma load8_store_le_out n d a v b :
  b < a ∨ a + Z.of_nat n ≤ b → load8 (store_le n d a v) b = load8 d b.
Proof.
  revert d a v. induction n as [|n IH]; intros d a v Hb; [done|].
  cbn [store_le]. rewrite IH by lia. apply load8_store8_ne. lia.
Qed.

Lemma load_le_store_le n d a v :
  load_le n (store_le n d a v) a = v mod 256 ^ Z.of_nat n.
Proof.
  revert d a v. induction n as [|n IH]; intros d a v.
  - cbn. by rewrite Z.mod_1_r.
  - cbn [load_le store_le]. rewrite IH.
    rewrite load8_store_le_out by lia. rewrite load8_store8_eq.
    rewrite Nat2Z.inj_succ, Z.pow_succ_r by lia.
    rewrite Z.rem_mul_r by lia. reflexivity.
Qed.

Lemma load_le_frame n d d' a :
  (∀ b, a ≤ b < a + Z.of_nat n → load8 d' b = load8 d b) →
  load_le n d' a = load_le n d a.
Proof.
  revert a. induction n as [|n IH]; intros a Hb; [done|].
  cbn [load_le]. rewrite Hb by lia. rewrite IH; [done|].
  intros b ?. apply Hb. lia.
Qed.

Lemma load64_store64_eq d a v : load64 (store64 d a v) a = to_uint64 v.
Proof. unfold load64, store64, to_uint64. by rewrite load_le_store_le. Qed.

Lemma load8_store64_out d a v b :
  b < a ∨ a + 8 ≤ b → load8 (store64 d a v) b = load8 d b.
Proof. intros Hb. unfold store64. apply load8_store_le_out. lia. Qed.

Lemma load8_memcpy_out d dst src b :
  b < dst ∨ dst + Z.of_nat (length src) ≤ b → load8 (memcpy d dst src) b = load8 d b.
Proof.
  revert d dst. induction src as [|c src IH]; intros d dst Hb; [done|].
  cbn [memcpy]. cbn [length] in Hb. rewrite IH by lia. apply load8_store8_ne. lia.
Qed.

Lemma read_bytes_frame n d d' a :
  (∀ b, a ≤ b < a + Z.of_nat n → load8 d' b = load8 d b) →
  read_bytes d' a n = read_bytes d a n.
Proof.
  revert a. induction n as [|n IH]; intros a Hb; [done|].
  cbn [read_bytes]. rewrite Hb by lia. f_equal. apply IH.
  intros b ?. apply Hb. lia.
Qed.

(** [memcpy] followed by a read of the same range returns the bytes
    copied. *)
Lemma read_bytes_memcpy d dst src :
  Forall (λ c, 0 ≤ c < 256) src →
  read_bytes (memcpy d dst src) dst (length src) = src.
Proof.
  intros Hsrc. revert d dst. induction Hsrc as [|c src Hc _ IH]; intros d dst; [done|].
  cbn [memcpy length read_bytes]. f_equal.
  - rewrite load8_memcpy_out by lia. rewrite load8_store8_eq.
    apply Z.mod_small. lia.
  - apply IH.
Qed.

(** A 64-bit load only depends on the eight bytes it reads. *)
Lemma load64_frame d d' a :
  (∀ b, a ≤ b < a + 8 → load8 d' b = load8 d b) → load64 d' a = load64 d a.
Proof. intros Hb. unfold load64. apply load_le_frame. intros b ?. apply Hb. lia. Qed.

End Memory.

(** ** Bucket flags (C2) *)

Section BucketFlags.

Lemma is_used_word_testbit w i :
  0 ≤ i mod 64 → is_used_word w i = Z.b2z (Z.testbit w (i mod 64)).
Proof.
  intros Hi. unfold is_used_word.
  change 1 with (Z.ones 1). rewrite Z.land_ones by lia.
  rewrite Z.shiftr_div_pow2 by lia. rewrite Z.testbit_spec' by lia. reflexivity.
Qed.

Lemma int_shl_one_low c : 0 ≤ c < 31 → int_shl 1 c = 2 ^ c.
Proof.
  intros Hc. unfold int_shl, to_int32.
  rewrite Z.mod_small with (a := c) by lia.
  rewrite Z.shiftl_1_l.
  assert (0 < 2 ^ c) by (apply Z.pow_pos_nonneg; lia).
  assert (2 ^ c ≤ 2 ^ 30) by (apply Z.pow_le_mono_r; lia).
  rewrite Z.mod_small; lia.
Qed.

(** Below bit 31 of a word the flag operations are the 64-bit ones. *)
Lemma set_used_word_low w i :
  0 ≤ i mod 64 < 31 → set_used_word w i = Z.lor w (2 ^ (i mod 64)).
Proof.
  intros Hi. unfold set_used_word. rewrite int_shl_one_low by lia.
  unfold to_uint64.
  assert (0 < 2 ^ (i mod 64)) by (apply Z.pow_pos_nonneg; lia).
  assert (2 ^ (i mod 64) ≤ 2 ^ 30) by (apply Z.pow_le_mono_r; lia).
  rewrite Z.mod_small; [done|lia].
Qed.

Lemma set_then_is_used_low w i :
  0 ≤ i mod 64 < 31 → is_used_word (set_used_word w i) i = 1.
Proof.
  intros Hi. rewrite is_used_word_testbit by lia.
  rewrite set_used_word_low by done.
  rewrite Z.lor_spec, Z.pow2_bits_true by lia.
  by rewrite orb_true_r.
Qed.

Lemma unset_then_is_used_low w i :
  0 ≤ i mod 64 < 31 → is_used_word (unset_used_word w i) i = 0.
Proof.
  intros Hi. rewrite is_used_word_testbit by lia.
  unfold unset_used_word, int_not, to_uint64. rewrite int_shl_one_low by lia.
  rewrite Z.land_spec, Z.mod_pow2_bits_low by lia.
  rewrite Z.lnot_spec, Z.pow2_bits_true by lia.
  by rewrite andb_false_r.
Qed.

(** Whatever [int] value the shift produces, widening it to 64 bits never
    gives the one-bit mask of a position above 31. *)
Lemma int_mask_never_high_bit v c :
  - 2 ^ 31 ≤ v < 2 ^ 31 → 32 ≤ c < 64 → to_uint64 v ≠ 2 ^ c.
Proof.
  intros Hv Hc. unfold to_uint64.
  assert (2 ^ 32 ≤ 2 ^ c) by (apply Z.pow_le_mono_r; lia).
  assert (2 ^ c ≤ 2 ^ 63) by (apply Z.pow_le_mono_r; lia).
  destruct (Z_lt_le_dec v 0) as [Hneg|Hpos].
  - rewrite <- (Z.mod_add v 1) by lia. rewrite Z.mod_small; lia.
  - rewrite Z.mod_small; lia.
Qed.

(** And a non-negative [int] value of the shift, whatever it is, sets no
    flag above bit 30 of an empty word. *)
Lemma nonneg_int_mask_misses_high_bits v c :
  0 ≤ v < 2 ^ 31 → 31 ≤ c → Z.testbit (Z.lor 0 (to_uint64 v)) c = false.
Proof.
  intros Hv Hc. rewrite Z.lor_0_l, to_uint64_small by lia.
  destruct (Z.eq_dec v 0) as [->|Hv0]; [apply Z.bits_0|].
  apply Z.bits_above_log2; [lia|].
  assert (Z.log2 v < 31) by (apply Z.log2_lt_pow2; lia). lia.
Qed.

Lemma set_used_mask_wrong i :
  32 ≤ i mod 64 → to_uint64 (int_shl 1 (i mod 64)) ≠ 2 ^ (i mod 64).
Proof.
  intros Hi. apply int_mask_never_high_bit.
  - unfold int_shl, to_int32.
    pose proof (Z.mod_pos_bound (Z.shiftl 1 ((i mod 64) mod 32) + 2 ^ 31) (2 ^ 32)).
    lia.
  - pose proof (Z.mod_pos_bound i 64). lia.
Qed.

(** For every position from 32 to 62 of a word, setting the flag in an empty
    word leaves the flag clear. *)
Lemma set_then_is_used_high c :
  32 ≤ c < 63 → is_used_word (set_used_word 0 c) c = 0.
Proof.
  intros Hc.
  assert (Hall : forallb (λ c, is_used_word (set_used_word 0 c) c =? 0)
                   (seqZ 32 31) = true) by (vm_compute; reflexivity).
  rewrite forallb_forall in Hall.
  apply Z.eqb_eq, Hall, list_elem_of_In, elem_of_seqZ. lia.
Qed.

(** For every position from 32 to 62, clearing the flag in a full word
    leaves the flag set. *)
Lemma unset_then_is_used_high c :
  32 ≤ c < 63 → is_used_word (unset_used_word (2 ^ 64 - 1) c) c = 1.
Proof.
  intros Hc.
  assert (Hall : forallb (λ c, is_used_word (unset_used_word (2 ^ 64 - 1) c) c =? 1)
                   (seqZ 32 31) = true) by (vm_compute; reflexivity).
  rewrite forallb_forall in Hall.
  apply Z.eqb_eq, Hall, list_elem_of_In, elem_of_seqZ. lia.
Qed.

(** C2, evaluated on the region of [hm_init(4096, 64, 0)]: after
    [set_used_bits(33)] the word holds the mask 2 and [is_used_bucket(33)]
    is 0; [set_used_bits(31)] sets bits 31 to 63, so that [is_used_bucket]
    is 1 for bucket 33 as well; and [unset_used_bits(33)] after it leaves
    [is_used_bucket(33)] at 1.  The specification asks for 1 after the set, for the
    one-bit mask, and for 0 after the unset. *)
Theorem used_flags_break_above_bit_31 :
  let reg := region (init_map 4096 64 0) in
  fst (hm_init 0 true 4096 64 0) = HM_OK
  ∧ bucket_flags reg = [0]
  ∧ bucket_flags (set_used_bits reg 33) = [2]
  ∧ is_used_bucket (set_used_bits reg 33) 33 = 0
  ∧ bucket_flags (set_used_bits reg 31) = [2 ^ 64 - 2 ^ 31]
  ∧ is_used_bucket (set_used_bits reg 31) 33 = 1
  ∧ is_used_bucket (unset_used_bits (set_used_bits reg 31) 33) 33 = 1.
Proof. vm_compute. repeat split; reflexivity. Qed.

End BucketFlags.

(** ** Region layout and sizing (C5) *)

Section Layout.

(** Clearing the three low bits rounds down to a multiple of 8. *)
Lemma land_clear_low3 y : 0 ≤ y < 2 ^ 64 → Z.land y (2 ^ 64 - 8) = 8 * (y / 8).
Proof.
  intros Hy.
  replace (8 * (y / 8)) with (Z.shiftl (Z.shiftr y 3) 3)
    by (rewrite Z.shiftl_mul_pow2, Z.shiftr_div_pow2 by lia;
        change (2 ^ 3) with 8; lia).
  change (2 ^ 64 - 8) with (Z.shiftl (Z.ones 61) 3).
  apply Z.bits_inj'. intros n Hn. rewrite Z.land_spec.
  destruct (Z_lt_le_dec n 3) as [Hlow|Hhigh].
  - rewrite !Z.shiftl_spec_low by lia. apply andb_false_r.
  - rewrite !Z.shiftl_spec by lia. rewrite Z.shiftr_spec by lia.
    replace (n - 3 + 3) with n by lia.
    destruct (Z_lt_le_dec n 64) as [Hin|Hout].
    + rewrite Z.ones_spec_low by lia. apply andb_true_r.
    + rewrite Z.ones_spec_high by lia. rewrite andb_false_r.
      destruct (Z.eq_dec y 0) as [->|Hy0]; [by rewrite Z.bits_0|].
      symmetry. apply Z.bits_above_log2; [lia|].
      assert (Z.log2 y < 64) by (apply Z.log2_lt_pow2; lia). lia.
Qed.

Lemma get_aligned_size_spec x :
  0 ≤ x < 2 ^ 64 - 7 → get_aligned_size x = 8 * ((x + 7) / 8).
Proof.
  intros Hx. unfold get_aligned_size, align_size.
  change (to_uint64 (Z.lnot (8 - 1))) with (2 ^ 64 - 8).
  replace (x + 8 - 1) with (x + 7) by lia.
  rewrite to_uint64_small by lia. apply land_clear_low3. lia.
Qed.

Lemma get_aligned_size_bounds x :
  0 ≤ x < 2 ^ 64 - 7 → x ≤ get_aligned_size x < x + 8.
Proof.
  intros Hx. rewrite get_aligned_size_spec by done.
  pose proof (Z.div_mod (x + 7) 8). pose proof (Z.mod_pos_bound (x + 7) 8). lia.
Qed.

(** C5 as stated fails when both [record_kv_size] and [memory_size] are
    given: for [(memory_size, max_buckets, max_free_blocks, record_kv_size)
    = (1000, 4, 0, 10)] the function reports [record_size = 27] and
    [data_size = 720], not [24 + 2 + 10 = 36] and [36 * 4 = 144]. *)
Lemma calc_kv_with_memory_size_overridden :
  let r := hm_calc_required_memory_size stat_zero 1000 4 0 10 in
  fst r = HM_OK
  ∧ s_record_size (snd r) = 27
  ∧ s_data_size (snd r) = 720
  ∧ s_record_size (snd r) ≠ sizeof_hashmap_record_t + 2 + 10
  ∧ s_data_size (snd r) ≠ (sizeof_hashmap_record_t + 2 + 10) * 4.
Proof. vm_compute. repeat split; discriminate. Qed.

(** C5, amended.  The layout has [max_buckets] buckets, or [(memory_size /
    4) / 8] when [max_buckets = 0] (sizing by memory); with both 0 the call
    fails with [HM_MEMORY_SIZE_TOO_SMALL] and reports nothing.  With
    [record_kv_size > 0] and [memory_size = 0] the reported [record_size]
    is [record_header + 2 + record_kv_size] and [data_size] is [record_size
    * max_buckets], which is added to the total.  Whenever [memory_size >
    0], with [max_buckets] given or derived, the two values come from
    [memory_size] instead, also when [record_kv_size > 0]: [data_size] is
    what [memory_size] leaves above the total (the [record_kv_size] data
    included, 0 when nothing is left) and [record_size = data_size /
    (record_header + 2)].  With [memory_size = 0] and [record_kv_size = 0]
    the two fields are left as they were. *)
Theorem calc_required_memory_size_sizes
    (s : hashmap_stat_t) (memory_size max_buckets max_free_blocks record_kv_size : Z) :
  0 ≤ memory_size < 2 ^ 64 →
  0 ≤ max_buckets →
  0 ≤ max_free_blocks →
  0 ≤ record_kv_size →
  sizeof_hashmap_record_t + 2 + record_kv_size < 2 ^ 64 →
  let nb := layout_buckets memory_size max_buckets in
  nb < 2 ^ 31 →
  fixed_overhead nb max_free_blocks + kv_data_size nb record_kv_size < 2 ^ 64 →
  let total := fixed_overhead nb max_free_blocks + kv_data_size nb record_kv_size in
  (max_buckets = 0 → memory_size = 0 →
   hm_calc_required_memory_size s memory_size max_buckets max_free_blocks
     record_kv_size = (HM_MEMORY_SIZE_TOO_SMALL, s))
  ∧ (0 < max_buckets ∨ 0 < memory_size →
     ∃ s',
       hm_calc_required_memory_size s memory_size max_buckets max_free_blocks
         record_kv_size = (HM_OK, s')
       ∧ s_max_buckets s' = nb
       ∧ s_memory_size s' = get_aligned_size total
       ∧ (memory_size = 0 → 0 < record_kv_size →
          s_record_size s' = sizeof_hashmap_record_t + 2 + record_kv_size
          ∧ s_data_size s' = s_record_size s' * nb)
       ∧ (memory_size = 0 → record_kv_size = 0 →
          s_record_size s' = s_record_size s ∧ s_data_size s' = s_data_size s)
       ∧ (0 < memory_size →
          s_data_size s' = Z.max 0 (memory_size - total)
          ∧ s_record_size s' = s_data_size s' / (sizeof_hashmap_record_t + 2))).
Proof.
  intros Hms Hmb Hmfb Hkv Hrec nb Hnb Hfit total.
  split.
  { intros -> ->. reflexivity. }
  intros Hgiven.
  assert (Hnb0 : 0 ≤ nb).
  { subst nb. unfold layout_buckets, sizeof_uint64_t.
    destruct (max_buckets =? 0); [|lia].
    apply Z.div_pos; [apply Z.div_pos|]; lia. }
  unfold hm_calc_required_memory_size.
  replace ((max_buckets =? 0) && (memory_size =? 0)) with false.
  2: { symmetry. apply andb_false_iff.
       destruct Hgiven; [left|right]; apply Z.eqb_neq; lia. }
  change (if max_buckets =? 0 then memory_size / 4 / sizeof_uint64_t else max_buckets)
    with nb.
  clearbody nb. clear Hgiven Hmb max_buckets.
  unfold fixed_overhead, kv_data_size, sizeof_hashmap_header_t, sizeof_uint64_t,
    sizeof_size_t, sizeof_hashmap_record_t in *.
  set (mfb := if max_free_blocks =? 0 then nb else max_free_blocks) in *.
  assert (Hmfb' : 0 ≤ mfb) by (subst mfb; destruct (max_free_blocks =? 0); lia).
  assert (Hflags : 0 ≤ (nb + 63) / 64 < 2 ^ 31).
  { split; [apply Z.div_pos; lia|]. apply Z.div_lt_upper_bound; lia. }
  assert (Hkvd : 0 ≤ (if record_kv_size =? 0 then 0
                      else (24 + 2 + record_kv_size) * nb)).
  { destruct (record_kv_size =? 0); nia. }
  rewrite (to_uint64_small (nb + 63)) by lia.
  rewrite (to_int32_small ((nb + 63) / 64)) by lia.
  rewrite (to_int32_small nb) by lia.
  rewrite (to_uint64_small ((nb + 63) / 64)) by lia.
  rewrite (to_uint64_small ((nb + 63) / 64 * 8)) by lia.
  rewrite (to_uint64_small (nb * 8)) by lia.
  rewrite (to_uint64_small (mfb * 8)) by lia.
  rewrite (to_uint64_small (64 + _ + _ + _)) by lia.
  rewrite (to_uint64_small nb) by lia.
  destruct (Z.eqb_spec record_kv_size 0) as [Hkv0|Hkv0]; cbn [negb].
  - (* record_kv_size = 0 *)
    destruct (Z.eqb_spec memory_size 0) as [Hms0|Hms0]; cbn [negb].
    + eexists. split; [reflexivity|]. cbn.
      subst total. rewrite Z.add_0_r.
      split; [reflexivity|]. split; [reflexivity|].
      split; [lia|]. split; [done|]. lia.
    + destruct (Z.ltb_spec (64 + (nb + 63) / 64 * 8 + nb * 8 + mfb * 8)
                  memory_size) as [Hlt|Hge].
      * eexists. split; [reflexivity|]. cbn. subst total. rewrite Z.add_0_r.
        split; [reflexivity|]. split; [reflexivity|].
        split; [lia|]. split; [lia|]. intros _.
        rewrite Z.max_r by lia. split; reflexivity.
      * eexists. split; [reflexivity|]. cbn. subst total. rewrite Z.add_0_r.
        split; [reflexivity|]. split; [reflexivity|].
        split; [lia|]. split; [lia|]. intros _.
        rewrite Z.max_l by lia. split; reflexivity.
  - (* record_kv_size > 0 *)
    rewrite (to_uint64_small (24 + 2 + record_kv_size)) by lia.
    rewrite (to_uint64_small ((24 + 2 + record_kv_size) * nb)) by nia.
    rewrite (to_uint64_small (_ + (24 + 2 + record_kv_size) * nb)) by nia.
    destruct (Z.eqb_spec memory_size 0) as [Hms0|Hms0]; cbn [negb].
    + eexists. split; [reflexivity|]. cbn.
      split; [reflexivity|]. split; [reflexivity|].
      split; [intros; split; reflexivity|]. split; lia.
    + destruct (Z.ltb_spec
                  (64 + (nb + 63) / 64 * 8 + nb * 8 + mfb * 8
                   + (24 + 2 + record_kv_size) * nb) memory_size) as [Hlt|Hge].
      * eexists. split; [reflexivity|]. cbn.
        split; [reflexivity|]. split; [reflexivity|].
        split; [lia|]. split; [lia|]. intros _.
        subst total. rewrite Z.max_r by lia. split; reflexivity.
      * eexists. split; [reflexivity|]. cbn.
        split; [reflexivity|]. split; [reflexivity|].
        split; [lia|]. split; [lia|]. intros _.
        subst total. rewrite Z.max_l by lia. split; reflexivity.
Qed.

(** The amended statement at [(0, 4, 0, 10)] and [(1000, 4, 0, 10)], and,
    sizing by memory, at [(1000, 0, 0, 0)] (31 buckets, 568 bytes of
    overhead) and [(1000, 0, 0, 10)] (the 31 records of 36 bytes asked for
    do not fit into 1000 bytes). *)
Lemma calc_required_memory_size_sizes_witness :
  (∃ s', hm_calc_required_memory_size stat_zero 0 4 0 10 = (HM_OK, s')
         ∧ s_record_size s' = 36 ∧ s_data_size s' = 144)
  ∧ (∃ s', hm_calc_required_memory_size stat_zero 1000 4 0 10 = (HM_OK, s')
           ∧ s_data_size s' = 720 ∧ s_record_size s' = 27)
  ∧ (∃ s', hm_calc_required_memory_size stat_zero 1000 0 0 0 = (HM_OK, s')
           ∧ s_max_buckets s' = 31 ∧ s_memory_size s' = 568
           ∧ s_data_size s' = 432 ∧ s_record_size s' = 16)
  ∧ (∃ s', hm_calc_required_memory_size stat_zero 1000 0 0 10 = (HM_OK, s')
           ∧ s_max_buckets s' = 31 ∧ s_memory_size s' = 1688
           ∧ s_data_size s' = 0 ∧ s_record_size s' = 0)
  ∧ hm_calc_required_memory_size stat_zero 0 0 0 10
    = (HM_MEMORY_SIZE_TOO_SMALL, stat_zero).
Proof.
  split; [|split; [|split; [|split]]].
  - destruct (calc_required_memory_size_sizes stat_zero 0 4 0 10) as [_ Hok];
      [lia | lia | lia | lia | vm_compute; reflexivity | vm_compute; reflexivity
       | vm_compute; reflexivity |].
    destruct Hok as (s' & Hs & _ & _ & Hkv & _); [left; lia|].
    exists s'. split; [exact Hs|].
    destruct Hkv as [Hr Hd]; [reflexivity | lia |].
    rewrite Hd, Hr. split; reflexivity.
  - destruct (calc_required_memory_size_sizes stat_zero 1000 4 0 10) as [_ Hok];
      [lia | lia | lia | lia | vm_compute; reflexivity | vm_compute; reflexivity
       | vm_compute; reflexivity |].
    destruct Hok as (s' & Hs & _ & _ & _ & _ & Hmem); [left; lia|].
    exists s'. split; [exact Hs|].
    destruct Hmem as [Hd Hr]; [lia|].
    rewrite Hr, Hd. split; reflexivity.
  - destruct (calc_required_memory_size_sizes stat_zero 1000 0 0 0) as [_ Hok];
      [lia | lia | lia | lia | vm_compute; reflexivity | vm_compute; reflexivity
       | vm_compute; reflexivity |].
    destruct Hok as (s' & Hs & Hnb & Hm & _ & _ & Hmem); [right; lia|].
    exists s'. split; [exact Hs|].
    destruct Hmem as [Hd Hr]; [lia|].
    rewrite Hnb, Hm, Hr, Hd. repeat split; reflexivity.
  - destruct (calc_required_memory_size_sizes stat_zero 1000 0 0 10) as [_ Hok];
      [lia | lia | lia | lia | vm_compute; reflexivity | vm_compute; reflexivity
       | vm_compute; reflexivity |].
    destruct Hok as (s' & Hs & Hnb & Hm & _ & _ & Hmem); [right; lia|].
    exists s'. split; [exact Hs|].
    destruct Hmem as [Hd Hr]; [lia|].
    rewrite Hnb, Hm, Hr, Hd. repeat split; reflexivity.
  - destruct (calc_required_memory_size_sizes stat_zero 0 0 0 10) as [Herr _];
      [lia | lia | lia | lia | vm_compute; reflexivity | vm_compute; reflexivity
       | vm_compute; reflexivity |].
    apply Herr; reflexivity.
Defined.

End Layout.

(** ** Hashing (C6) *)

Section Hashing.

Lemma char_to_int_zero b : 0 ≤ b < 256 → (char_to_int b =? 0) = (b =? 0).
Proof.
  intros Hb. unfold char_to_int.
  destruct (Z.ltb_spec b 128); [done|].
  destruct (Z.eqb_spec (b - 256) 0), (Z.eqb_spec b 0); lia.
Qed.

Lemma hash_string_loop_fold h key :
  Forall (λ b, 0 ≤ b < 256) key →
  hash_string_loop h key
  = fold_left (λ h c, to_uint64 (h * 33 + c)) (map char_to_int (c_string key)) h.
Proof.
  intros Hkey. revert h. induction Hkey as [|b key Hb _ IH]; intros h; [done|].
  cbn [hash_string_loop c_string]. rewrite char_to_int_zero by done.
  destruct (b =? 0); [done|].
  cbn [map fold_left]. rewrite IH. do 2 f_equal.
  rewrite Z.shiftl_mul_pow2 by lia. lia.
Qed.

Lemma c_string_no_nul key : Forall (λ b, b ≠ 0) key → c_string key = key.
Proof.
  induction 1 as [|b key Hb _ IH]; [done|].
  cbn [c_string]. destruct (Z.eqb_spec b 0); [done|]. by rewrite IH.
Qed.

Lemma hash_string_loop_range h key :
  0 ≤ h < 2 ^ 64 → 0 ≤ hash_string_loop h key < 2 ^ 64.
Proof.
  revert h. induction key as [|b key IH]; intros h Hh; [done|].
  cbn [hash_string_loop]. destruct (char_to_int b =? 0); [done|].
  apply IH, to_uint64_range.
Qed.

Lemma hash_string_range key : 0 ≤ hash_string key < 2 ^ 64.
Proof. apply hash_string_loop_range. lia. Qed.

(** The three header fields of the record that [hm_insert] writes. *)
Lemma write_record_header d off key key_len value :
  0 ≤ key_len →
  record_hash (write_record d off key key_len value) off = hash_string key
  ∧ record_key_size (write_record d off key key_len value) off = to_uint64 key_len
  ∧ record_value_size (write_record d off key key_len value) off
    = to_uint64 (Z.of_nat (length value)).
Proof.
  intros Hlen.
  unfold write_record, hm_get_record_value, hm_get_record_key,
    sizeof_hashmap_record_t.
  set (d1 := store64 d off (hash_string key)).
  set (d2 := store64 d1 (off + 8) key_len).
  set (d3 := store64 d2 (off + 16) (Z.of_nat (length value))).
  set (d4 := memcpy d3 (off + 24) (take (Z.to_nat key_len) key)).
  set (d5 := store8 d4 (off + 24 + key_len) 0).
  assert (Hhdr : ∀ b, off ≤ b < off + 24 → load8 d5 b = load8 d3 b).
  { intros b Hb. subst d5 d4.
    rewrite load8_store8_ne by lia. apply load8_memcpy_out. lia. }
  assert (Hks : record_key_size d5 off = to_uint64 key_len).
  { unfold record_key_size. rewrite (load64_frame d3) by (intros; apply Hhdr; lia).
    subst d3. rewrite (load64_frame d2) by (intros; apply load8_store64_out; lia).
    apply load64_store64_eq. }
  rewrite Hks.
  pose proof (to_uint64_range key_len) as Hk.
  set (ptr := off + 24 + to_uint64 key_len + 1).
  set (d6 := memcpy d5 ptr value).
  set (d7 := store8 d6 (ptr + Z.of_nat (length value)) 0).
  assert (Hhdr' : ∀ b, off ≤ b < off + 24 → load8 d7 b = load8 d3 b).
  { intros b Hb. subst d7 d6.
    rewrite load8_store8_ne by lia. rewrite load8_memcpy_out by lia.
    by apply Hhdr. }
  unfold record_hash, record_key_size, record_value_size.
  repeat split.
  - rewrite (load64_frame d3) by (intros; apply Hhdr'; lia).
    subst d3 d2. rewrite (load64_frame d1).
    + subst d1. rewrite load64_store64_eq. apply to_uint64_small, hash_string_range.
    + intros b Hb. rewrite load8_store64_out by lia. apply load8_store64_out. lia.
  - rewrite (load64_frame d3) by (intros; apply Hhdr'; lia).
    subst d3. rewrite (load64_frame d2) by (intros; apply load8_store64_out; lia).
    apply load64_store64_eq.
  - rewrite (load64_frame d3) by (intros; apply Hhdr'; lia).
    apply load64_store64_eq.
Qed.

(** What [find_record] has checked when it returns a record. *)
Lemma find_record_loop_found k reg key key_len hash index found_index i r b :
  find_record_loop k reg key key_len hash index found_index i = (Some r, b) →
  nthZ (buckets reg) b = r
  ∧ r ≠ 0
  ∧ is_used_bucket reg b ≠ 0
  ∧ record_hash (data reg) r = hash
  ∧ record_key_size (data reg) r = key_len
  ∧ memcmp_eq (data reg) (hm_get_record_key r) (take (Z.to_nat key_len) key) = true.
Proof.
  revert i. induction k as [|k IH]; intros i; [discriminate|].
  cbn [find_record_loop].
  destruct (Z.eqb_spec (nthZ (buckets reg) ((index + i) mod max_buckets (hdr reg))) 0);
    [discriminate|].
  destruct (Z.eqb_spec (is_used_bucket reg ((index + i) mod max_buckets (hdr reg))) 0);
    cbn [negb]; [apply IH|].
  destruct (_ && _) eqn:Hmatch; [|apply IH].
  intros [= <- <-].
  apply andb_prop in Hmatch as [Hmatch Hcmp].
  apply andb_prop in Hmatch as [Hh Hk].
  apply Z.eqb_eq in Hh, Hk. done.
Qed.

(** The bytes before the first NUL are the first [n] bytes exactly when
    none of these is NUL and a NUL follows them. *)
Lemma c_string_take key (n : nat) :
  (n ≤ length key)%nat →
  c_string key = take n key
  ↔ Forall (λ b, b ≠ 0) (take n key) ∧ nthZ key (Z.of_nat n) = 0.
Proof.
  revert n. induction key as [|b key IH]; intros n Hn.
  - cbn [length] in Hn. replace n with 0%nat by lia. cbn. split; [|done].
    intros _. split; [constructor|done].
  - destruct n as [|n].
    + cbn [c_string take]. unfold nthZ. cbn.
      destruct (Z.eqb_spec b 0) as [->|Hb].
      * split; [|done]. intros _. split; [constructor|done].
      * split; [discriminate|]. intros [_ ?]. done.
    + cbn [c_string take]. cbn [length] in Hn.
      replace (nthZ (b :: key) (Z.of_nat (S n))) with (nthZ key (Z.of_nat n))
        by (unfold nthZ; by rewrite !Nat2Z.id).
      destruct (Z.eqb_spec b 0) as [->|Hb].
      * split; [discriminate|]. intros [Hall _]. by inversion Hall.
      * specialize (IH n ltac:(lia)). rewrite Forall_cons. split.
        -- intros [= Heq]. apply IH in Heq as [? ?]. done.
        -- intros [[_ Hall] Hnul]. f_equal. apply IH. done.
Qed.




End Hashing.

(** ** Probing (C4, C9) *)

Section Probing.

(** A probe that does not find the key reports as insertion candidate a
    slot whose offset is 0, or [max_buckets] when it met none: a slot with
    a stale offset is never reported. *)
Lemma find_record_loop_candidate k reg key key_len hash index i b :
  find_record_loop k reg key key_len hash index (max_buckets (hdr reg)) i = (None, b) →
  b = max_buckets (hdr reg) ∨ nthZ (buckets reg) b = 0.
Proof.
  revert i. induction k as [|k IH]; intros i.
  - cbn. intros [= <-]. by left.
  - cbn [find_record_loop].
    destruct (Z.eqb_spec (nthZ (buckets reg) ((index + i) mod max_buckets (hdr reg))) 0)
      as [Hz|Hnz].
    + rewrite Z.eqb_refl. intros [= <-]. by right.
    + destruct (negb _); [|apply IH].
      destruct (_ && _); [discriminate|apply IH].
Qed.

Lemma find_record_candidate reg key key_len b :
  find_record reg key key_len = (None, b) →
  b = max_buckets (hdr reg) ∨ nthZ (buckets reg) b = 0.
Proof. apply find_record_loop_candidate. Qed.

(** C4, evaluated.  After [set("a", "1")] and [del("a")] on the map of
    [hm_init(1000, 4, 0)], slot 2, the home slot of "a", holds a stale
    offset with its used bit clear.  The probe for "a" passes it and
    reports slot 3, the first slot with offset 0, not slot 2.  After four
    such rounds every slot holds a stale offset and a fifth [set] returns
    [HM_NO_EMPTY_BUCKET] on a map without any live key. *)
Theorem find_record_never_reports_tombstone :
  let round := [Insert [97] [49]; Delete [97]] in
  let m := snd (run (init_map 1000 4 0) round) in
  fst (run (init_map 1000 4 0) round) = [HM_OK; HM_OK]
  ∧ hash_string [97] mod 4 = 2
  ∧ nthZ (buckets (region m)) 2 = 136
  ∧ is_used_bucket (region m) 2 = 0
  ∧ find_record (region m) [97] 1 = (None, 3)
  ∧ fst (run (init_map 1000 4 0) (round ++ round ++ round ++ round ++ [Insert [97] [49]]))
    = [HM_OK; HM_OK; HM_OK; HM_OK; HM_OK; HM_OK; HM_OK; HM_OK; HM_NO_EMPTY_BUCKET].
Proof. vm_compute. repeat split; reflexivity. Qed.

(** The bytes that [memcpy] and [memcmp] read of a string passed with its
    length. *)
Lemma take_whole_key (key : list Z) : take (Z.to_nat (Z.of_nat (length key))) key = key.
Proof. rewrite Nat2Z.id. apply firstn_all. Qed.

(** [find_record] only reads the region, so do [hm_search] and the
    [HM_NOT_FOUND] path of [hm_delete]. *)
Lemma hm_delete_not_found_iff m key key_len :
  fst (hm_delete m key key_len) = HM_NOT_FOUND
  ↔ fst (hm_search m key key_len) = HM_NOT_FOUND.
Proof.
  unfold hm_delete, hm_search, lock_region_for_write, lock_region_for_read.
  destruct (negb (lock m =? 0)); [done|].
  destruct (find_record _ _ _) as [[r|] b]; cbn; [|done].
  destruct (negb _); cbn; split; discriminate.
Qed.

(** A key that no slot holds is reported as not found. *)
Lemma absent_key_not_found m key :
  lock m = 0 →
  (∀ b, ¬ key_at (region m) key b) →
  hm_search m key (Z.of_nat (length key)) = (HM_NOT_FOUND, None).
Proof.
  intros Hlock Habsent. unfold hm_search, lock_region_for_read.
  rewrite Hlock. cbn [Z.eqb negb].
  destruct (find_record _ _ _) as [[r|] b] eqn:Hfind; [|done].
  exfalso. apply (Habsent b). unfold find_record in Hfind.
  apply find_record_loop_found in Hfind as (Hr & Hnz & Hused & Hhash & Hsize & Hcmp).
  rewrite take_whole_key in Hcmp.
  unfold key_at. rewrite Hr. done.
Qed.

(** Deleting a key that no slot holds returns [HM_NOT_FOUND] and the handle
    it was given. *)
Lemma hm_delete_absent_key m key :
  lock m = 0 →
  (∀ b, ¬ key_at (region m) key b) →
  hm_delete m key (Z.of_nat (length key)) = (HM_NOT_FOUND, m).
Proof.
  intros Hlock Habsent. unfold hm_delete, lock_region_for_write, unlock_region.
  pose proof (absent_key_not_found m key Hlock Habsent) as Hsearch.
  unfold hm_search, lock_region_for_read in Hsearch.
  destruct (negb (lock m =? 0)); [discriminate|].
  destruct (find_record _ _ _) as [[r|] b]; [discriminate|done].
Qed.

(** C9, evaluated.  On the map of [hm_init(488, 16, 0)] the keys "a", "x"
    and "b" are set, which fills the arena, "a" and "x" are deleted and "c"
    and "d" are set; the seven calls return [HM_OK] and none of them
    passes the key "r".  The block freed for "a" has the stored size 36 for
    a record of 28 bytes, so the record of "c" ends in the size field of
    the block freed for "x" and sets it to 132, and the record of "d",
    which takes that block, runs over the record of "b" at 456.  The value
    of "d" puts the hash, the sizes and the bytes of a record of "r"
    there.  Before the last call "r" is not found; after it [hm_search]
    finds "r", and [hm_delete] of "r" returns [HM_OK], not
    [HM_NOT_FOUND], and changes the region: one more free block, a size
    field at 456 and a cleared used bit. *)
Theorem hm_delete_finds_never_set_key :
  let record_of_r :=
    [23; 182; 2; 0; 0; 0; 0; 0] ++ [1; 0; 0; 0; 0; 0; 0; 0]
    ++ [5; 0; 0; 0; 0; 0; 0; 0] ++ [114; 0] ++ [102; 111; 114; 103; 101] in
  let before :=
    [Insert [97] [49]; Insert [120] (replicate 73 46); Insert [98] [50; 50; 50; 50; 50];
     Delete [97]; Delete [120]; Insert [99] [49; 49; 132; 0; 0; 0; 0; 0; 0]] in
  let calls := before ++ [Insert [100] (replicate 74 46 ++ record_of_r)] in
  let m := snd (run (init_map 488 16 0) calls) in
  let m' := snd (hm_delete m [114] 1) in
  fst (run (init_map 488 16 0) calls)
  = [HM_OK; HM_OK; HM_OK; HM_OK; HM_OK; HM_OK; HM_OK]
  ∧ hash_string [114] = 177687
  ∧ hm_search (snd (run (init_map 488 16 0) before)) [114] 1 = (HM_NOT_FOUND, None)
  ∧ hm_search_bytes (snd (run (init_map 488 16 0) before)) [98] 1
    = (HM_OK, Some [50; 50; 50; 50; 50])
  ∧ hm_search m [114] 1 = (HM_OK, Some (482, 5))
  ∧ hm_search_bytes m [114] 1 = (HM_OK, Some [102; 111; 114; 103; 101])
  ∧ fst (hm_delete m [114] 1) = HM_OK
  ∧ num_free_blocks (hdr (region m)) = 0
  ∧ num_free_blocks (hdr (region m')) = 1
  ∧ load64 (data (region m)) 456 = 177687
  ∧ load64 (data (region m')) 456 = 40
  ∧ is_used_bucket (region m) 7 = 1
  ∧ is_used_bucket (region m') 7 = 0.
Proof. vm_compute. repeat split; reflexivity. Qed.

End Probing.

(** ** Freelist allocator (C3, C10) *)

Section Freelist.

(** The binary search of [add_free_block] ends between its bounds. *)
Lemma add_free_block_search_range fuel d fl size lo hi :
  lo ≤ hi + 1 →
  lo ≤ add_free_block_search fuel d fl size lo hi ≤ hi + 1.
Proof.
  revert lo hi. induction fuel as [|fuel IH]; intros lo hi Hle; cbn [add_free_block_search]; [lia|].
  destruct (Z.leb_spec lo hi) as [Hlh|Hlh]; [|lia].
  assert (lo ≤ (lo + hi) / 2 ≤ hi).
  { split; [apply Z.div_le_lower_bound|apply Z.div_le_upper_bound]; lia. }
  destruct (_ <? size).
  - specialize (IH ((lo + hi) / 2 + 1) hi). lia.
  - specialize (IH lo ((lo + hi) / 2 - 1)). lia.
Qed.

(** The loop ends by its own test before the fuel runs out: any two
    amounts of fuel that cover the interval give the same index. *)
Lemma add_free_block_search_fuel fuel1 fuel2 d fl size lo hi :
  hi - lo + 1 ≤ Z.of_nat fuel1 → hi - lo + 1 ≤ Z.of_nat fuel2 →
  add_free_block_search fuel1 d fl size lo hi
  = add_free_block_search fuel2 d fl size lo hi.
Proof.
  revert fuel2 lo hi.
  induction fuel1 as [|fuel1 IH]; intros [|fuel2] lo hi H1 H2;
    cbn [add_free_block_search]; try reflexivity.
  - destruct (Z.leb_spec lo hi); [lia|reflexivity].
  - destruct (Z.leb_spec lo hi); [lia|reflexivity].
  - destruct (Z.leb_spec lo hi) as [Hlh|Hlh]; [|reflexivity].
    assert (lo ≤ (lo + hi) / 2 ≤ hi).
    { split; [apply Z.div_le_lower_bound|apply Z.div_le_upper_bound]; lia. }
    destruct (_ <? size); apply IH; lia.
Qed.

(** When every block of the interval is smaller than the new one, the search
    ends one past the interval. *)
Lemma add_free_block_search_all_smaller fuel d fl size lo hi :
  lo ≤ hi + 1 → hi - lo + 1 ≤ Z.of_nat fuel →
  (∀ i, lo ≤ i ≤ hi → load64 d (nthZ fl i) < size) →
  add_free_block_search fuel d fl size lo hi = hi + 1.
Proof.
  revert lo. induction fuel as [|fuel IH]; intros lo Hle Hfuel Hsmall;
    cbn [add_free_block_search].
  - lia.
  - destruct (Z.leb_spec lo hi) as [Hlh|Hlh]; [|lia].
    assert (lo ≤ (lo + hi) / 2 ≤ hi).
    { split; [apply Z.div_le_lower_bound|apply Z.div_le_upper_bound]; lia. }
    destruct (Z.ltb_spec (load64 d (nthZ fl ((lo + hi) / 2))) size) as [Hlt|Hge].
    + apply IH; [lia|lia|]. intros i Hi. apply Hsmall. lia.
    + specialize (Hsmall ((lo + hi) / 2)). lia.
Qed.

(** The same for the binary search of [find_free_block]. *)
Lemma find_free_block_search_fuel fuel1 fuel2 d fl required_space lo hi :
  hi - lo + 1 ≤ Z.of_nat fuel1 → hi - lo + 1 ≤ Z.of_nat fuel2 →
  find_free_block_search fuel1 d fl required_space lo hi
  = find_free_block_search fuel2 d fl required_space lo hi.
Proof.
  revert fuel2 lo hi.
  induction fuel1 as [|fuel1 IH]; intros [|fuel2] lo hi H1 H2;
    cbn [find_free_block_search]; try reflexivity.
  - destruct (Z.leb_spec lo hi); [lia|reflexivity].
  - destruct (Z.leb_spec lo hi); [lia|reflexivity].
  - destruct (Z.leb_spec lo hi) as [Hlh|Hlh]; [|reflexivity].
    assert (lo ≤ (lo + hi) / 2 ≤ hi).
    { split; [apply Z.div_le_lower_bound|apply Z.div_le_upper_bound]; lia. }
    destruct (_ =? required_space); [reflexivity|].
    destruct (required_space <? _); apply IH; lia.
Qed.

(** The index at which the search of [find_free_block] ends, when it meets
    no block of the exact size, lies between its bounds. *)
Lemma find_free_block_search_range fuel d fl required_space lo hi i :
  lo ≤ hi + 1 →
  find_free_block_search fuel d fl required_space lo hi = inr i →
  lo ≤ i ≤ hi + 1.
Proof.
  revert lo hi. induction fuel as [|fuel IH]; intros lo hi Hle;
    cbn [find_free_block_search].
  - intros [= <-]. lia.
  - destruct (Z.leb_spec lo hi) as [Hlh|Hlh]; [|intros [= <-]; lia].
    assert (lo ≤ (lo + hi) / 2 ≤ hi).
    { split; [apply Z.div_le_lower_bound|apply Z.div_le_upper_bound]; lia. }
    destruct (_ =? required_space); [discriminate|].
    destruct (required_space <? _); intros Hi; apply IH in Hi; lia.
Qed.

(** The sorting loop of the merge branch runs at most [n - i] times. *)
Lemma add_free_block_sort_fuel fuel1 fuel2 d fl offset size i n :
  n - i ≤ Z.of_nat fuel1 → n - i ≤ Z.of_nat fuel2 →
  add_free_block_sort fuel1 d fl offset size i n
  = add_free_block_sort fuel2 d fl offset size i n.
Proof.
  revert fuel2 fl i.
  induction fuel1 as [|fuel1 IH]; intros [|fuel2] fl i H1 H2;
    cbn [add_free_block_sort]; try reflexivity.
  - destruct (Z.ltb_spec i n); [lia|reflexivity].
  - destruct (Z.ltb_spec i n); [lia|reflexivity].
  - destruct (Z.ltb_spec i n); [|reflexivity].
    destruct (_ <? size); [|reflexivity]. apply IH; lia.
Qed.

Lemma add_free_block_left_range reg size :
  0 ≤ num_free_blocks (hdr reg) →
  0 ≤ add_free_block_left reg size ≤ num_free_blocks (hdr reg).
Proof.
  intros Hn. unfold add_free_block_left.
  destruct (Z.ltb_spec 0 (num_free_blocks (hdr reg))); [|lia].
  pose proof (add_free_block_search_range (Z.to_nat (num_free_blocks (hdr reg)))
                (data reg) (freelist reg) size 0 (num_free_blocks (hdr reg) - 1)).
  lia.
Qed.

(** The index that [add_free_block] compares and inserts at is
    [num_free_blocks], one past the live entries, whenever all live blocks
    are smaller than the new one. *)
Lemma add_free_block_left_all_smaller reg size :
  0 < num_free_blocks (hdr reg) →
  (∀ i, 0 ≤ i < num_free_blocks (hdr reg) →
        load64 (data reg) (nthZ (freelist reg) i) < size) →
  add_free_block_left reg size = num_free_blocks (hdr reg).
Proof.
  intros Hn Hsmall. unfold add_free_block_left.
  destruct (Z.ltb_spec 0 (num_free_blocks (hdr reg))); [|lia].
  rewrite add_free_block_search_all_smaller; [lia|lia|lia|].
  intros i Hi. apply Hsmall. lia.
Qed.

(** The size [add_free_block] stores in the first 8 bytes of the block:
    its [size] argument plus 8, to which a merge adds the stored size of the
    entry it merges with. *)
Lemma add_free_block_stored_size reg offset size :
  let size8 := to_uint64 (size + sizeof_size_t) in
  let reg' := snd (add_free_block reg offset size) in
  load64 (data reg') offset = size8
  ∨ load64 (data reg') offset
    = to_uint64 (size8 + load64 (data reg)
                           (nthZ (freelist reg) (add_free_block_left reg size8))).
Proof.
  intros size8 reg'. subst reg'. unfold add_free_block. fold size8.
  destruct (_ && _); cbn [snd data with_data with_hdr with_freelist].
  - right. rewrite load64_store64_eq. apply to_uint64_small, to_uint64_range.
  - left. rewrite load64_store64_eq. apply to_uint64_small, to_uint64_range.
Qed.

(** The split of [find_free_block]: when the search ends on a block that is
    larger than required by at least 8 bytes and the freelist has room, the
    block is removed and its tail re-inserted with the whole remainder as
    the [size] argument of [add_free_block].  The size stored for the tail
    is therefore the remainder plus 8 (plus the stored size of the entry a
    merge joins it to). *)
Lemma find_free_block_split reg required_space lo :
  let n := num_free_blocks (hdr reg) in
  let offset := nthZ (freelist reg) lo in
  let remaining_size := to_uint64 (load64 (data reg) offset - required_space) in
  let tail := to_uint64 (offset + required_space) in
  n ≠ 0 →
  find_free_block_search (Z.to_nat n) (data reg) (freelist reg) required_space 0 (n - 1)
  = inr lo →
  lo < n →
  sizeof_size_t ≤ remaining_size →
  has_empty_free_block reg = true →
  let r := find_free_block reg required_space in
  fst r = offset
  ∧ snd r = snd (add_free_block (remove_free_block reg lo) tail remaining_size)
  ∧ (load64 (data (snd r)) tail = to_uint64 (remaining_size + sizeof_size_t)
     ∨ load64 (data (snd r)) tail
       = to_uint64 (to_uint64 (remaining_size + sizeof_size_t)
                    + load64 (data reg)
                        (nthZ (freelist (remove_free_block reg lo))
                           (add_free_block_left (remove_free_block reg lo)
                              (to_uint64 (remaining_size + sizeof_size_t)))))).
Proof.
  intros n offset remaining_size tail Hn Hsearch Hlo Hrem Hempty r.
  assert (Hr : r = (offset, snd (add_free_block (remove_free_block reg lo) tail
                                   remaining_size))).
  { subst r. unfold find_free_block. fold n.
    destruct (Z.eqb_spec n 0); [done|].
    rewrite Hsearch.
    destruct (Z.ltb_spec lo n); [|lia].
    fold offset. fold remaining_size. fold tail.
    unfold sizeof_size_t in *.
    destruct (Z.eqb_spec remaining_size 0); [lia|].
    destruct (Z.ltb_spec remaining_size 8); [lia|].
    rewrite Hempty. reflexivity. }
  rewrite Hr. cbn [fst snd]. repeat split.
  apply (add_free_block_stored_size (remove_free_block reg lo) tail remaining_size).
Qed.

(** C3, evaluated.  After [set("a", "1")] and [del("a")] on the map of
    [hm_init(184, 4, 0)] the freelist holds one block, at 136 with stored
    size 36.  [find_free_block(27)] takes it and splits it: the remainder
    is 9, and the tail is re-inserted at 163 with stored size 17, so the
    tail block ends at 180, past the end 172 of the block it was cut from.
    [set("c", "")] on that map is such a call.  The specification asks for a stored
    size equal to the remainder. *)
Theorem find_free_block_split_tail_too_large :
  let m := snd (run (init_map 184 4 0) [Insert [97] [49]; Delete [97]]) in
  let reg := region m in
  let r := find_free_block reg 27 in
  freelist_sizes reg = [36]
  ∧ nthZ (freelist reg) 0 = 136
  ∧ fst r = 136
  ∧ num_free_blocks (hdr (snd r)) = 1
  ∧ nthZ (freelist (snd r)) 0 = 136 + 27
  ∧ load64 (data (snd r)) (136 + 27) = (36 - 27) + 8
  ∧ fst (hm_insert m [99] 1 []) = HM_OK
  ∧ freelist_sizes (region (snd (hm_insert m [99] 1 []))) = [17].
Proof. vm_compute. repeat split; reflexivity. Qed.

(** C10, evaluated.  After [set("a", "1")], [set("b", "234")] and
    [del("a")] on the map of [hm_init(1000, 4, 0)] the freelist has one live
    entry, of stored size 36.  [del("b")] calls [add_free_block(reg, 164,
    30)]: the new stored size is 38, the search ends at [left = 1], and the
    merge comparison reads [freelist[1]] while [num_free_blocks] is 1.  The
    specification asks for [left < num_free_blocks]. *)
Theorem add_free_block_reads_past_live_entries :
  let m := snd (run (init_map 1000 4 0)
                  [Insert [97] [49]; Insert [98] [50; 51; 52]; Delete [97]]) in
  let reg := region m in
  find_record reg [98] 1 = (Some 164, 3)
  ∧ hm_get_record_size (data reg) 164 = 30
  ∧ add_free_block_asserts reg 30 = true
  ∧ num_free_blocks (hdr reg) = 1
  ∧ freelist_sizes reg = [36]
  ∧ add_free_block_left reg (to_uint64 (30 + sizeof_size_t)) = 1
  ∧ fst (hm_delete m [98] 1) = HM_OK.
Proof. vm_compute. repeat split; reflexivity. Qed.

End Freelist.

(** ** Header invariants (C7) *)

Section Header.

Lemma add_free_block_hdr reg offset size :
  hdr (snd (add_free_block reg offset size)) = hdr reg
  ∨ hdr (snd (add_free_block reg offset size))
    = set_num_free_blocks (hdr reg) (to_int32 (num_free_blocks (hdr reg) + 1)).
Proof.
  unfold add_free_block. destruct (_ && _); cbn; [by left|by right].
Qed.

Lemma add_free_block_header_ok reg offset size :
  header_ok (hdr reg) → has_empty_free_block reg = true →
  header_ok (hdr (snd (add_free_block reg offset size))).
Proof.
  intros Hok Hempty. unfold has_empty_free_block in Hempty.
  apply Z.ltb_lt in Hempty.
  destruct (add_free_block_hdr reg offset size) as [-> | ->]; [done|].
  unfold header_ok in *. cbn. rewrite to_int32_small; lia.
Qed.

Lemma find_free_block_header_ok reg required_space :
  header_ok (hdr reg) → header_ok (hdr (snd (find_free_block reg required_space))).
Proof.
  intros Hok. unfold find_free_block.
  destruct (Z.eqb_spec (num_free_blocks (hdr reg)) 0) as [Hn|Hn]; [done|].
  assert (Hrm : ∀ i, header_ok (hdr (remove_free_block reg i))).
  { intros i. unfold header_ok in *. cbn. rewrite to_int32_small; lia. }
  destruct (find_free_block_search _ _ _ _ _ _) as [mid|lo]; [apply Hrm|].
  destruct (lo <? _); [|done].
  destruct (_ =? 0); [apply Hrm|].
  destruct (Z.ltb_spec (to_uint64 (load64 (data reg) (nthZ (freelist reg) lo)
                                   - required_space)) sizeof_size_t); [done|].
  cbn [orb]. destruct (has_empty_free_block reg) eqn:Hempty; [|done].
  cbn [negb]. apply add_free_block_header_ok; [apply Hrm|].
  unfold has_empty_free_block in *. apply Z.ltb_lt in Hempty. apply Z.ltb_lt.
  unfold header_ok in Hok. cbn. rewrite to_int32_small; lia.
Qed.

(** Every [hm_insert], successful or not, keeps the header invariant. *)
Lemma hm_insert_header_ok m key value :
  header_ok (hdr (region m)) →
  header_ok (hdr (region (snd (hm_insert m key (Z.of_nat (length key)) value)))).
Proof.
  intros Hok. unfold hm_insert, lock_region_for_write, unlock_region.
  destruct (negb (lock m =? 0)); [done|].
  destruct (find_record _ _ _) as [r b].
  destruct (is_null r && _); [done|].
  set (required := to_uint64 _).
  assert (Hplace : ∀ reg, header_ok (hdr reg) →
    header_ok (hdr (region (snd
      (let insert_offset := data_tail (hdr reg) in
       let available_space := to_uint64 (memory_size (hdr reg) - data_tail (hdr reg)) in
       let '(insert_offset, reg) :=
         if available_space <? required then find_free_block reg required
         else (insert_offset, reg) in
       if (available_space <? required) && (insert_offset =? SIZE_MAX) then
         (HM_NO_SPACE, with_region m reg)
       else
         let reg := with_buckets reg (setZ (buckets reg) b insert_offset) in
         let reg := set_used_bits reg b in
         let reg := with_data reg
             (write_record (data reg) insert_offset key (Z.of_nat (length key)) value) in
         let reg :=
           if required <=? available_space then
             with_hdr reg (set_data_tail (hdr reg)
                             (to_uint64 (data_tail (hdr reg) + required)))
           else reg in
         (HM_OK, with_region m reg)))))).
  { intros reg Hreg. cbn zeta.
    pose proof (to_uint64_range (sizeof_hashmap_record_t + Z.of_nat (length key)
                                 + Z.of_nat (length value) + 2)) as Hreq.
    fold required in Hreq.
    assert (Havail : to_uint64 (memory_size (hdr reg) - data_tail (hdr reg))
                     = memory_size (hdr reg) - data_tail (hdr reg)).
    { apply to_uint64_small. unfold header_ok in Hreg. lia. }
    rewrite Havail.
    destruct (Z.ltb_spec (memory_size (hdr reg) - data_tail (hdr reg)) required)
      as [Hlt|Hge].
    - pose proof (find_free_block_header_ok reg required Hreg) as Hfind.
      destruct (find_free_block reg required) as [off reg'].
      cbn [andb snd] in *.
      destruct (off =? SIZE_MAX); [done|].
      destruct (Z.leb_spec required (memory_size (hdr reg) - data_tail (hdr reg)));
        [lia|done].
    - cbn [andb].
      destruct (Z.leb_spec required (memory_size (hdr reg) - data_tail (hdr reg)));
        [|lia].
      unfold header_ok in *. cbn. rewrite to_uint64_small; lia. }
  destruct r as [r|]; [|by apply Hplace].
  destruct (_ =? Z.of_nat (length value)); [done|].
  destruct (has_empty_free_block (region m)) eqn:Hempty; cbn [negb]; [|done].
  apply Hplace. by apply add_free_block_header_ok.
Qed.

(** Every [hm_delete], successful or not, keeps the header invariant. *)
Lemma hm_delete_header_ok m key :
  header_ok (hdr (region m)) →
  header_ok (hdr (region (snd (hm_delete m key (Z.of_nat (length key)))))).
Proof.
  intros Hok. unfold hm_delete, lock_region_for_write, unlock_region.
  destruct (negb (lock m =? 0)); [done|].
  destruct (find_record _ _ _) as [[r|] b]; [|done].
  destruct (has_empty_free_block (region m)) eqn:Hempty; cbn [negb]; [|done].
  cbn. by apply add_free_block_header_ok.
Qed.

(** A run of calls keeps the header invariant. *)
Lemma run_header_ok cs m :
  header_ok (hdr (region m)) → header_ok (hdr (region (snd (run m cs)))).
Proof.
  revert m. induction cs as [|c cs IH]; intros m Hok; [done|].
  cbn [run].
  assert (Hc : header_ok (hdr (region (snd (do_call m c))))).
  { destruct c; [by apply hm_insert_header_ok|by apply hm_delete_header_ok]. }
  destruct (do_call m c) as [e m1]. cbn [snd] in Hc.
  specialize (IH m1 Hc). destruct (run m1 cs) as [es m2]. done.
Qed.

(** The header that [hm_init] writes satisfies the invariant, for sizes
    that the 32-bit fields of the header can hold. *)
Lemma hm_init_header_ok lock_errno mmap_ok memory_size max_buckets max_free_blocks m :
  0 ≤ memory_size < 2 ^ 35 →
  0 ≤ max_buckets < 2 ^ 31 →
  0 ≤ max_free_blocks < 2 ^ 31 →
  hm_init lock_errno mmap_ok memory_size max_buckets max_free_blocks = (HM_OK, Some m) →
  header_ok (hdr (region m))
  ∧ lock m = 0
  ∧ num_free_blocks (hdr (region m)) = 0
  ∧ data_tail (hdr (region m)) = data_offset (hdr (region m)).
Proof.
  intros Hms Hmb Hmfb. unfold hm_init.
  pose proof (get_aligned_size_bounds memory_size) as Hal.
  set (ms := get_aligned_size memory_size) in *.
  assert (Hms' : 0 ≤ ms < 2 ^ 35 + 8) by lia. clear Hal.
  unfold hm_calc_required_memory_size.
  destruct ((max_buckets =? 0) && (ms =? 0)); [discriminate|].
  set (mb := if max_buckets =? 0 then ms / 4 / sizeof_uint64_t else max_buckets).
  set (mfb := if max_free_blocks =? 0 then mb else max_free_blocks).
  assert (Hmb' : 0 ≤ mb < 2 ^ 31).
  { subst mb. destruct (max_buckets =? 0); [|lia]. unfold sizeof_uint64_t.
    split; [apply Z.div_pos; [apply Z.div_pos|]; lia|].
    apply Z.div_lt_upper_bound; [lia|]. apply Z.div_lt_upper_bound; lia. }
  assert (Hmfb' : 0 ≤ mfb < 2 ^ 31).
  { subst mfb. destruct (max_free_blocks =? 0); lia. }
  assert (Hflags : 0 ≤ (mb + 63) / 64 < 2 ^ 31).
  { split; [apply Z.div_pos; lia|]. apply Z.div_lt_upper_bound; lia. }
  unfold sizeof_hashmap_header_t, sizeof_uint64_t, sizeof_size_t,
    sizeof_hashmap_record_t in *.
  cbn [negb Z.eqb].
  rewrite (to_uint64_small (mb + 63)) by lia.
  rewrite (to_int32_small ((mb + 63) / 64)) by lia.
  rewrite (to_int32_small mb) by lia.
  rewrite (to_int32_small mfb) by lia.
  rewrite (to_uint64_small ((mb + 63) / 64)) by lia.
  rewrite (to_uint64_small ((mb + 63) / 64 * 8)) by lia.
  rewrite (to_uint64_small (mb * 8)) by lia.
  rewrite (to_uint64_small (mfb * 8)) by lia.
  rewrite (to_uint64_small (64 + (mb + 63) / 64 * 8 + mb * 8 + mfb * 8)) by lia.
  set (total := 64 + (mb + 63) / 64 * 8 + mb * 8 + mfb * 8).
  pose proof (get_aligned_size_bounds total) as Hat.
  destruct (negb (ms =? 0)).
  - destruct (total <? ms); cbn [s_memory_size s_bucket_flags_size s_buckets_size
      s_free_blocks_size s_max_bucket_flags s_max_buckets s_max_free_blocks].
    all: destruct (Z.ltb_spec ms (get_aligned_size total)); [discriminate|].
    all: destruct (negb (lock_errno =? 0)); [discriminate|].
    all: destruct (negb mmap_ok); [discriminate|].
    all: intros [= <-]; cbn.
    all: rewrite (to_uint64_small (64 + (mb + 63) / 64 * 8)) by lia.
    all: rewrite (to_uint64_small (64 + (mb + 63) / 64 * 8 + mb * 8)) by lia.
    all: rewrite (to_uint64_small (64 + (mb + 63) / 64 * 8 + mb * 8 + mfb * 8)) by lia.
    all: unfold header_ok; cbn; fold total; lia.
  - cbn [s_memory_size s_bucket_flags_size s_buckets_size
      s_free_blocks_size s_max_bucket_flags s_max_buckets s_max_free_blocks].
    destruct (Z.ltb_spec ms (get_aligned_size total)); [discriminate|].
    destruct (negb (lock_errno =? 0)); [discriminate|].
    destruct (negb mmap_ok); [discriminate|].
    intros [= <-]; cbn.
    rewrite (to_uint64_small (64 + (mb + 63) / 64 * 8)) by lia.
    rewrite (to_uint64_small (64 + (mb + 63) / 64 * 8 + mb * 8)) by lia.
    rewrite (to_uint64_small (64 + (mb + 63) / 64 * 8 + mb * 8 + mfb * 8)) by lia.
    unfold header_ok; cbn; fold total; lia.
Qed.

(** Every state reached from [hm_init] by calls of [hm_insert] and
    [hm_delete] satisfies the header invariant. *)
Lemma reachable_header_ok lock_errno mmap_ok memory_size max_buckets max_free_blocks m cs :
  0 ≤ memory_size < 2 ^ 35 →
  0 ≤ max_buckets < 2 ^ 31 →
  0 ≤ max_free_blocks < 2 ^ 31 →
  hm_init lock_errno mmap_ok memory_size max_buckets max_free_blocks = (HM_OK, Some m) →
  header_ok (hdr (region (snd (run m cs)))).
Proof.
  intros Hms Hmb Hmfb Hinit. apply run_header_ok.
  by destruct (hm_init_header_ok _ _ _ _ _ _ Hms Hmb Hmfb Hinit) as [Hok _].
Qed.

End Header.

(** ** Map operations (C1, C7, C8) *)

Section MapOperations.

(** The in-place branch of [hm_insert]: when the probe finds the key with a
    value of the same length, the call returns [HM_OK] and the region only
    changes by the copy of the value bytes. *)
Lemma hm_insert_in_place m key value r b :
  lock m = 0 →
  find_record (region m) key (Z.of_nat (length key)) = (Some r, b) →
  record_value_size (data (region m)) r = Z.of_nat (length value) →
  hm_insert m key (Z.of_nat (length key)) value
  = (HM_OK,
     with_region m
       (with_data (region m)
          (memcpy (data (region m)) (hm_get_record_value (data (region m)) r) value))).
Proof.
  intros Hlock Hfind Hsize. unfold hm_insert, lock_region_for_write, unlock_region.
  rewrite Hlock. cbn [Z.eqb negb]. rewrite Hfind. cbn [is_null andb].
  rewrite Hsize, Z.eqb_refl. reflexivity.
Qed.

(** Frame of the in-place branch: header, flags, bucket slots and freelist
    are untouched, every byte of the arena outside the value keeps its
    content, and the value reads back as written. *)
Lemma hm_insert_in_place_frame m key value r b :
  lock m = 0 →
  find_record (region m) key (Z.of_nat (length key)) = (Some r, b) →
  record_value_size (data (region m)) r = Z.of_nat (length value) →
  Forall (λ c, 0 ≤ c < 256) value →
  let m' := snd (hm_insert m key (Z.of_nat (length key)) value) in
  let ptr := hm_get_record_value (data (region m)) r in
  fst (hm_insert m key (Z.of_nat (length key)) value) = HM_OK
  ∧ hdr (region m') = hdr (region m)
  ∧ bucket_flags (region m') = bucket_flags (region m)
  ∧ buckets (region m') = buckets (region m)
  ∧ freelist (region m') = freelist (region m)
  ∧ (∀ a, a < ptr ∨ ptr + Z.of_nat (length value) ≤ a →
          load8 (data (region m')) a = load8 (data (region m)) a)
  ∧ read_bytes (data (region m')) ptr (length value) = value.
Proof.
  intros Hlock Hfind Hsize Hbytes m' ptr. subst m'.
  rewrite (hm_insert_in_place m key value r b) by done.
  cbn. repeat split.
  - intros a Ha. by apply load8_memcpy_out.
  - by apply read_bytes_memcpy.
Qed.

(** C1, evaluated.  On the map of [hm_init(192, 4, 0)]: [set("a", "1")],
    [set("b", "2")], [del("a")] and [set("c", "123456789")] all return
    [HM_OK].  Before the last call [get("b")] returns "2".  The record of
    "a" occupied 28 bytes at 136 and was freed with stored size 36; the
    36-byte record of "c" is written there and runs over the first 8 bytes,
    the hash, of the record of "b" at 164.  After it [get("b")] returns
    [HM_NOT_FOUND], although "b" was set and neither deleted nor
    overwritten. *)
Theorem hm_search_loses_live_key :
  let before := [Insert [97] [49]; Insert [98] [50]; Delete [97]] in
  let calls := before ++ [Insert [99] [49; 50; 51; 52; 53; 54; 55; 56; 57]] in
  fst (hm_init 0 true 192 4 0) = HM_OK
  ∧ fst (run (init_map 192 4 0) calls) = [HM_OK; HM_OK; HM_OK; HM_OK]
  ∧ hm_search_bytes (snd (run (init_map 192 4 0) before)) [98] 1 = (HM_OK, Some [50])
  ∧ freelist_sizes (region (snd (run (init_map 192 4 0) before))) = [36]
  ∧ hm_search_bytes (snd (run (init_map 192 4 0) calls)) [99] 1
    = (HM_OK, Some [49; 50; 51; 52; 53; 54; 55; 56; 57])
  ∧ hm_search (snd (run (init_map 192 4 0) calls)) [98] 1 = (HM_NOT_FOUND, None).
Proof. vm_compute. repeat split; reflexivity. Qed.

(** C7, evaluated.  On the map of [hm_init(224, 4, 0)]: three [set]s, three
    [del]s and [set("c", "123456789")] all return [HM_OK].  Before the last
    call the three free blocks have stored size 36 each; the last call
    takes the block at 136 and its record runs over the size field of the
    free block at 164, so that the live freelist then reads a size of
    16105883456320563 before a size of 36: not ascending.  And on the map of
    [hm_init(4096, 64, 0)] a single [set(":", "1")], whose bucket is 31,
    leaves a popcount of 33 for one live key. *)
Theorem invariants_broken_after_successful_calls :
  let before :=
    [Insert [97] [49]; Insert [98] [50]; Insert [100] [51];
     Delete [100]; Delete [97]; Delete [98]] in
  let calls := before ++ [Insert [99] [49; 50; 51; 52; 53; 54; 55; 56; 57]] in
  let m := snd (run (init_map 224 4 0) calls) in
  let m' := snd (run (init_map 4096 64 0) [Insert [58] [49]]) in
  fst (run (init_map 224 4 0) calls)
  = [HM_OK; HM_OK; HM_OK; HM_OK; HM_OK; HM_OK; HM_OK]
  ∧ freelist_sizes (region (snd (run (init_map 224 4 0) before))) = [36; 36; 36]
  ∧ freelist_sizes (region m) = [16105883456320563; 36]
  ∧ sorted_asc (freelist_sizes (region m)) = false
  ∧ fst (run (init_map 4096 64 0) [Insert [58] [49]]) = [HM_OK]
  ∧ hash_string [58] mod 64 = 31
  ∧ s_used_buckets (snd (hm_stat stat_zero m')) = 33
  ∧ header_ok (hdr (region m)) ∧ header_ok (hdr (region m')).
Proof.
  intros before calls m m'.
  repeat split; try (vm_compute; reflexivity); vm_compute; discriminate.
Qed.

(** C8, evaluated.  On the map of [hm_init(4096, 64, 0)] the key "<" has
    home bucket 33.  [set("<", "1")] returns [HM_OK] and stores the record
    in slot 33, but sets bit 1 of the flags word instead of bit 33.  The
    following [set("<", "2")], of the same length, does not find the key: it
    returns [HM_OK] after writing a second record in slot 34, and
    [data_tail] moves from 1124 to 1152.  The specification asks for an update in
    place with [data_tail] unchanged.  This is the defect of C2. *)
Theorem same_size_set_not_in_place_above_bit_31 :
  let m1 := snd (hm_insert (init_map 4096 64 0) [60] 1 [49]) in
  let m2 := snd (hm_insert m1 [60] 1 [50]) in
  hash_string [60] mod 64 = 33
  ∧ fst (hm_insert (init_map 4096 64 0) [60] 1 [49]) = HM_OK
  ∧ nthZ (buckets (region m1)) 33 = 1096
  ∧ bucket_flags (region m1) = [2]
  ∧ data_tail (hdr (region m1)) = 1124
  ∧ find_record (region m1) [60] 1 = (None, 34)
  ∧ fst (hm_insert m1 [60] 1 [50]) = HM_OK
  ∧ nthZ (buckets (region m2)) 34 = 1124
  ∧ data_tail (hdr (region m2)) = 1152.
Proof. vm_compute. repeat split; reflexivity. Qed.

End MapOperations.

(** ** Insert, then search *)

Section InsertThenSearch.

Lemma nthZ_setZ_eq l i v :
  (Z.to_nat i < length l)%nat → nthZ (setZ l i v) i = v.
Proof. intros Hi. unfold nthZ, setZ. by rewrite list_lookup_insert_eq. Qed.

Lemma nthZ_setZ_ne l i j v :
  0 ≤ i → 0 ≤ j → i ≠ j → nthZ (setZ l i v) j = nthZ l j.
Proof.
  intros Hi Hj Hne. unfold nthZ, setZ. rewrite list_lookup_insert_ne; [done|lia].
Qed.

Lemma is_used_set_used_eq reg b :
  0 ≤ b → b mod 64 < 31 →
  (Z.to_nat (b / 64) < length (bucket_flags reg))%nat →
  is_used_bucket (set_used_bits reg b) b = 1.
Proof.
  intros Hb Hlow Hlen. unfold is_used_bucket, set_used_bits. cbn [bucket_flags with_bucket_flags].
  rewrite nthZ_setZ_eq by done. apply set_then_is_used_low.
  pose proof (Z.mod_pos_bound b 64). lia.
Qed.

Lemma is_used_set_used_ne reg b s :
  0 ≤ b → 0 ≤ s → s ≠ b → b mod 64 < 31 →
  is_used_bucket (set_used_bits reg b) s = is_used_bucket reg s.
Proof.
  intros Hb Hs Hne Hlow. unfold is_used_bucket, set_used_bits.
  cbn [bucket_flags with_bucket_flags].
  pose proof (Z.mod_pos_bound b 64). pose proof (Z.mod_pos_bound s 64).
  destruct (Z.eq_dec (s / 64) (b / 64)) as [Hw|Hw].
  - rewrite Hw.
    destruct (decide (Z.to_nat (b / 64) < length (bucket_flags reg))%nat) as [Hin|Hout].
    + rewrite nthZ_setZ_eq by done.
      rewrite !is_used_word_testbit by lia. rewrite set_used_word_low by lia.
      rewrite Z.lor_spec, Z.pow2_bits_false; [by rewrite orb_false_r|].
      intros Heq. apply Hne.
      rewrite (Z.div_mod s 64), (Z.div_mod b 64) by lia. congruence.
    + unfold setZ. rewrite list_insert_ge by lia. done.
  - rewrite nthZ_setZ_ne; [done| |  |congruence].
    + apply Z.div_pos; lia.
    + apply Z.div_pos; lia.
Qed.

Lemma memcmp_eq_frame d d' a bs :
  (∀ c, a ≤ c < a + Z.of_nat (length bs) → load8 d' c = load8 d c) →
  memcmp_eq d' a bs = memcmp_eq d a bs.
Proof.
  revert a. induction bs as [|b bs IH]; intros a Hfr; [done|].
  cbn [memcmp_eq]. cbn [length] in Hfr. rewrite Hfr by lia. f_equal.
  apply IH. intros c Hc. apply Hfr. lia.
Qed.

Lemma memcmp_eq_memcpy d a bs :
  Forall (λ c, 0 ≤ c < 256) bs → memcmp_eq (memcpy d a bs) a bs = true.
Proof.
  intros Hbs. revert d a. induction Hbs as [|b bs Hb _ IH]; intros d a; [done|].
  cbn [memcpy memcmp_eq]. rewrite IH, andb_true_r.
  rewrite load8_memcpy_out by lia. rewrite load8_store8_eq.
  apply Z.eqb_eq, Z.mod_small. lia.
Qed.

(** [write_record] writes at [off] and above. *)
Lemma write_record_below d off key value a :
  a < off → load8 (write_record d off key (Z.of_nat (length key)) value) a = load8 d a.
Proof.
  intros Ha. unfold write_record, hm_get_record_value, hm_get_record_key,
    record_key_size, sizeof_hashmap_record_t.
  rewrite take_whole_key.
  set (d5 := store8 _ (off + 24 + Z.of_nat (length key)) 0).
  assert (Hk : load64 d5 (off + 8) = to_uint64 (Z.of_nat (length key))).
  { subst d5. rewrite (load64_frame (store64 (store64 (store64 d off (hash_string key))
                         (off + 8) (Z.of_nat (length key))) (off + 16)
                         (Z.of_nat (length value)))).
    - rewrite (load64_frame (store64 (store64 d off (hash_string key)) (off + 8)
                               (Z.of_nat (length key)))).
      + apply load64_store64_eq.
      + intros c Hc. apply load8_store64_out. lia.
    - intros c Hc. rewrite load8_store8_ne by lia. apply load8_memcpy_out. lia. }
  rewrite Hk. pose proof (to_uint64_range (Z.of_nat (length key))).
  rewrite load8_store8_ne by lia. rewrite load8_memcpy_out by lia.
  subst d5. rewrite load8_store8_ne by lia. rewrite load8_memcpy_out by lia.
  rewrite !load8_store64_out by lia. reflexivity.
Qed.

(** The key and the value of the record that [write_record] writes. *)
Lemma write_record_key_value d off key value :
  Forall (λ c, 0 ≤ c < 256) key → Forall (λ c, 0 ≤ c < 256) value →
  Z.of_nat (length key) < 2 ^ 64 →
  let d' := write_record d off key (Z.of_nat (length key)) value in
  memcmp_eq d' (hm_get_record_key off) key = true
  ∧ hm_get_record_value d' off = off + 24 + Z.of_nat (length key) + 1
  ∧ read_bytes d' (hm_get_record_value d' off) (length value) = value.
Proof.
  intros Hkey Hvalue Hlen d'.
  destruct (write_record_header d off key (Z.of_nat (length key)) value)
    as (_ & Hks & _); [lia|].
  fold d' in Hks.
  assert (Hptr : hm_get_record_value d' off = off + 24 + Z.of_nat (length key) + 1).
  { unfold hm_get_record_value, hm_get_record_key, sizeof_hashmap_record_t.
    rewrite Hks, to_uint64_small by lia. reflexivity. }
  rewrite Hptr. subst d'.
  unfold write_record, hm_get_record_value, hm_get_record_key, record_key_size,
    sizeof_hashmap_record_t.
  rewrite take_whole_key.
  set (d3 := store64 _ (off + 16) (Z.of_nat (length value))).
  set (d4 := memcpy d3 (off + 24) key).
  set (d5 := store8 d4 (off + 24 + Z.of_nat (length key)) 0).
  assert (Hk : load64 d5 (off + 8) = Z.of_nat (length key)).
  { subst d5 d4. rewrite (load64_frame d3).
    - subst d3. rewrite (load64_frame (store64 (store64 d off (hash_string key)) (off + 8)
                               (Z.of_nat (length key)))).
      + rewrite load64_store64_eq. apply to_uint64_small. lia.
      + intros c Hc. apply load8_store64_out. lia.
    - intros c Hc. rewrite load8_store8_ne by lia. apply load8_memcpy_out. lia. }
  rewrite Hk.
  set (ptr := off + 24 + Z.of_nat (length key) + 1).
  repeat split.
  - rewrite (memcmp_eq_frame d4).
    + subst d4. by apply memcmp_eq_memcpy.
    + intros c Hc. rewrite load8_store8_ne by lia. rewrite load8_memcpy_out by lia.
      subst d5. apply load8_store8_ne. lia.
  - rewrite (read_bytes_frame _ (memcpy d5 ptr value)).
    + by apply read_bytes_memcpy.
    + intros c Hc. apply load8_store8_ne. lia.
Qed.

(** A failed probe reports [max_buckets] or a slot of the table whose
    offset is 0. *)
Lemma find_record_loop_candidate_range k reg key key_len hash index i b :
  0 < max_buckets (hdr reg) →
  find_record_loop k reg key key_len hash index (max_buckets (hdr reg)) i = (None, b) →
  b = max_buckets (hdr reg)
  ∨ (0 ≤ b < max_buckets (hdr reg) ∧ nthZ (buckets reg) b = 0).
Proof.
  intros Hmb. revert i. induction k as [|k IH]; intros i.
  - cbn. intros [= <-]. by left.
  - cbn [find_record_loop].
    pose proof (Z.mod_pos_bound (index + i) (max_buckets (hdr reg)) Hmb).
    destruct (Z.eqb_spec (nthZ (buckets reg) ((index + i) mod max_buckets (hdr reg))) 0)
      as [Hz|Hnz].
    + rewrite Z.eqb_refl. intros [= <-]. by right.
    + destruct (negb _); [|apply IH].
      destruct (_ && _); [discriminate|apply IH].
Qed.

(** A record that the probe returns sits in a slot of the table. *)
Lemma find_record_loop_found_range k reg key key_len hash index found_index i r b :
  0 < max_buckets (hdr reg) →
  find_record_loop k reg key key_len hash index found_index i = (Some r, b) →
  0 ≤ b < max_buckets (hdr reg).
Proof.
  intros Hmb. revert i. induction k as [|k IH]; intros i; [discriminate|].
  cbn [find_record_loop].
  destruct (_ =? 0); [discriminate|].
  destruct (negb _); [|apply IH].
  destruct (_ && _); [|apply IH].
  intros [= _ <-]. apply Z.mod_pos_bound. lia.
Qed.

(** A [set] of a new key that is served from the tail, on a region whose
    live records lie below the tail, with a bucket whose flag position in
    its word is below 31 ([fresh_insert_pre]). *)
Section FreshInsert.

Variables (m : hashmap_t) (key value : list Z) (b : Z).
Hypothesis Hpre : fresh_insert_pre m key value b.

Local Abbreviation reg := (region m).
Local Abbreviation tail := (data_tail (hdr (region m))).
Local Abbreviation key_len := (Z.of_nat (length key)).
Local Abbreviation value_len := (Z.of_nat (length value)).

Ltac use_pre :=
  destruct Hpre as (Hlock & Hmb & Hbuckets & Hflags & Htail & Hmem & Hroom & Hkey
                    & Hvalue & Hfind & Hb & Hlow & Hrecords).

Lemma fresh_insert_sizes :
  0 ≤ key_len < 2 ^ 64 ∧ 0 ≤ value_len < 2 ^ 64
  ∧ to_uint64 (sizeof_hashmap_record_t + key_len + value_len + 2)
    = sizeof_hashmap_record_t + key_len + value_len + 2.
Proof.
  use_pre. unfold sizeof_hashmap_record_t in *.
  repeat split; try lia. apply to_uint64_small. lia.
Qed.

Lemma fresh_insert_bucket : 0 ≤ b < max_buckets (hdr reg) ∧ nthZ (buckets reg) b = 0.
Proof.
  use_pre. unfold find_record in Hfind.
  apply find_record_loop_candidate_range in Hfind as [?|?]; done.
Qed.

Lemma hm_insert_fresh :
  hm_insert m key (Z.of_nat (length key)) value
  = (HM_OK, with_region m (fresh_insert_region m key value b)).
Proof.
  destruct fresh_insert_sizes as (Hk & Hv & Hreq). use_pre.
  unfold hm_insert, lock_region_for_write, unlock_region.
  rewrite Hlock. cbn [Z.eqb negb].
  rewrite Hfind. cbn [is_null andb].
  destruct (Z.eqb_spec b (max_buckets (hdr reg))); [done|].
  rewrite Hreq.
  rewrite (to_uint64_small (memory_size (hdr reg) - tail))
    by (unfold sizeof_hashmap_record_t in *; lia).
  destruct (Z.ltb_spec (memory_size (hdr reg) - tail)
              (sizeof_hashmap_record_t + key_len + value_len + 2)); [lia|].
  cbn [andb].
  destruct (Z.leb_spec (sizeof_hashmap_record_t + key_len + value_len + 2)
              (memory_size (hdr reg) - tail)); [|lia].
  unfold fresh_insert_region. rewrite Hreq. reflexivity.
Qed.

(** The probe for the key on the region after the call follows the probe
    that failed before the call and ends on the new record. *)
Lemma find_record_loop_fresh k i :
  find_record_loop k reg key key_len (hash_string key)
    (hash_string key mod max_buckets (hdr reg)) (max_buckets (hdr reg)) i = (None, b) →
  find_record_loop k (fresh_insert_region m key value b) key key_len (hash_string key)
    (hash_string key mod max_buckets (hdr reg)) (max_buckets (hdr reg)) i
  = (Some tail, b).
Proof.
  destruct fresh_insert_sizes as (Hk & Hv & Hreq).
  destruct fresh_insert_bucket as (Hbr & Hbz). use_pre.
  set (index := hash_string key mod max_buckets (hdr reg)).
  set (reg' := fresh_insert_region m key value b).
  assert (Hused : ∀ s, is_used_bucket reg' s = is_used_bucket (set_used_bits reg b) s)
    by done.
  assert (Hdata : data reg' =
      write_record (data reg) tail key (Z.of_nat (length key)) value) by done.
  assert (Hbs : buckets reg' = setZ (buckets reg) b tail) by done.
  assert (Hmax : max_buckets (hdr reg') = max_buckets (hdr reg)) by done.
  clearbody reg'.
  revert i. induction k as [|k IH]; intros i.
  - cbn. intros [= Heq]. congruence.
  - cbn [find_record_loop]. rewrite take_whole_key, Hmax, Hbs, Hdata.
    set (slot := (index + i) mod max_buckets (hdr reg)).
    assert (Hslot : 0 ≤ slot < max_buckets (hdr reg)) by (apply Z.mod_pos_bound; lia).
    destruct (Z.eqb_spec (nthZ (buckets reg) slot) 0) as [Hz|Hnz].
    + (* the slot of the new record *)
      rewrite Z.eqb_refl. intros [= Hsb]. rewrite Hsb.
      rewrite nthZ_setZ_eq by lia.
      destruct (Z.eqb_spec tail 0); [lia|].
      rewrite Hused, is_used_set_used_eq; [| lia | done |].
      * cbn [Z.eqb negb].
        destruct (write_record_header (data reg) tail key key_len value) as (Hh & Hks & _); [lia|].
        destruct (write_record_key_value (data reg) tail key value) as (Hcmp & _);
          [done | done | lia |].
        rewrite Hh, Hks, Hcmp, to_uint64_small, !Z.eqb_refl by lia. reflexivity.
      * assert (b / 64 < Z.of_nat (length (bucket_flags reg)))
          by (apply Z.div_lt_upper_bound; lia).
        assert (0 ≤ b / 64) by (apply Z.div_pos; lia). lia.
    + (* a slot that the probe passed before the call *)
      assert (Hne : slot ≠ b) by congruence.
      rewrite nthZ_setZ_ne by lia.
      destruct (Z.eqb_spec (nthZ (buckets reg) slot) 0); [done|].
      rewrite Hused, is_used_set_used_ne by lia.
      destruct (Z.eqb_spec (is_used_bucket reg slot) 0) as [Hu|Hu]; cbn [negb];
        [apply IH|].
      set (r := nthZ (buckets reg) slot) in *.
      destruct (Hrecords slot Hslot Hnz Hu) as [Hr0 Hr]. fold r in Hr0, Hr.
      unfold sizeof_hashmap_record_t in Hr.
      assert (Hhash : record_hash (write_record (data reg) tail key (Z.of_nat (length key)) value) r
                      = record_hash (data reg) r).
      { unfold record_hash. apply load64_frame. intros c Hc.
        apply write_record_below. lia. }
      assert (Hsize : record_key_size
          (write_record (data reg) tail key (Z.of_nat (length key)) value) r
                      = record_key_size (data reg) r).
      { unfold record_key_size. apply load64_frame. intros c Hc.
        apply write_record_below. lia. }
      rewrite Hhash, Hsize.
      destruct (Z.eqb_spec (record_key_size (data reg) r) key_len) as [Hkl|Hkl].
      * rewrite (memcmp_eq_frame (data reg)
          (write_record (data reg) tail key (Z.of_nat (length key)) value)).
        -- destruct (_ && _); [discriminate|apply IH].
        -- intros c Hc. apply write_record_below.
           unfold hm_get_record_key, sizeof_hashmap_record_t in Hc. lia.
      * rewrite andb_false_r. cbn [andb]. apply IH.
Qed.

Lemma find_record_fresh :
  find_record (fresh_insert_region m key value b) key key_len = (Some tail, b).
Proof.
  unfold find_record. apply find_record_loop_fresh. by use_pre.
Qed.

(** After the call, [hm_search] returns the bytes of the value. *)
Lemma hm_search_fresh :
  hm_search_bytes (with_region m (fresh_insert_region m key value b)) key (Z.of_nat (length key))
  = (HM_OK, Some value).
Proof.
  destruct fresh_insert_sizes as (Hk & Hv & Hreq).
  pose proof find_record_fresh as Hfound. use_pre.
  unfold hm_search_bytes, hm_search, lock_region_for_read.
  cbn [lock region with_region]. rewrite Hlock. cbn [Z.eqb negb].
  rewrite Hfound.
  assert (Hdata : data (fresh_insert_region m key value b)
                  = write_record (data reg) tail key (Z.of_nat (length key)) value) by done.
  rewrite Hdata.
  destruct (write_record_header (data reg) tail key key_len value) as (_ & _ & Hvs); [lia|].
  destruct (write_record_key_value (data reg) tail key value) as (_ & _ & Hbytes);
    [done | done | lia |].
  rewrite Hvs, to_uint64_small, Nat2Z.id by lia. rewrite Hbytes. reflexivity.
Qed.

(** A following [set] of the same key with a value of the same length is
    served in place: it returns [HM_OK] and leaves the header, the flags,
    the bucket slots and the freelist as they are. *)
Lemma hm_insert_fresh_then_same_size value2 :
  length value2 = length value →
  let m1 := with_region m (fresh_insert_region m key value b) in
  let m2 := snd (hm_insert m1 key (Z.of_nat (length key)) value2) in
  fst (hm_insert m1 key (Z.of_nat (length key)) value2) = HM_OK
  ∧ hdr (region m2) = hdr (region m1)
  ∧ bucket_flags (region m2) = bucket_flags (region m1)
  ∧ buckets (region m2) = buckets (region m1)
  ∧ freelist (region m2) = freelist (region m1).
Proof.
  intros Hlen m1 m2.
  destruct fresh_insert_sizes as (Hk & Hv & Hreq).
  pose proof find_record_fresh as Hfound. use_pre.
  assert (Hin : hm_insert m1 key (Z.of_nat (length key)) value2
                = (HM_OK,
                   with_region m1
                     (with_data (region m1)
                        (memcpy (data (region m1))
                           (hm_get_record_value (data (region m1)) tail) value2)))).
  { apply (hm_insert_in_place m1 key value2 tail b).
    - exact Hlock.
    - exact Hfound.
    - destruct (write_record_header (data reg) tail key key_len value) as (_ & _ & Hvs); [lia|].
      change (data (region m1)) with
          (write_record (data reg) tail key (Z.of_nat (length key)) value).
      rewrite Hvs, Hlen. apply to_uint64_small. lia. }
  subst m2. rewrite Hin. cbn. done.
Qed.

(** The probe for any key that was found before the call ends on the same
    record after it. *)
Lemma find_record_loop_other key2 key_len2 hash2 index2 k i r2 b2 :
  find_record_loop k reg key2 key_len2 hash2 index2 (max_buckets (hdr reg)) i
  = (Some r2, b2) →
  find_record_loop k (fresh_insert_region m key value b) key2 key_len2 hash2 index2
    (max_buckets (hdr reg)) i = (Some r2, b2).
Proof.
  destruct fresh_insert_bucket as (Hbr & Hbz). use_pre.
  set (reg' := fresh_insert_region m key value b).
  assert (Hused : ∀ s, is_used_bucket reg' s = is_used_bucket (set_used_bits reg b) s)
    by done.
  assert (Hdata : data reg' = write_record (data reg) tail key key_len value) by done.
  assert (Hbs : buckets reg' = setZ (buckets reg) b tail) by done.
  assert (Hmax : max_buckets (hdr reg') = max_buckets (hdr reg)) by done.
  clearbody reg'.
  revert i. induction k as [|k IH]; intros i; [discriminate|].
  cbn [find_record_loop]. rewrite Hmax, Hbs, Hdata.
  set (slot := (index2 + i) mod max_buckets (hdr reg)).
  assert (Hslot : 0 ≤ slot < max_buckets (hdr reg)) by (apply Z.mod_pos_bound; lia).
  destruct (Z.eqb_spec (nthZ (buckets reg) slot) 0) as [Hz|Hnz]; [discriminate|].
  assert (Hne : slot ≠ b) by congruence.
  rewrite nthZ_setZ_ne by lia.
  destruct (Z.eqb_spec (nthZ (buckets reg) slot) 0); [done|].
  rewrite Hused, is_used_set_used_ne by lia.
  destruct (Z.eqb_spec (is_used_bucket reg slot) 0) as [Hu|Hu]; cbn [negb];
    [apply IH|].
  set (r := nthZ (buckets reg) slot) in *.
  destruct (Hrecords slot Hslot Hnz Hu) as [Hr0 Hr]. fold r in Hr0, Hr.
  unfold sizeof_hashmap_record_t in Hr.
  assert (Hhash : record_hash (write_record (data reg) tail key key_len value) r
                  = record_hash (data reg) r).
  { unfold record_hash. apply load64_frame. intros c Hc.
    apply write_record_below. lia. }
  assert (Hsize : record_key_size (write_record (data reg) tail key key_len value) r
                  = record_key_size (data reg) r).
  { unfold record_key_size. apply load64_frame. intros c Hc.
    apply write_record_below. lia. }
  rewrite Hhash, Hsize.
  destruct (Z.eqb_spec (record_key_size (data reg) r) key_len2) as [Hkl|Hkl].
  - rewrite (memcmp_eq_frame (data reg) (write_record (data reg) tail key key_len value)).
    + destruct (_ && _); [done|apply IH].
    + intros c Hc. apply write_record_below.
      unfold hm_get_record_key, sizeof_hashmap_record_t in Hc.
      rewrite length_take in Hc. lia.
  - rewrite andb_false_r. cbn [andb]. apply IH.
Qed.

(** What [hm_search] returned for a key before the call, it returns after
    it, and the bytes below the tail are the ones they were. *)
Lemma hm_search_other key2 key_len2 ptr vlen :
  hm_search m key2 key_len2 = (HM_OK, Some (ptr, vlen)) →
  hm_search (with_region m (fresh_insert_region m key value b)) key2 key_len2
  = (HM_OK, Some (ptr, vlen)).
Proof.
  pose proof Hpre as Hpre'. use_pre.
  unfold hm_search, lock_region_for_read.
  cbn [lock region with_region]. rewrite Hlock. cbn [Z.eqb negb].
  destruct (find_record reg key2 key_len2) as [[r|] b2] eqn:Hfind2; [|discriminate].
  intros [= <- <-].
  unfold find_record in Hfind2 |- *.
  change (max_buckets (hdr (fresh_insert_region m key value b)))
    with (max_buckets (hdr reg)).
  rewrite (find_record_loop_other _ _ _ _ _ _ _ _ Hfind2).
  pose proof (find_record_loop_found_range _ _ _ _ _ _ _ _ _ _ Hmb Hfind2) as Hb2.
  apply find_record_loop_found in Hfind2 as (Hr & Hnz & Hu & _).
  destruct (Hrecords b2 Hb2) as [Hr0 Hbelow]; [by rewrite Hr|done|].
  rewrite Hr in Hr0, Hbelow. unfold sizeof_hashmap_record_t in Hbelow.
  change (data (fresh_insert_region m key value b))
    with (write_record (data reg) tail key key_len value).
  assert (Hsize : record_key_size (write_record (data reg) tail key key_len value) r
                  = record_key_size (data reg) r).
  { unfold record_key_size. apply load64_frame. intros c Hc.
    apply write_record_below. lia. }
  assert (Hvsize : record_value_size (write_record (data reg) tail key key_len value) r
                   = record_value_size (data reg) r).
  { unfold record_value_size. apply load64_frame. intros c Hc.
    apply write_record_below. lia. }
  unfold hm_get_record_value. rewrite Hsize, Hvsize. reflexivity.
Qed.

Lemma read_bytes_other ptr (n : nat) :
  ptr + Z.of_nat n ≤ tail →
  read_bytes (data (fresh_insert_region m key value b)) ptr n
  = read_bytes (data reg) ptr n.
Proof.
  intros Hn. apply read_bytes_frame. intros c Hc.
  change (data (fresh_insert_region m key value b))
    with (write_record (data reg) tail key key_len value).
  apply write_record_below. lia.
Qed.

End FreshInsert.

(** The situation of [fresh_insert_pre] arises: the first [set] on the map of
    [hm_init(1000, 4, 0)] is such a call, and so is a second [set] after
    it. *)
Lemma fresh_insert_pre_examples :
  fresh_insert_pre (init_map 1000 4 0) [97] [49] 2
  ∧ fresh_insert_pre (snd (hm_insert (init_map 1000 4 0) [97] 1 [49])) [98] [50; 51] 3.
Proof.
  assert (Hcases : ∀ s, 0 ≤ s < 4 → s = 0 ∨ s = 1 ∨ s = 2 ∨ s = 3) by lia.
  split.
  - unfold fresh_insert_pre.
    do 12 (split; [first [by vm_compute | repeat constructor; lia]|]).
    intros s Hs Hnz Hu.
    destruct (Hcases s Hs) as [-> | [-> | [-> | ->]]];
      first [ exfalso; apply Hnz; vm_compute; reflexivity
            | vm_compute; split; discriminate ].
  - unfold fresh_insert_pre.
    do 12 (split; [first [by vm_compute | repeat constructor; lia]|]).
    intros s Hs Hnz Hu.
    destruct (Hcases s Hs) as [-> | [-> | [-> | ->]]];
      first [ exfalso; apply Hnz; vm_compute; reflexivity
            | vm_compute; split; discriminate ].
Qed.

(** Under [fresh_insert_pre], a [set] followed by a [get] of the key
    returns the value that was set. *)
Lemma hm_insert_then_search m key value b :
  fresh_insert_pre m key value b →
  ∃ m', hm_insert m key (Z.of_nat (length key)) value = (HM_OK, m')
        ∧ hm_search_bytes m' key (Z.of_nat (length key)) = (HM_OK, Some value).
Proof.
  intros Hpre. eexists. split.
  - by apply hm_insert_fresh.
  - by apply hm_search_fresh.
Qed.

End InsertThenSearch.

(** * Further properties of the code *)

(** ** Alignment and initialisation *)

Section Initialisation.

(** X1.  [get_aligned_size] rounds a size up to the next multiple of 8: the
    result is a multiple of 8, it is the size itself when that is a
    multiple of 8, and otherwise exceeds it by less than 8.  A size within 7
    of 2^64 wraps around to 0. *)
Theorem get_aligned_size_rounds_up (x : Z) :
  0 ≤ x < 2 ^ 64 →
  get_aligned_size x mod 8 = 0
  ∧ (x < 2 ^ 64 - 7 →
     x ≤ get_aligned_size x < x + 8
     ∧ (x mod 8 = 0 → get_aligned_size x = x))
  ∧ (2 ^ 64 - 7 ≤ x → get_aligned_size x = 0).
Proof.
  intros Hx.
  assert (Hform : get_aligned_size x = 8 * (to_uint64 (x + 7) / 8)).
  { unfold get_aligned_size, align_size.
    change (to_uint64 (Z.lnot (8 - 1))) with (2 ^ 64 - 8).
    replace (x + 8 - 1) with (x + 7) by lia.
    apply land_clear_low3, to_uint64_range. }
  repeat split.
  - rewrite Hform, Z.mul_comm. apply Z.mod_mul. lia.
  - apply get_aligned_size_bounds. lia.
  - apply get_aligned_size_bounds. lia.
  - intros Hmod. rewrite get_aligned_size_spec by lia.
    pose proof (Z.div_mod x 8). pose proof (Z.div_mod (x + 7) 8).
    pose proof (Z.mod_pos_bound (x + 7) 8).
    assert ((x + 7) / 8 = x / 8); [|lia].
    symmetry. apply Z.div_unique with (r := 7); lia.
  - intros Hhigh. rewrite Hform.
    unfold to_uint64. rewrite <- (Z.mod_add (x + 7) (-1)) by lia.
    rewrite Z.mod_small by lia.
    rewrite Z.div_small by lia. reflexivity.
Qed.

Lemma get_aligned_size_rounds_up_witness :
  get_aligned_size 1001 mod 8 = 0
  ∧ 1001 ≤ get_aligned_size 1001 < 1001 + 8
  ∧ get_aligned_size 1000 = 1000
  ∧ get_aligned_size (2 ^ 64 - 1) = 0.
Proof.
  destruct (get_aligned_size_rounds_up 1001) as (Hm & Hlow & _); [lia|].
  destruct Hlow as (Hb & _); [lia|].
  destruct (get_aligned_size_rounds_up 1000) as (_ & Hlow' & _); [lia|].
  destruct Hlow' as (_ & Hid); [lia|].
  destruct (get_aligned_size_rounds_up (2 ^ 64 - 1)) as (_ & _ & Hwrap); [lia|].
  split; [exact Hm|]. split; [exact Hb|].
  split; [apply Hid; reflexivity | apply Hwrap; lia].
Defined.

(** The handle that a successful [hm_init] returns, for sizes that the
    32-bit fields of the header can hold. *)
Lemma hm_init_success_form lock_errno mmap_ok memory_size max_buckets max_free_blocks m :
  0 ≤ memory_size < 2 ^ 35 →
  0 ≤ max_buckets < 2 ^ 31 →
  0 ≤ max_free_blocks < 2 ^ 31 →
  hm_init lock_errno mmap_ok memory_size max_buckets max_free_blocks = (HM_OK, Some m) →
  let ms := get_aligned_size memory_size in
  let mb := if max_buckets =? 0 then ms / 4 / 8 else max_buckets in
  let mfb := if max_free_blocks =? 0 then mb else max_free_blocks in
  let mbf := (mb + 63) / 64 in
  let total := 64 + mbf * 8 + mb * 8 + mfb * 8 in
  (0 ≤ mb < 2 ^ 31) ∧ (0 ≤ mfb < 2 ^ 31) ∧ (0 ≤ mbf < 2 ^ 31)
  ∧ total ≤ ms < 2 ^ 35 + 8
  ∧ lock_errno = 0 ∧ mmap_ok = true
  ∧ m = {| region :=
             {| hdr :=
                  {| memory_size := ms; max_bucket_flags := mbf; max_buckets := mb;
                     max_free_blocks := mfb; num_free_blocks := 0;
                     bucket_flags_offset := 64; buckets_offset := 64 + mbf * 8;
                     freelist_offset := 64 + mbf * 8 + mb * 8;
                     data_offset := total; data_tail := total |};
                bucket_flags := replicate (Z.to_nat mbf) 0;
                buckets := replicate (Z.to_nat mb) 0;
                freelist := replicate (Z.to_nat mfb) 0;
                data := ∅ |};
           lock := 0 |}.
Proof.
  intros Hms Hmb Hmfb. unfold hm_init.
  pose proof (get_aligned_size_bounds memory_size) as Hal.
  set (ms := get_aligned_size memory_size) in *.
  assert (Hms' : 0 ≤ ms < 2 ^ 35 + 8) by lia. clear Hal.
  unfold hm_calc_required_memory_size.
  destruct ((max_buckets =? 0) && (ms =? 0)); [discriminate|].
  unfold sizeof_uint64_t, sizeof_size_t, sizeof_hashmap_header_t,
    sizeof_hashmap_record_t.
  set (mb := if max_buckets =? 0 then ms / 4 / 8 else max_buckets).
  set (mfb := if max_free_blocks =? 0 then mb else max_free_blocks).
  assert (Hmb' : 0 ≤ mb < 2 ^ 31).
  { subst mb. destruct (max_buckets =? 0); [|lia].
    split; [apply Z.div_pos; [apply Z.div_pos|]; lia|].
    apply Z.div_lt_upper_bound; [lia|]. apply Z.div_lt_upper_bound; lia. }
  assert (Hmfb' : 0 ≤ mfb < 2 ^ 31).
  { subst mfb. destruct (max_free_blocks =? 0); lia. }
  assert (Hflags : 0 ≤ (mb + 63) / 64 < 2 ^ 31).
  { split; [apply Z.div_pos; lia|]. apply Z.div_lt_upper_bound; lia. }
  cbn [negb Z.eqb].
  rewrite (to_uint64_small (mb + 63)) by lia.
  rewrite (to_int32_small ((mb + 63) / 64)) by lia.
  rewrite (to_int32_small mb) by lia.
  rewrite (to_int32_small mfb) by lia.
  rewrite (to_uint64_small ((mb + 63) / 64)) by lia.
  rewrite (to_uint64_small ((mb + 63) / 64 * 8)) by lia.
  rewrite (to_uint64_small (mb * 8)) by lia.
  rewrite (to_uint64_small (mfb * 8)) by lia.
  rewrite (to_uint64_small (64 + (mb + 63) / 64 * 8 + mb * 8 + mfb * 8)) by lia.
  set (total := 64 + (mb + 63) / 64 * 8 + mb * 8 + mfb * 8).
  pose proof (get_aligned_size_bounds total) as Hat.
  assert (Hfin : ∀ rs ds,
    (let s := {| s_memory_size := get_aligned_size total;
                 s_max_bucket_flags := (mb + 63) / 64; s_max_buckets := mb;
                 s_max_free_blocks := mfb;
                 s_bucket_flags_size := (mb + 63) / 64 * 8;
                 s_buckets_size := mb * 8; s_free_blocks_size := mfb * 8;
                 s_header_size := 64; s_data_size := ds;
                 s_record_header_size := 24 + 2; s_record_size := rs;
                 s_used_buckets := s_used_buckets stat_zero;
                 s_used_free_blocks := s_used_free_blocks stat_zero;
                 s_used_data_size := s_used_data_size stat_zero |} in
     (if ms <? s_memory_size s then (HM_MEMORY_SIZE_TOO_SMALL, None)
      else if negb (lock_errno =? 0) then (HM_LOCK_FAILED, None)
      else if negb mmap_ok then (HM_MAP_FAILED, None)
      else
        (HM_OK,
         Some {| region :=
                   {| hdr :=
                        {| memory_size := ms;
                           max_bucket_flags := s_max_bucket_flags s;
                           max_buckets := s_max_buckets s;
                           max_free_blocks := s_max_free_blocks s;
                           num_free_blocks := 0;
                           bucket_flags_offset := 64;
                           buckets_offset := to_uint64 (64 + s_bucket_flags_size s);
                           freelist_offset :=
                             to_uint64 (to_uint64 (64 + s_bucket_flags_size s)
                                        + s_buckets_size s);
                           data_offset :=
                             to_uint64 (to_uint64 (to_uint64 (64 + s_bucket_flags_size s)
                                                   + s_buckets_size s)
                                        + s_free_blocks_size s);
                           data_tail :=
                             to_uint64 (to_uint64 (to_uint64 (64 + s_bucket_flags_size s)
                                                   + s_buckets_size s)
                                        + s_free_blocks_size s) |};
                      bucket_flags := replicate (Z.to_nat (s_max_bucket_flags s)) 0;
                      buckets := replicate (Z.to_nat (s_max_buckets s)) 0;
                      freelist := replicate (Z.to_nat (s_max_free_blocks s)) 0;
                      data := ∅ |};
                 lock := 0 |})) = (HM_OK, Some m)) →
    (0 ≤ mb < 2 ^ 31) ∧ (0 ≤ mfb < 2 ^ 31) ∧ (0 ≤ (mb + 63) / 64 < 2 ^ 31)
    ∧ total ≤ ms < 2 ^ 35 + 8 ∧ lock_errno = 0 ∧ mmap_ok = true
    ∧ m = {| region :=
               {| hdr :=
                    {| memory_size := ms; max_bucket_flags := (mb + 63) / 64;
                       max_buckets := mb; max_free_blocks := mfb;
                       num_free_blocks := 0; bucket_flags_offset := 64;
                       buckets_offset := 64 + (mb + 63) / 64 * 8;
                       freelist_offset := 64 + (mb + 63) / 64 * 8 + mb * 8;
                       data_offset := total; data_tail := total |};
                  bucket_flags := replicate (Z.to_nat ((mb + 63) / 64)) 0;
                  buckets := replicate (Z.to_nat mb) 0;
                  freelist := replicate (Z.to_nat mfb) 0;
                  data := ∅ |};
             lock := 0 |}).
  { intros rs ds. cbn zeta.
    cbn [s_memory_size s_bucket_flags_size s_buckets_size s_free_blocks_size
         s_max_bucket_flags s_max_buckets s_max_free_blocks].
    destruct (Z.ltb_spec ms (get_aligned_size total)); [discriminate|].
    destruct (Z.eqb_spec lock_errno 0); cbn [negb]; [|discriminate].
    destruct mmap_ok; cbn [negb]; [|discriminate].
    rewrite (to_uint64_small (64 + (mb + 63) / 64 * 8)) by lia.
    rewrite (to_uint64_small (64 + (mb + 63) / 64 * 8 + mb * 8)) by lia.
    rewrite (to_uint64_small (64 + (mb + 63) / 64 * 8 + mb * 8 + mfb * 8)) by lia.
    intros [= <-]. fold total. repeat split; try lia. }
  destruct (negb (ms =? 0)); [destruct (total <? ms)|]; apply Hfin.
Qed.

(** A successful [hm_init] leaves at least one bucket. *)
Lemma hm_init_buckets_positive lock_errno mmap_ok size nbuckets nfree m :
  0 ≤ size < 2 ^ 35 →
  0 ≤ nbuckets < 2 ^ 31 →
  0 ≤ nfree < 2 ^ 31 →
  hm_init lock_errno mmap_ok size nbuckets nfree = (HM_OK, Some m) →
  0 < max_buckets (hdr (region m)).
Proof.
  intros Hms Hmb Hmfb Hinit.
  destruct (hm_init_success_form _ _ _ _ _ _ Hms Hmb Hmfb Hinit)
    as (Hb & Hf & Hbf & Htot & _ & _ & ->).
  set (ms := get_aligned_size size) in *.
  set (mb := if nbuckets =? 0 then ms / 4 / 8 else nbuckets) in *.
  set (mfb := if nfree =? 0 then mb else nfree) in *.
  cbn. subst mb. destruct (Z.eqb_spec nbuckets 0); [|lia].
  assert (64 ≤ ms).
  { assert (0 ≤ (ms / 4 / 8 + 63) / 64) by (apply Z.div_pos; lia).
    destruct (nfree =? 0); subst mfb; lia. }
  assert (2 ≤ ms / 4 / 8); [|lia].
  apply Z.div_le_lower_bound; [lia|]. apply Z.div_le_lower_bound; lia.
Qed.

(** X2.  The layout that a successful [hm_init] writes: the four segments
    follow the 64-byte header without gaps, in the order flags, bucket
    slots, freelist, arena; the arena starts inside the region, whose size
    is the aligned request; there is at least one bucket and one freelist
    slot, and a flag bit for every bucket; the arrays are zero-filled, the
    arena is empty and the lock is granted. *)
Theorem hm_init_layout lock_errno mmap_ok size nbuckets nfree m :
  0 ≤ size < 2 ^ 35 →
  0 ≤ nbuckets < 2 ^ 31 →
  0 ≤ nfree < 2 ^ 31 →
  hm_init lock_errno mmap_ok size nbuckets nfree = (HM_OK, Some m) →
  let h := hdr (region m) in
  lock m = 0
  ∧ memory_size h = get_aligned_size size
  ∧ 0 < max_buckets h
  ∧ 0 < max_free_blocks h
  ∧ (nbuckets ≠ 0 → max_buckets h = nbuckets)
  ∧ (nfree ≠ 0 → max_free_blocks h = nfree)
  ∧ max_buckets h ≤ 64 * max_bucket_flags h < max_buckets h + 64
  ∧ bucket_flags_offset h = sizeof_hashmap_header_t
  ∧ buckets_offset h = bucket_flags_offset h + sizeof_uint64_t * max_bucket_flags h
  ∧ freelist_offset h = buckets_offset h + sizeof_size_t * max_buckets h
  ∧ data_offset h = freelist_offset h + sizeof_size_t * max_free_blocks h
  ∧ data_tail h = data_offset h
  ∧ data_offset h ≤ memory_size h
  ∧ num_free_blocks h = 0
  ∧ bucket_flags (region m) = replicate (Z.to_nat (max_bucket_flags h)) 0
  ∧ buckets (region m) = replicate (Z.to_nat (max_buckets h)) 0
  ∧ freelist (region m) = replicate (Z.to_nat (max_free_blocks h)) 0
  ∧ data (region m) = ∅.
Proof.
  intros Hms Hmb Hmfb Hinit.
  destruct (hm_init_success_form _ _ _ _ _ _ Hms Hmb Hmfb Hinit)
    as (Hb & Hf & Hbf & Htot & _ & _ & ->).
  set (ms := get_aligned_size size) in *.
  set (mb := if nbuckets =? 0 then ms / 4 / 8 else nbuckets) in *.
  set (mfb := if nfree =? 0 then mb else nfree) in *.
  cbn. unfold sizeof_hashmap_header_t, sizeof_uint64_t, sizeof_size_t.
  assert (Hpos : 0 < mb)
    by apply (hm_init_buckets_positive _ _ _ _ _ _ Hms Hmb Hmfb Hinit).
  assert (Hpos' : 0 < mfb).
  { subst mfb. destruct (Z.eqb_spec nfree 0); lia. }
  pose proof (Z.div_mod (mb + 63) 64). pose proof (Z.mod_pos_bound (mb + 63) 64).
  repeat split; try lia; try reflexivity.
  - intros Hne. subst mb. destruct (Z.eqb_spec nbuckets 0); [done|reflexivity].
  - intros Hne. subst mfb. destruct (Z.eqb_spec nfree 0); [done|reflexivity].
Qed.

Lemma hm_init_layout_witness :
  ∃ m, hm_init 0 true 1000 0 0 = (HM_OK, Some m)
       ∧ memory_size (hdr (region m)) = 1000
       ∧ max_buckets (hdr (region m)) ≤ 64 * max_bucket_flags (hdr (region m))
       ∧ data_tail (hdr (region m)) = data_offset (hdr (region m))
       ∧ data_offset (hdr (region m)) ≤ memory_size (hdr (region m)).
Proof.
  exists (init_map 1000 0 0).
  assert (Hinit : hm_init 0 true 1000 0 0 = (HM_OK, Some (init_map 1000 0 0)))
    by (vm_compute; reflexivity).
  split; [exact Hinit|].
  destruct (hm_init_layout 0 true 1000 0 0 (init_map 1000 0 0))
    as (_ & Hsize & _ & _ & _ & _ & Hbits & _ & _ & _ & _ & Htail & Hin & _);
    [lia | lia | lia | exact Hinit |].
  split; [rewrite Hsize; vm_compute; reflexivity|].
  split; [apply Hbits|]. split; [exact Htail | exact Hin].
Defined.

Lemma nthZ_replicate_zero n i : nthZ (replicate n 0) i = 0.
Proof.
  unfold nthZ. destruct (replicate n 0 !! Z.to_nat i) as [x|] eqn:Hl; [|done].
  by apply lookup_replicate in Hl as [-> _].
Qed.

Lemma count_bucket_flags_loop_zero k n i :
  count_bucket_flags_loop k (replicate n 0) i 0 = 0.
Proof.
  revert i. induction k as [|k IH]; intros i; [done|].
  cbn [count_bucket_flags_loop]. rewrite nthZ_replicate_zero.
  change (to_uint64 (0 + count_bits 0)) with 0. apply IH.
Qed.

(** X3.  A map that [hm_init] has just created is empty: every [hm_search]
    and every [hm_delete] returns [HM_NOT_FOUND] (and [hm_delete] leaves the
    handle as it is), and [hm_stat] reports no used bucket, no free block
    and no used data. *)
Theorem fresh_map_is_empty lock_errno mmap_ok size nbuckets nfree m :
  0 ≤ size < 2 ^ 35 →
  0 ≤ nbuckets < 2 ^ 31 →
  0 ≤ nfree < 2 ^ 31 →
  hm_init lock_errno mmap_ok size nbuckets nfree = (HM_OK, Some m) →
  (∀ key, hm_search m key (Z.of_nat (length key)) = (HM_NOT_FOUND, None))
  ∧ (∀ key, hm_delete m key (Z.of_nat (length key)) = (HM_NOT_FOUND, m))
  ∧ (∀ s, ∃ s', hm_stat s m = (HM_OK, s')
               ∧ s_used_buckets s' = 0
               ∧ s_used_free_blocks s' = 0
               ∧ s_used_data_size s' = 0
               ∧ s_data_size s' = memory_size (hdr (region m)) - data_offset (hdr (region m))).
Proof.
  intros Hms Hmb Hmfb Hinit.
  pose proof (hm_init_buckets_positive _ _ _ _ _ _ Hms Hmb Hmfb Hinit) as Hpos.
  destruct (hm_init_header_ok _ _ _ _ _ _ Hms Hmb Hmfb Hinit)
    as (Hok & Hlock & Hnum & Htail).
  assert (Hflags : bucket_flags (region m)
                   = replicate (Z.to_nat (max_bucket_flags (hdr (region m)))) 0)
    by (by destruct (hm_init_success_form _ _ _ _ _ _ Hms Hmb Hmfb Hinit)
          as (_ & _ & _ & _ & _ & _ & ->)).
  assert (Hbuckets : buckets (region m)
                     = replicate (Z.to_nat (max_buckets (hdr (region m)))) 0)
    by (by destruct (hm_init_success_form _ _ _ _ _ _ Hms Hmb Hmfb Hinit)
          as (_ & _ & _ & _ & _ & _ & ->)).
  assert (Hfind : ∀ key, ∃ b, find_record (region m) key (Z.of_nat (length key))
                              = (None, b)).
  { intros key. unfold find_record.
    destruct (Z.to_nat (max_buckets (hdr (region m)))) as [|k] eqn:Hk; [lia|].
    cbn [find_record_loop]. rewrite Hbuckets, nthZ_replicate_zero.
    cbn [Z.eqb]. eauto. }
  assert (Hsearch : ∀ key, hm_search m key (Z.of_nat (length key)) = (HM_NOT_FOUND, None)).
  { intros key. unfold hm_search, lock_region_for_read. rewrite Hlock.
    cbn [Z.eqb negb]. destruct (Hfind key) as [b ->]. reflexivity. }
  split; [exact Hsearch|]. split.
  - intros key. unfold hm_delete, lock_region_for_write, unlock_region. rewrite Hlock.
    cbn [Z.eqb negb]. destruct (Hfind key) as [b ->]. reflexivity.
  - intros s. unfold hm_stat, lock_region_for_read. rewrite Hlock.
    cbn [Z.eqb negb]. eexists. split; [reflexivity|]. cbn.
    unfold count_bucket_flags. rewrite Hflags, count_bucket_flags_loop_zero.
    rewrite Hnum, Htail, Z.sub_diag.
    repeat split. apply to_uint64_small.
    unfold header_ok in Hok. lia.
Qed.

Lemma fresh_map_is_empty_witness :
  hm_search (init_map 1000 0 0) [104; 105] 2 = (HM_NOT_FOUND, None)
  ∧ hm_delete (init_map 1000 0 0) [104; 105] 2 = (HM_NOT_FOUND, init_map 1000 0 0).
Proof.
  destruct (fresh_map_is_empty 0 true 1000 0 0 (init_map 1000 0 0))
    as (Hs & Hd & _); [lia | lia | lia | vm_compute; reflexivity |].
  split; [apply Hs | apply Hd].
Defined.

End Initialisation.

(** ** What every call keeps *)

Section Steps.

Lemma region_step_refl reg : region_step reg reg.
Proof. unfold region_step, same_layout. repeat split; lia. Qed.

Lemma region_step_trans reg1 reg2 reg3 :
  region_step reg1 reg2 → region_step reg2 reg3 → region_step reg1 reg3.
Proof.
  unfold region_step, same_layout.
  intros (L1 & T1 & A1 & B1 & C1) (L2 & T2 & A2 & B2 & C2).
  repeat split; try congruence; try lia;
    destruct L1 as (? & ? & ? & ? & ? & ? & ? & ?);
    destruct L2 as (? & ? & ? & ? & ? & ? & ? & ?); congruence.
Qed.

Lemma length_setZ l i v : length (setZ l i v) = length l.
Proof. unfold setZ. apply length_insert. Qed.

Lemma length_add_free_block_shift fl lo k :
  length (add_free_block_shift fl lo k) = length fl.
Proof.
  revert fl. induction k as [|k IH]; intros fl; [done|].
  cbn [add_free_block_shift]. by rewrite IH, length_setZ.
Qed.

Lemma length_add_free_block_sort fuel d fl offset size i n :
  length (add_free_block_sort fuel d fl offset size i n) = length fl.
Proof.
  revert fl i. induction fuel as [|fuel IH]; intros fl i; [done|].
  cbn [add_free_block_sort]. destruct (i <? n); [|done].
  destruct (_ <? size); [|done]. by rewrite IH, !length_setZ.
Qed.

Lemma length_remove_free_block_shift fl i k :
  length (remove_free_block_shift fl i k) = length fl.
Proof.
  revert fl i. induction k as [|k IH]; intros fl i; [done|].
  cbn [remove_free_block_shift]. by rewrite IH, length_setZ.
Qed.

Lemma add_free_block_step reg offset size :
  region_step reg (snd (add_free_block reg offset size)).
Proof.
  unfold add_free_block, region_step, same_layout.
  destruct (_ && _); cbn.
  - rewrite length_add_free_block_sort, length_setZ. repeat split; lia.
  - rewrite length_setZ.
    destruct (0 <? _); [rewrite length_add_free_block_shift|]; repeat split; lia.
Qed.

Lemma remove_free_block_step reg idx : region_step reg (remove_free_block reg idx).
Proof.
  unfold remove_free_block, region_step, same_layout. cbn.
  rewrite length_remove_free_block_shift. repeat split; lia.
Qed.

Lemma find_free_block_step reg required_space :
  region_step reg (snd (find_free_block reg required_space)).
Proof.
  unfold find_free_block.
  destruct (_ =? 0); [apply region_step_refl|].
  destruct (find_free_block_search _ _ _ _ _ _) as [mid|lo];
    [apply remove_free_block_step|].
  destruct (lo <? _); [|apply region_step_refl].
  destruct (_ =? 0); [apply remove_free_block_step|].
  destruct (_ || _); [apply region_step_refl|].
  cbn [snd]. eapply region_step_trans;
    [apply remove_free_block_step|apply add_free_block_step].
Qed.

(** One [hm_insert], successful or not. *)
Lemma hm_insert_step m key value :
  header_ok (hdr (region m)) →
  region_step (region m) (region (snd (hm_insert m key (Z.of_nat (length key)) value)))
  ∧ lock (snd (hm_insert m key (Z.of_nat (length key)) value)) = lock m.
Proof.
  intros Hok. unfold hm_insert, lock_region_for_write, unlock_region.
  destruct (negb (lock m =? 0)); [split; [apply region_step_refl|done]|].
  destruct (find_record _ _ _) as [r b].
  destruct (is_null r && _); [split; [apply region_step_refl|done]|].
  set (required := to_uint64 _).
  assert (Hplace : ∀ reg, header_ok (hdr reg) →
    let res :=
      (let insert_offset := data_tail (hdr reg) in
       let available_space := to_uint64 (memory_size (hdr reg) - data_tail (hdr reg)) in
       let '(insert_offset, reg) :=
         if available_space <? required then find_free_block reg required
         else (insert_offset, reg) in
       if (available_space <? required) && (insert_offset =? SIZE_MAX) then
         (HM_NO_SPACE, with_region m reg)
       else
         let reg := with_buckets reg (setZ (buckets reg) b insert_offset) in
         let reg := set_used_bits reg b in
         let reg := with_data reg
             (write_record (data reg) insert_offset key (Z.of_nat (length key)) value) in
         let reg :=
           if required <=? available_space then
             with_hdr reg (set_data_tail (hdr reg)
                             (to_uint64 (data_tail (hdr reg) + required)))
           else reg in
         (HM_OK, with_region m reg)) in
    region_step reg (region (snd res)) ∧ lock (snd res) = lock m).
  { intros reg Hreg. cbn zeta.
    pose proof (to_uint64_range (sizeof_hashmap_record_t + Z.of_nat (length key)
                                 + Z.of_nat (length value) + 2)) as Hreq.
    fold required in Hreq.
    assert (Havail : to_uint64 (memory_size (hdr reg) - data_tail (hdr reg))
                     = memory_size (hdr reg) - data_tail (hdr reg)).
    { apply to_uint64_small. unfold header_ok in Hreg. lia. }
    rewrite Havail.
    destruct (Z.ltb_spec (memory_size (hdr reg) - data_tail (hdr reg)) required)
      as [Hlt|Hge].
    - pose proof (find_free_block_step reg required) as Hfind.
      destruct (find_free_block reg required) as [off reg'].
      cbn [andb snd] in *.
      destruct (off =? SIZE_MAX); [by split|].
      destruct (Z.leb_spec required (memory_size (hdr reg) - data_tail (hdr reg)));
        [lia|].
      split; [|done]. eapply region_step_trans; [exact Hfind|].
      unfold region_step, same_layout, set_used_bits. cbn.
      rewrite !length_setZ. repeat split; lia.
    - cbn [andb].
      destruct (Z.leb_spec required (memory_size (hdr reg) - data_tail (hdr reg)));
        [|lia].
      split; [|done].
      unfold region_step, same_layout, set_used_bits. cbn.
      rewrite !length_setZ, to_uint64_small by (unfold header_ok in Hreg; lia).
      repeat split; lia. }
  destruct r as [r|]; [|by apply Hplace].
  destruct (_ =? Z.of_nat (length value)).
  { split; [|done]. unfold region_step, same_layout. cbn. repeat split; lia. }
  destruct (has_empty_free_block (region m)) eqn:Hempty; cbn [negb].
  2: { split; [apply region_step_refl|done]. }
  destruct (Hplace (snd (add_free_block (region m) r
                           (hm_get_record_size (data (region m)) r))))
    as [Hstep Hl]; [by apply add_free_block_header_ok|].
  split; [|exact Hl].
  eapply region_step_trans; [apply add_free_block_step|exact Hstep].
Qed.

(** One [hm_delete], successful or not. *)
Lemma hm_delete_step m key :
  region_step (region m) (region (snd (hm_delete m key (Z.of_nat (length key)))))
  ∧ lock (snd (hm_delete m key (Z.of_nat (length key)))) = lock m.
Proof.
  unfold hm_delete, lock_region_for_write, unlock_region.
  destruct (negb (lock m =? 0)); [split; [apply region_step_refl|done]|].
  destruct (find_record _ _ _) as [[r|] b]; [|split; [apply region_step_refl|done]].
  destruct (negb _); [split; [apply region_step_refl|done]|].
  split; [|done]. cbn [snd region with_region].
  eapply region_step_trans; [apply add_free_block_step|].
  unfold region_step, same_layout, unset_used_bits. cbn.
  rewrite length_setZ. repeat split; lia.
Qed.

Lemma run_step cs m :
  header_ok (hdr (region m)) →
  header_ok (hdr (region (snd (run m cs))))
  ∧ region_step (region m) (region (snd (run m cs)))
  ∧ lock (snd (run m cs)) = lock m.
Proof.
  revert m. induction cs as [|c cs IH]; intros m Hok.
  { cbn. split; [done|]. split; [apply region_step_refl|done]. }
  cbn [run].
  assert (Hc : header_ok (hdr (region (snd (do_call m c))))
               ∧ region_step (region m) (region (snd (do_call m c)))
               ∧ lock (snd (do_call m c)) = lock m).
  { destruct c; cbn [do_call].
    - split; [by apply hm_insert_header_ok|by apply hm_insert_step].
    - split; [by apply hm_delete_header_ok|by apply hm_delete_step]. }
  destruct (do_call m c) as [e m1]. cbn [snd] in Hc.
  destruct Hc as (Hok1 & Hstep1 & Hlock1).
  destruct (IH m1 Hok1) as (Hok2 & Hstep2 & Hlock2).
  destruct (run m1 cs) as [es m2]. cbn [snd] in *.
  split; [done|]. split; [by eapply region_step_trans|congruence].
Qed.

(** X4.  Every state reached from a successful [hm_init] by calls of
    [hm_insert] and [hm_delete], whatever they return, satisfies
    [data_offset <= data_tail <= memory_size] and [num_free_blocks <=
    max_free_blocks]; the layout fields of the header and the lengths of the
    three arrays are those of the initial state, the tail has not moved
    back, and the lock is still granted. *)
Theorem reachable_invariants lock_errno mmap_ok size nbuckets nfree m cs :
  0 ≤ size < 2 ^ 35 →
  0 ≤ nbuckets < 2 ^ 31 →
  0 ≤ nfree < 2 ^ 31 →
  hm_init lock_errno mmap_ok size nbuckets nfree = (HM_OK, Some m) →
  let m' := snd (run m cs) in
  header_ok (hdr (region m'))
  ∧ region_step (region m) (region m')
  ∧ lock m' = 0.
Proof.
  intros Hms Hmb Hmfb Hinit m'.
  destruct (hm_init_header_ok _ _ _ _ _ _ Hms Hmb Hmfb Hinit) as (Hok & Hlock & _).
  destruct (run_step cs m Hok) as (Hok' & Hstep & Hlock').
  split; [done|]. split; [done|]. subst m'. congruence.
Qed.

Lemma reachable_invariants_witness :
  let m' := snd (run (init_map 1000 4 0)
                   [Insert [97] [49]; Insert [98] [50; 51]; Delete [97];
                    Insert [98] [52]]) in
  header_ok (hdr (region m'))
  ∧ region_step (region (init_map 1000 4 0)) (region m')
  ∧ lock m' = 0.
Proof.
  apply (reachable_invariants 0 true 1000 4 0); [lia | lia | lia |].
  vm_compute. reflexivity.
Defined.

End Steps.

(** ** Error returns and the probe *)

Section Errors.

Lemma with_region_id m : with_region m (region m) = m.
Proof. by destruct m. Qed.

(** X5.  [hm_delete] only returns [HM_OK], [HM_LOCK_FAILED], [HM_NOT_FOUND]
    or [HM_NO_EMPTY_FREE_BLOCK], and on every return but [HM_OK] the handle
    and its region are the ones it was given.  [hm_insert] only returns
    [HM_OK], [HM_LOCK_FAILED], [HM_NO_EMPTY_BUCKET], [HM_NO_EMPTY_FREE_BLOCK]
    or [HM_NO_SPACE], and on the three error returns before [HM_NO_SPACE] the
    handle and its region are the ones it was given. *)
Theorem error_returns_change_nothing (m : hashmap_t) (key value : list Z) :
  (fst (hm_delete m key (Z.of_nat (length key))) = HM_OK
   ∨ (fst (hm_delete m key (Z.of_nat (length key))) = HM_LOCK_FAILED
      ∨ fst (hm_delete m key (Z.of_nat (length key))) = HM_NOT_FOUND
      ∨ fst (hm_delete m key (Z.of_nat (length key))) = HM_NO_EMPTY_FREE_BLOCK)
     ∧ snd (hm_delete m key (Z.of_nat (length key))) = m)
  ∧ (fst (hm_insert m key (Z.of_nat (length key)) value) = HM_OK
     ∨ fst (hm_insert m key (Z.of_nat (length key)) value) = HM_NO_SPACE
     ∨ (fst (hm_insert m key (Z.of_nat (length key)) value) = HM_LOCK_FAILED
        ∨ fst (hm_insert m key (Z.of_nat (length key)) value) = HM_NO_EMPTY_BUCKET
        ∨ fst (hm_insert m key (Z.of_nat (length key)) value) = HM_NO_EMPTY_FREE_BLOCK)
       ∧ snd (hm_insert m key (Z.of_nat (length key)) value) = m).
Proof.
  split.
  - unfold hm_delete, lock_region_for_write, unlock_region.
    destruct (negb (lock m =? 0)); [right; auto|].
    destruct (find_record _ _ _) as [[r|] b]; [|right; auto].
    destruct (negb _); [right; auto|left; reflexivity].
  - unfold hm_insert, lock_region_for_write, unlock_region.
    destruct (negb (lock m =? 0)); [right; right; auto|].
    destruct (find_record _ _ _) as [r b].
    destruct (is_null r && _); [right; right; auto|].
    set (required := to_uint64 _).
    assert (Hplace : ∀ reg,
      let res :=
        (let insert_offset := data_tail (hdr reg) in
         let available_space :=
           to_uint64 (memory_size (hdr reg) - data_tail (hdr reg)) in
         let '(insert_offset, reg) :=
           if available_space <? required then find_free_block reg required
           else (insert_offset, reg) in
         if (available_space <? required) && (insert_offset =? SIZE_MAX) then
           (HM_NO_SPACE, with_region m reg)
         else
           let reg := with_buckets reg (setZ (buckets reg) b insert_offset) in
           let reg := set_used_bits reg b in
           let reg := with_data reg
               (write_record (data reg) insert_offset key (Z.of_nat (length key)) value) in
           let reg :=
             if required <=? available_space then
               with_hdr reg (set_data_tail (hdr reg)
                               (to_uint64 (data_tail (hdr reg) + required)))
             else reg in
           (HM_OK, with_region m reg)) in
      fst res = HM_OK ∨ fst res = HM_NO_SPACE).
    { intros reg. cbn zeta.
      destruct (if _ <? required then _ else _) as [off reg'].
      destruct (_ && _); [by right|by left]. }
    destruct r as [r|].
    + destruct (_ =? Z.of_nat (length value)); [by left|].
      destruct (negb _).
      * right; right. cbn. rewrite with_region_id. auto.
      * destruct (Hplace (snd (add_free_block (region m) r
                                 (hm_get_record_size (data (region m)) r))));
          [by left|by right; left].
    + destruct (Hplace (region m)); [by left|by right; left].
Qed.

Lemma memcmp_eq_read_bytes d a bs :
  memcmp_eq d a bs = true ↔ read_bytes d a (length bs) = bs.
Proof.
  revert a. induction bs as [|b bs IH]; intros a; [done|].
  cbn [memcmp_eq read_bytes length]. rewrite andb_true_iff, IH, Z.eqb_eq.
  split; [intros [-> ->]; done|intros [= -> ->]; done].
Qed.

(** X6.  Whatever [hm_search] returns with [HM_OK] comes from a bucket of
    the table whose offset is not 0 and whose used bit is set, and from a
    record there that carries the hash of the key, its length and exactly
    its bytes; the outputs are the address that follows the key and its
    terminator, and the value length stored in that record. *)
Theorem hm_search_sound (m : hashmap_t) (key : list Z) (value value_len : Z) :
  hm_search m key (Z.of_nat (length key)) = (HM_OK, Some (value, value_len)) →
  ∃ b r,
    0 ≤ b < max_buckets (hdr (region m))
    ∧ nthZ (buckets (region m)) b = r
    ∧ r ≠ 0
    ∧ is_used_bucket (region m) b ≠ 0
    ∧ record_hash (data (region m)) r = hash_string key
    ∧ record_key_size (data (region m)) r = Z.of_nat (length key)
    ∧ read_bytes (data (region m)) (hm_get_record_key r) (length key) = key
    ∧ value = hm_get_record_key r + Z.of_nat (length key) + 1
    ∧ value_len = record_value_size (data (region m)) r.
Proof.
  unfold hm_search, lock_region_for_read.
  destruct (negb (lock m =? 0)); [discriminate|].
  destruct (find_record _ _ _) as [[r|] b] eqn:Hfind; [|discriminate].
  intros [= <- <-]. exists b, r.
  unfold find_record in Hfind.
  assert (Hmb : 0 < max_buckets (hdr (region m))).
  { destruct (Z.to_nat (max_buckets (hdr (region m)))) eqn:Hk; [discriminate|lia]. }
  assert (Hrange : ∀ k i r b,
    find_record_loop k (region m) key (Z.of_nat (length key)) (hash_string key)
      (hash_string key mod max_buckets (hdr (region m)))
      (max_buckets (hdr (region m))) i = (Some r, b) →
    0 ≤ b < max_buckets (hdr (region m))).
  { clear Hfind. induction k as [|k IH]; intros i r' b'; [discriminate|].
    cbn [find_record_loop].
    destruct (_ =? 0); [discriminate|].
    destruct (negb _); [|apply IH].
    destruct (_ && _); [|apply IH].
    intros [= _ <-]. apply Z.mod_pos_bound. lia. }
  pose proof (Hrange _ _ _ _ Hfind) as Hb.
  apply find_record_loop_found in Hfind as (Hr & Hnz & Hused & Hhash & Hsize & Hcmp).
  rewrite take_whole_key in Hcmp.
  apply memcmp_eq_read_bytes in Hcmp.
  unfold hm_get_record_value. rewrite Hsize. done.
Qed.

Lemma hm_search_sound_witness :
  let m := snd (hm_insert (init_map 1000 4 0) [107; 49] 2 [118; 49]) in
  ∃ b r,
    hm_search m [107; 49] 2 = (HM_OK, Some (hm_get_record_key r + 2 + 1, 2))
    ∧ nthZ (buckets (region m)) b = r
    ∧ read_bytes (data (region m)) (hm_get_record_key r) 2 = [107; 49].
Proof.
  intros m.
  assert (Hs : hm_search m [107; 49] 2 = (HM_OK, Some (163, 2)))
    by (vm_compute; reflexivity).
  destruct (hm_search_sound m [107; 49] 163 2 Hs)
    as (b & r & _ & Hb & _ & _ & _ & _ & Hkey & Hv & _).
  exists b, r. split; [|split; [exact Hb | exact Hkey]].
  rewrite Hs. do 3 f_equal. exact Hv.
Defined.

(** A failed probe that reports [max_buckets] has met a non-zero offset at
    each of its steps. *)
Lemma find_record_loop_full k reg key key_len hash index i :
  0 < max_buckets (hdr reg) →
  find_record_loop k reg key key_len hash index (max_buckets (hdr reg)) i
  = (None, max_buckets (hdr reg)) →
  ∀ j, i ≤ j < i + Z.of_nat k →
       nthZ (buckets reg) ((index + j) mod max_buckets (hdr reg)) ≠ 0.
Proof.
  intros Hmb. revert i. induction k as [|k IH]; intros i Hres j Hj; [lia|].
  cbn [find_record_loop] in Hres.
  pose proof (Z.mod_pos_bound (index + i) (max_buckets (hdr reg)) Hmb).
  destruct (Z.eqb_spec (nthZ (buckets reg) ((index + i) mod max_buckets (hdr reg))) 0)
    as [Hz|Hnz].
  - rewrite Z.eqb_refl in Hres. injection Hres as Hres. lia.
  - destruct (Z.eq_dec j i) as [->|Hne]; [done|].
    apply (IH (i + 1)); [|lia].
    destruct (negb _); [|done]. destruct (_ && _); [discriminate|done].
Qed.

(** X7.  Linear probing visits every bucket: when [hm_insert] returns
    [HM_NO_EMPTY_BUCKET], no bucket of the table has offset 0 and the key
    is not found by [hm_search]. *)
Theorem no_empty_bucket_means_no_zero_slot (m : hashmap_t) (key value : list Z) :
  fst (hm_insert m key (Z.of_nat (length key)) value) = HM_NO_EMPTY_BUCKET →
  (∀ s, 0 ≤ s < max_buckets (hdr (region m)) → nthZ (buckets (region m)) s ≠ 0)
  ∧ hm_search m key (Z.of_nat (length key)) = (HM_NOT_FOUND, None).
Proof.
  unfold hm_insert, hm_search, lock_region_for_write, lock_region_for_read,
    unlock_region.
  destruct (negb (lock m =? 0)); [discriminate|].
  destruct (find_record _ _ _) as [r b] eqn:Hfind.
  destruct r as [r|]; cbn [is_null andb].
  { destruct (_ =? Z.of_nat (length value)); [discriminate|].
    destruct (negb _); [discriminate|].
    destruct (if _ <? _ then _ else _) as [off reg'].
    destruct (_ && _); discriminate. }
  destruct (Z.eqb_spec b (max_buckets (hdr (region m)))) as [->|Hne].
  2: { destruct (if _ <? _ then _ else _) as [off reg'].
       destruct (_ && _); discriminate. }
  intros _. split; [|done].
  intros s Hs. unfold find_record in Hfind.
  set (mb := max_buckets (hdr (region m))) in *.
  set (index := hash_string key mod mb) in *.
  assert (Hmb : 0 < mb) by lia.
  pose proof (find_record_loop_full _ _ _ _ _ _ _ Hmb Hfind ((s - index) mod mb))
    as Hfull.
  pose proof (Z.mod_pos_bound (s - index) mb Hmb).
  fold mb in Hfull.
  replace ((index + (s - index) mod mb) mod mb) with s in Hfull.
  - apply Hfull. lia.
  - rewrite Z.add_mod_idemp_r by lia.
    replace (index + (s - index)) with s by lia.
    symmetry. apply Z.mod_small. lia.
Qed.

Lemma no_empty_bucket_means_no_zero_slot_witness :
  let round := [Insert [97] [49]; Delete [97]] in
  let m := snd (run (init_map 1000 4 0) (round ++ round ++ round ++ round)) in
  fst (hm_insert m [97] 1 [49]) = HM_NO_EMPTY_BUCKET
  ∧ nthZ (buckets (region m)) 0 ≠ 0
  ∧ nthZ (buckets (region m)) 3 ≠ 0.
Proof.
  intros round m.
  assert (Hfull : fst (hm_insert m [97] 1 [49]) = HM_NO_EMPTY_BUCKET)
    by (vm_compute; reflexivity).
  destruct (no_empty_bucket_means_no_zero_slot m [97] [49] Hfull) as (Hall & _).
  split; [exact Hfull|].
  split; [apply (Hall 0) | apply (Hall 3)]; vm_compute;
    (split; [discriminate | reflexivity]).
Defined.

End Errors.

(** ** The freelist as a sorted list *)

Section Allocator.

Lemma nthZ_remove_free_block_shift fl i k j :
  0 ≤ i → (Z.to_nat i + k ≤ length fl)%nat → 0 ≤ j →
  nthZ (remove_free_block_shift fl i k) j
  = if (i <=? j) && (j <? i + Z.of_nat k) then nthZ fl (j + 1) else nthZ fl j.
Proof.
  revert fl i. induction k as [|k IH]; intros fl i Hi Hlen Hj.
  - cbn [remove_free_block_shift].
    destruct (Z.leb_spec i j), (Z.ltb_spec j (i + Z.of_nat 0)); cbn [andb];
      try reflexivity; lia.
  - cbn [remove_free_block_shift]. rewrite IH; [|lia|rewrite length_setZ; lia|lia].
    destruct (Z.leb_spec (i + 1) j), (Z.ltb_spec j (i + 1 + Z.of_nat k)),
      (Z.leb_spec i j), (Z.ltb_spec j (i + Z.of_nat (S k))); cbn [andb]; try lia.
    + apply nthZ_setZ_ne; lia.
    + apply nthZ_setZ_ne; lia.
    + assert (j = i) as -> by lia. apply nthZ_setZ_eq. lia.
    + apply nthZ_setZ_ne; lia.
Qed.

Lemma nthZ_add_free_block_shift fl lo k j :
  0 ≤ lo → (Z.to_nat lo + k < length fl)%nat → 0 ≤ j →
  nthZ (add_free_block_shift fl lo k) j
  = if (lo <? j) && (j <=? lo + Z.of_nat k) then nthZ fl (j - 1) else nthZ fl j.
Proof.
  revert fl. induction k as [|k IH]; intros fl Hlo Hlen Hj.
  - cbn [add_free_block_shift].
    destruct (Z.ltb_spec lo j), (Z.leb_spec j (lo + Z.of_nat 0)); cbn [andb];
      try reflexivity; lia.
  - cbn [add_free_block_shift]. rewrite IH; [|lia|rewrite length_setZ; lia|lia].
    destruct (Z.ltb_spec lo j), (Z.leb_spec j (lo + Z.of_nat k)),
      (Z.leb_spec j (lo + Z.of_nat (S k))); cbn [andb]; try lia.
    + apply nthZ_setZ_ne; lia.
    + assert (j = lo + Z.of_nat k + 1) as -> by lia.
      rewrite nthZ_setZ_eq by lia. f_equal. lia.
    + apply nthZ_setZ_ne; lia.
    + apply nthZ_setZ_ne; lia.
Qed.

Lemma nthZ_lookup (l : list Z) i x :
  0 ≤ i → l !! Z.to_nat i = Some x → nthZ l i = x.
Proof. intros _ Hl. unfold nthZ. by rewrite Hl. Qed.

Lemma lookup_nthZ (l : list Z) (j : nat) :
  (j < length l)%nat → l !! j = Some (nthZ l (Z.of_nat j)).
Proof.
  intros Hj. unfold nthZ. rewrite Nat2Z.id.
  destruct (lookup_lt_is_Some_2 l j Hj) as [x ->]. reflexivity.
Qed.

(** X8.  [remove_free_block] takes entry [idx] out of the live freelist and
    keeps the others in their order; it decrements [num_free_blocks] and
    changes nothing else in the region. *)
Theorem remove_free_block_deletes (reg : hashmap_region_t) (idx : Z) :
  0 ≤ idx < num_free_blocks (hdr reg) →
  num_free_blocks (hdr reg) ≤ Z.of_nat (length (freelist reg)) →
  num_free_blocks (hdr reg) < 2 ^ 31 →
  let reg' := remove_free_block reg idx in
  live_freelist reg' = delete (Z.to_nat idx) (live_freelist reg)
  ∧ num_free_blocks (hdr reg') = num_free_blocks (hdr reg) - 1
  ∧ same_layout (hdr reg) (hdr reg')
  ∧ data_tail (hdr reg') = data_tail (hdr reg)
  ∧ data reg' = data reg
  ∧ buckets reg' = buckets reg
  ∧ bucket_flags reg' = bucket_flags reg.
Proof.
  intros Hidx Hlen Hn reg'. subst reg'.
  unfold remove_free_block, live_freelist, same_layout. cbn.
  rewrite to_int32_small by lia.
  repeat split.
  set (n := num_free_blocks (hdr reg)) in *.
  set (fl := freelist reg) in *.
  apply list_eq. intros j.
  destruct (decide (j < Z.to_nat (n - 1))%nat) as [Hj|Hj].
  - rewrite lookup_take_lt by done.
    rewrite lookup_nthZ by (rewrite length_remove_free_block_shift; lia).
    rewrite nthZ_remove_free_block_shift by lia.
    destruct (decide (j < Z.to_nat idx)%nat) as [Hlt|Hge].
    + rewrite list_lookup_delete_lt by done. rewrite lookup_take_lt by lia.
      rewrite lookup_nthZ by lia.
      destruct (Z.leb_spec idx (Z.of_nat j)); [lia|]. reflexivity.
    + rewrite list_lookup_delete_ge by lia. rewrite lookup_take_lt by lia.
      rewrite lookup_nthZ by lia.
      destruct (Z.leb_spec idx (Z.of_nat j)); [|lia].
      destruct (Z.ltb_spec (Z.of_nat j) (idx + Z.of_nat (Z.to_nat (n - 1 - idx))));
        [|lia].
      cbn [andb]. do 2 f_equal. lia.
  - rewrite lookup_take_ge by lia.
    symmetry. apply lookup_ge_None.
    rewrite length_delete.
    + rewrite length_take. lia.
    + apply lookup_lt_is_Some. rewrite length_take. lia.
Qed.

Lemma remove_free_block_deletes_witness :
  let reg := region (snd (run (init_map 1000 4 0)
                            [Insert [97] [49]; Insert [98] [50; 51];
                             Insert [99] [52; 53; 54];
                             Delete [97]; Delete [98]; Delete [99]])) in
  live_freelist reg = [136; 164; 193]
  ∧ live_freelist (remove_free_block reg 1) = [136; 193].
Proof.
  intros reg.
  assert (Hlive : live_freelist reg = [136; 164; 193]) by (vm_compute; reflexivity).
  split; [exact Hlive|].
  destruct (remove_free_block_deletes reg 1) as (Hdel & _).
  - vm_compute. split; [discriminate | reflexivity].
  - vm_compute. discriminate.
  - vm_compute. reflexivity.
  - rewrite Hdel, Hlive. reflexivity.
Defined.

(** *** Sorted lists of sizes *)

Lemma sorted_asc_cons_iff x l :
  sorted_asc (x :: l) = true
  ↔ (match l with [] => True | y :: _ => x ≤ y end) ∧ sorted_asc l = true.
Proof.
  destruct l as [|y l]; cbn [sorted_asc]; [tauto|].
  rewrite andb_true_iff, Z.leb_le. reflexivity.
Qed.

Lemma sorted_asc_Forall x l :
  sorted_asc (x :: l) = true → Forall (λ y, x ≤ y) l.
Proof.
  revert x. induction l as [|y l IH]; intros x Hs; [constructor|].
  apply sorted_asc_cons_iff in Hs as [Hxy Hs].
  constructor; [done|].
  eapply Forall_impl; [apply IH, Hs|]. cbn. intros z Hz. lia.
Qed.

Lemma sorted_asc_tail x l : sorted_asc (x :: l) = true → sorted_asc l = true.
Proof. intros Hs. by apply sorted_asc_cons_iff in Hs as [_ Hs]. Qed.

Lemma sorted_asc_lookup l i j x y :
  sorted_asc l = true → (i ≤ j)%nat → l !! i = Some x → l !! j = Some y → x ≤ y.
Proof.
  revert i j. induction l as [|z l IH]; intros i j Hs Hij Hi Hj; [done|].
  destruct i as [|i], j as [|j]; cbn in Hi, Hj; try lia.
  - injection Hi as ->. injection Hj as ->. lia.
  - injection Hi as ->. apply sorted_asc_Forall in Hs.
    rewrite Forall_lookup in Hs. by apply (Hs j).
  - apply (IH i j); [by eapply sorted_asc_tail|lia|done|done].
Qed.

Lemma sorted_asc_take n l : sorted_asc l = true → sorted_asc (take n l) = true.
Proof.
  revert l. induction n as [|n IH]; intros [|x l] Hs; try done.
  cbn [take]. apply sorted_asc_cons_iff. split.
  - destruct n, l as [|y l]; cbn; try done.
    by apply sorted_asc_cons_iff in Hs as [? _].
  - apply IH. by eapply sorted_asc_tail.
Qed.

Lemma sorted_asc_drop n l : sorted_asc l = true → sorted_asc (drop n l) = true.
Proof.
  revert l. induction n as [|n IH]; intros [|x l] Hs; try done.
  cbn [drop]. apply IH. by eapply sorted_asc_tail.
Qed.

Lemma sorted_asc_middle l1 v l2 :
  sorted_asc l1 = true → sorted_asc l2 = true →
  Forall (λ y, y ≤ v) l1 → Forall (λ y, v ≤ y) l2 →
  sorted_asc (l1 ++ v :: l2) = true.
Proof.
  intros Hs1 Hs2 H1 H2.
  assert (Hv : sorted_asc (v :: l2) = true).
  { apply sorted_asc_cons_iff. split; [|done].
    destruct l2 as [|y l2]; [done|]. by inversion H2. }
  clear Hs2 H2. induction l1 as [|x l1 IH]; [done|].
  cbn [app]. apply sorted_asc_cons_iff. split.
  - destruct l1 as [|y l1]; cbn [app].
    + by inversion H1.
    + by apply sorted_asc_cons_iff in Hs1 as [? _].
  - apply IH; [by eapply sorted_asc_tail|by inversion H1].
Qed.

(** The stored sizes of the live blocks, by index. *)
Lemma freelist_sizes_lookup reg (j : nat) :
  (j < Z.to_nat (num_free_blocks (hdr reg)))%nat →
  (Z.to_nat (num_free_blocks (hdr reg)) ≤ length (freelist reg))%nat →
  freelist_sizes reg !! j = Some (block_size reg (nthZ (freelist reg) (Z.of_nat j))).
Proof.
  intros Hj Hlen. unfold freelist_sizes, block_size.
  change (map (load64 (data reg))) with (fmap (M := list) (load64 (data reg))).
  rewrite list_lookup_fmap, lookup_take_lt by done.
  rewrite lookup_nthZ by lia. reflexivity.
Qed.

Lemma freelist_sizes_sorted_index reg i j :
  sorted_asc (freelist_sizes reg) = true →
  num_free_blocks (hdr reg) ≤ Z.of_nat (length (freelist reg)) →
  0 ≤ i → i ≤ j → j < num_free_blocks (hdr reg) →
  block_size reg (nthZ (freelist reg) i) ≤ block_size reg (nthZ (freelist reg) j).
Proof.
  intros Hs Hlen Hi Hij Hj.
  apply (sorted_asc_lookup (freelist_sizes reg) (Z.to_nat i) (Z.to_nat j)); [done|lia| |].
  - rewrite freelist_sizes_lookup by lia. by rewrite Z2Nat.id by lia.
  - rewrite freelist_sizes_lookup by lia. by rewrite Z2Nat.id by lia.
Qed.

(** On a sorted freelist the binary search of [add_free_block] ends at the
    lower bound of the new size: smaller blocks before it, the others from
    it on. *)
Lemma add_free_block_search_lower_bound fuel reg size lo hi :
  (∀ i j, 0 ≤ i → i ≤ j → j < num_free_blocks (hdr reg) →
     block_size reg (nthZ (freelist reg) i) ≤ block_size reg (nthZ (freelist reg) j)) →
  0 ≤ lo → hi < num_free_blocks (hdr reg) → lo ≤ hi + 1 →
  hi - lo + 1 ≤ Z.of_nat fuel →
  (∀ i, 0 ≤ i < lo → block_size reg (nthZ (freelist reg) i) < size) →
  (∀ i, hi < i < num_free_blocks (hdr reg) →
     size ≤ block_size reg (nthZ (freelist reg) i)) →
  let r := add_free_block_search fuel (data reg) (freelist reg) size lo hi in
  (∀ i, 0 ≤ i < r → block_size reg (nthZ (freelist reg) i) < size)
  ∧ (∀ i, r ≤ i < num_free_blocks (hdr reg) →
       size ≤ block_size reg (nthZ (freelist reg) i)).
Proof.
  intros Hsorted. revert lo hi.
  induction fuel as [|fuel IH]; intros lo hi Hlo Hhi Hle Hfuel Hbelow Habove;
    cbn [add_free_block_search].
  - cbn zeta. split; [done|]. intros i Hi. apply Habove. lia.
  - destruct (Z.leb_spec lo hi) as [Hlh|Hlh].
    2: { cbn zeta. split; [done|]. intros i Hi. apply Habove. lia. }
    assert (Hmid : lo ≤ (lo + hi) / 2 ≤ hi).
    { split; [apply Z.div_le_lower_bound|apply Z.div_le_upper_bound]; lia. }
    fold (block_size reg (nthZ (freelist reg) ((lo + hi) / 2))).
    destruct (Z.ltb_spec (block_size reg (nthZ (freelist reg) ((lo + hi) / 2))) size)
      as [Hlt|Hge].
    + apply IH; [lia|lia|lia|lia| |done].
      intros i Hi. destruct (Z_lt_le_dec i lo) as [?|?]; [apply Hbelow; lia|].
      pose proof (Hsorted i ((lo + hi) / 2)). lia.
    + apply IH; [lia|lia|lia|lia|done|].
      intros i Hi. destruct (Z_lt_le_dec hi i) as [?|?]; [apply Habove; lia|].
      pose proof (Hsorted ((lo + hi) / 2) i). lia.
Qed.

Lemma add_free_block_left_lower_bound reg size :
  sorted_asc (freelist_sizes reg) = true →
  num_free_blocks (hdr reg) ≤ Z.of_nat (length (freelist reg)) →
  let r := add_free_block_left reg size in
  (∀ i, 0 ≤ i < r → block_size reg (nthZ (freelist reg) i) < size)
  ∧ (∀ i, r ≤ i < num_free_blocks (hdr reg) →
       size ≤ block_size reg (nthZ (freelist reg) i)).
Proof.
  intros Hs Hlen. unfold add_free_block_left.
  destruct (Z.ltb_spec 0 (num_free_blocks (hdr reg))) as [Hn|Hn].
  - apply add_free_block_search_lower_bound; try lia.
    intros i j ? ? ?. by apply freelist_sizes_sorted_index.
  - cbn zeta. split; intros i Hi; lia.
Qed.

(** *** Lists read by index *)

Lemma list_eq_nthZ (l1 l2 : list Z) :
  length l1 = length l2 →
  (∀ j : nat, (j < length l1)%nat → nthZ l1 (Z.of_nat j) = nthZ l2 (Z.of_nat j)) →
  l1 = l2.
Proof.
  intros Hlen Hnth. apply list_eq. intros j.
  destruct (decide (j < length l1)%nat) as [Hj|Hj].
  - rewrite !lookup_nthZ by lia. f_equal. by apply Hnth.
  - rewrite !(proj2 (lookup_ge_None _ _)) by lia. reflexivity.
Qed.

Lemma nthZ_take (l : list Z) n (j : nat) :
  (j < n)%nat → nthZ (take n l) (Z.of_nat j) = nthZ l (Z.of_nat j).
Proof. intros Hj. unfold nthZ. rewrite Nat2Z.id. by rewrite lookup_take_lt. Qed.

Lemma nthZ_insert_at (l : list Z) k x (j : nat) :
  (k ≤ length l)%nat →
  nthZ (take k l ++ x :: drop k l) (Z.of_nat j)
  = if decide (j < k)%nat then nthZ l (Z.of_nat j)
    else if decide (j = k) then x else nthZ l (Z.of_nat j - 1).
Proof.
  intros Hk. unfold nthZ. rewrite Nat2Z.id.
  destruct (decide (j < k)%nat) as [Hlt|Hge].
  - rewrite lookup_app_l by (rewrite length_take; lia).
    by rewrite lookup_take_lt.
  - rewrite lookup_app_r by (rewrite length_take; lia).
    rewrite length_take, Nat.min_l by lia.
    destruct (decide (j = k)) as [->|Hne].
    + by rewrite Nat.sub_diag.
    + rewrite lookup_cons_ne_0 by lia.
      rewrite lookup_drop. do 2 f_equal. lia.
Qed.



(** On a sorted freelist the binary search of [find_free_block] ends on a
    block of the required size, or at the first block that is larger when
    there is no block of that size. *)
Lemma find_free_block_search_sorted fuel reg required lo hi :
  (∀ i j, 0 ≤ i → i ≤ j → j < num_free_blocks (hdr reg) →
     block_size reg (nthZ (freelist reg) i) ≤ block_size reg (nthZ (freelist reg) j)) →
  0 ≤ lo → hi < num_free_blocks (hdr reg) → lo ≤ hi + 1 →
  hi - lo + 1 ≤ Z.of_nat fuel →
  (∀ i, 0 ≤ i < lo → block_size reg (nthZ (freelist reg) i) < required) →
  (∀ i, hi < i < num_free_blocks (hdr reg) →
     required < block_size reg (nthZ (freelist reg) i)) →
  match find_free_block_search fuel (data reg) (freelist reg) required lo hi with
  | inl mid =>
    0 ≤ mid < num_free_blocks (hdr reg)
    ∧ block_size reg (nthZ (freelist reg) mid) = required
  | inr l =>
    0 ≤ l ≤ num_free_blocks (hdr reg)
    ∧ (∀ i, 0 ≤ i < l → block_size reg (nthZ (freelist reg) i) < required)
    ∧ (∀ i, l ≤ i < num_free_blocks (hdr reg) →
         required < block_size reg (nthZ (freelist reg) i))
  end.
Proof.
  intros Hsorted. revert lo hi.
  induction fuel as [|fuel IH]; intros lo hi Hlo Hhi Hle Hfuel Hbelow Habove;
    cbn [find_free_block_search].
  - split; [lia|]. split; [done|]. intros i Hi. apply Habove. lia.
  - destruct (Z.leb_spec lo hi) as [Hlh|Hlh].
    2: { split; [lia|]. split; [done|]. intros i Hi. apply Habove. lia. }
    assert (Hmid : lo ≤ (lo + hi) / 2 ≤ hi).
    { split; [apply Z.div_le_lower_bound|apply Z.div_le_upper_bound]; lia. }
    fold (block_size reg (nthZ (freelist reg) ((lo + hi) / 2))).
    destruct (Z.eqb_spec (block_size reg (nthZ (freelist reg) ((lo + hi) / 2))) required)
      as [Heq|Hneq]; [split; [lia|done]|].
    destruct (Z.ltb_spec required (block_size reg (nthZ (freelist reg) ((lo + hi) / 2))))
      as [Hlt|Hge].
    + apply IH; [lia|lia|lia|lia|done|].
      intros i Hi. destruct (Z_lt_le_dec hi i) as [?|?]; [apply Habove; lia|].
      pose proof (Hsorted ((lo + hi) / 2) i). lia.
    + apply IH; [lia|lia|lia|lia| |done].
      intros i Hi. destruct (Z_lt_le_dec i lo) as [?|?]; [apply Hbelow; lia|].
      pose proof (Hsorted i ((lo + hi) / 2)). lia.
Qed.

(** X13.  [find_free_block] on a freelist sorted by stored size is a best
    fit: it looks at the smallest block whose stored size is at least the
    required size and at no other.  Without such a block it returns
    [SIZE_MAX] and leaves the region as it is.  A block of exactly the
    required size is taken off the freelist and returned.  Otherwise the
    first larger block is the one considered: when it leaves a remainder
    below 8 bytes, or when the freelist is full, the call returns
    [SIZE_MAX] and changes nothing, also when a larger block follows; else
    the block is taken off the freelist and returned, and the remainder
    goes to [add_free_block] as a block behind the required bytes. *)
Theorem find_free_block_best_fit (reg : hashmap_region_t) (required : Z) :
  0 ≤ num_free_blocks (hdr reg) ≤ Z.of_nat (length (freelist reg)) →
  sorted_asc (freelist_sizes reg) = true →
  Forall (λ s, s < 2 ^ 64) (freelist_sizes reg) →
  0 ≤ required →
  match list_find (λ s, required ≤ s) (freelist_sizes reg) with
  | None => find_free_block reg required = (SIZE_MAX, reg)
  | Some (i, s) =>
    let offset := nthZ (freelist reg) (Z.of_nat i) in
    if s =? required then
      ∃ j : nat,
        freelist_sizes reg !! j = Some required
        ∧ find_free_block reg required
          = (nthZ (freelist reg) (Z.of_nat j), remove_free_block reg (Z.of_nat j))
    else if (s - required <? sizeof_size_t) || negb (has_empty_free_block reg) then
      find_free_block reg required = (SIZE_MAX, reg)
    else
      find_free_block reg required
      = (offset,
         snd (add_free_block (remove_free_block reg (Z.of_nat i))
                (to_uint64 (offset + required)) (s - required)))
  end.
Proof.
  intros Hn Hsorted Hrange Hreq.
  set (n := num_free_blocks (hdr reg)) in *.
  assert (Hlen : length (freelist_sizes reg) = Z.to_nat n).
  { unfold freelist_sizes. fold n. rewrite length_map, length_take. lia. }
  assert (Hlookup : ∀ j : nat, (j < Z.to_nat n)%nat →
            freelist_sizes reg !! j
            = Some (block_size reg (nthZ (freelist reg) (Z.of_nat j)))).
  { intros j Hj. apply freelist_sizes_lookup; fold n; lia. }
  assert (Hidx : ∀ i j, 0 ≤ i → i ≤ j → j < n →
            block_size reg (nthZ (freelist reg) i)
            ≤ block_size reg (nthZ (freelist reg) j)).
  { intros i j ? ? ?. apply freelist_sizes_sorted_index; first [done | fold n; lia]. }
  pose proof (find_free_block_search_sorted (Z.to_nat n) reg required 0 (n - 1) Hidx)
    as Hsearch.
  destruct (list_find _ _) as [[i s]|] eqn:Hfound.
  - apply list_find_Some in Hfound as (Hi & Hfit & Hfirst).
    assert (Hin : (i < Z.to_nat n)%nat) by (apply lookup_lt_Some in Hi; lia).
    rewrite Hlookup in Hi by done. injection Hi as Hs.
    unfold find_free_block. fold n.
    destruct (Z.eqb_spec n 0) as [?|_]; [lia|].
    destruct (find_free_block_search _ _ _ _ _ _) as [mid|l].
    + destruct Hsearch as (Hmid & Hexact); try (fold n; lia).
      fold n in Hmid.
      assert (Z.of_nat i ≤ mid).
      { destruct (Z_lt_le_dec mid (Z.of_nat i)) as [Hlt|?]; [|done].
        exfalso. apply (Hfirst (Z.to_nat mid) required); [|lia|lia].
        rewrite Hlookup by lia. rewrite Z2Nat.id by lia. by rewrite Hexact. }
      pose proof (Hidx (Z.of_nat i) mid). rewrite Hs in *.
      destruct (Z.eqb_spec s required) as [_|?]; [|lia].
      cbn zeta. exists (Z.to_nat mid). rewrite Z2Nat.id by lia.
      split; [|done]. rewrite Hlookup by lia. rewrite Z2Nat.id by lia.
      by rewrite Hexact.
    + destruct Hsearch as (Hl & Hbelow & Habove); try (fold n; lia).
      fold n in Hl, Habove.
      assert (l = Z.of_nat i) as ->.
      { destruct (Z_lt_le_dec l (Z.of_nat i)) as [Hlt|Hge].
        - exfalso.
          apply (Hfirst (Z.to_nat l) (block_size reg (nthZ (freelist reg) l))); [|lia|].
          + rewrite Hlookup by lia. by rewrite Z2Nat.id by lia.
          + specialize (Habove l). lia.
        - destruct (Z.eq_dec l (Z.of_nat i)) as [?|Hne]; [done|].
          specialize (Hbelow (Z.of_nat i)). rewrite Hs in Hbelow. lia. }
      specialize (Habove (Z.of_nat i)). rewrite Hs in Habove.
      destruct (Z.eqb_spec s required) as [?|_]; [lia|].
      destruct (Z.ltb_spec (Z.of_nat i) n) as [_|?]; [|lia].
      fold (block_size reg (nthZ (freelist reg) (Z.of_nat i))). rewrite Hs.
      assert (Hs64 : s < 2 ^ 64).
      { rewrite Forall_lookup in Hrange. apply (Hrange i).
        rewrite Hlookup by done. by rewrite Hs. }
      rewrite (to_uint64_small (s - required)) by lia.
      destruct (Z.eqb_spec (s - required) 0) as [?|_]; [lia|].
      cbn zeta. destruct (_ || _); reflexivity.
  - apply list_find_None in Hfound.
    unfold find_free_block. fold n.
    destruct (Z.eqb_spec n 0) as [?|Hn0]; [done|].
    assert (Hsmall : ∀ j, 0 ≤ j < n → block_size reg (nthZ (freelist reg) j) < required).
    { intros j Hj. rewrite Forall_lookup in Hfound.
      specialize (Hfound (Z.to_nat j) (block_size reg (nthZ (freelist reg) j))).
      rewrite Hlookup, Z2Nat.id in Hfound by lia. specialize (Hfound eq_refl). lia. }
    destruct (find_free_block_search _ _ _ _ _ _) as [mid|l].
    + destruct Hsearch as (Hmid & Hexact); try (fold n; lia).
      fold n in Hmid. specialize (Hsmall mid). lia.
    + destruct Hsearch as (Hl & Hbelow & Habove); try (fold n; lia).
      fold n in Hl, Habove.
      destruct (Z.ltb_spec l n) as [Hlt|_]; [|done].
      specialize (Habove l). specialize (Hsmall l). lia.
Qed.

Lemma find_free_block_best_fit_witness :
  let reg := region (snd (run (init_map 1000 4 0)
                            [Insert [97] [49]; Insert [98] [50; 51];
                             Insert [99] [52; 53; 54];
                             Delete [97]; Delete [98]; Delete [99]])) in
  freelist_sizes reg = [36; 37; 38]
  ∧ find_free_block reg 39 = (SIZE_MAX, reg)
  ∧ find_free_block reg 30 = (SIZE_MAX, reg).
Proof.
  intros reg.
  assert (Hsizes : freelist_sizes reg = [36; 37; 38]) by (vm_compute; reflexivity).
  split; [exact Hsizes|]. split.
  - pose proof (find_free_block_best_fit reg 39) as Hfit.
    rewrite Hsizes in Hfit. apply Hfit.
    + vm_compute. split; discriminate.
    + reflexivity.
    + repeat constructor.
    + lia.
  - pose proof (find_free_block_best_fit reg 30) as Hfit.
    rewrite Hsizes in Hfit. apply Hfit.
    + vm_compute. split; discriminate.
    + reflexivity.
    + repeat constructor.
    + lia.
Defined.

End Allocator.

(** ** Calls in sequence *)

Section RoundTrips.



(** The probe reads the bucket slots, the flags and, of the records of live
    buckets, the hash, the key size and, where the key size is the one
    looked for, the key: it takes the same steps on an arena that agrees
    on these bytes. *)
Lemma find_record_loop_data_frame k reg d' key key_len hash index found_index i :
  0 < max_buckets (hdr reg) →
  (∀ s, 0 ≤ s < max_buckets (hdr reg) →
        nthZ (buckets reg) s ≠ 0 → is_used_bucket reg s ≠ 0 →
        let r := nthZ (buckets reg) s in
        (∀ c, r ≤ c < r + 16 → load8 d' c = load8 (data reg) c)
        ∧ (record_key_size (data reg) r = key_len →
           ∀ c, r + 24 ≤ c < r + 24 + Z.of_nat (length (take (Z.to_nat key_len) key)) →
                load8 d' c = load8 (data reg) c)) →
  find_record_loop k (with_data reg d') key key_len hash index found_index i
  = find_record_loop k reg key key_len hash index found_index i.
Proof.
  intros Hmb Hsame. revert i. induction k as [|k IH]; intros i; [done|].
  cbn [find_record_loop].
  change (max_buckets (hdr (with_data reg d'))) with (max_buckets (hdr reg)).
  change (buckets (with_data reg d')) with (buckets reg).
  change (data (with_data reg d')) with d'.
  change (is_used_bucket (with_data reg d')) with (is_used_bucket reg).
  set (slot := (index + i) mod max_buckets (hdr reg)).
  assert (Hslot : 0 ≤ slot < max_buckets (hdr reg)) by (apply Z.mod_pos_bound; lia).
  destruct (Z.eqb_spec (nthZ (buckets reg) slot) 0) as [Hz|Hnz]; [done|].
  destruct (Z.eqb_spec (is_used_bucket reg slot) 0) as [Hu|Hu]; cbn [negb];
    [apply IH|].
  destruct (Hsame slot Hslot Hnz Hu) as [Hhdr Hkey].
  set (r := nthZ (buckets reg) slot) in *.
  assert (Hhash : record_hash d' r = record_hash (data reg) r).
  { unfold record_hash. apply load64_frame. intros c Hc. apply Hhdr. lia. }
  assert (Hsize : record_key_size d' r = record_key_size (data reg) r).
  { unfold record_key_size. apply load64_frame. intros c Hc. apply Hhdr. lia. }
  rewrite Hhash, Hsize.
  destruct (Z.eqb_spec (record_key_size (data reg) r) key_len) as [Hkl|Hkl].
  - rewrite (memcmp_eq_frame (data reg) d').
    + destruct (_ && _); [done|apply IH].
    + intros c Hc. apply Hkey; [done|].
      unfold hm_get_record_key, sizeof_hashmap_record_t in Hc. lia.
  - rewrite !andb_false_r. cbn [andb]. apply IH.
Qed.



(** [add_free_block] writes one size field into the arena, at the offset
    it is given, and leaves the bucket table alone. *)
Lemma add_free_block_touches reg offset size :
  let reg' := snd (add_free_block reg offset size) in
  (∃ v, data reg' = store64 (data reg) offset v)
  ∧ buckets reg' = buckets reg
  ∧ bucket_flags reg' = bucket_flags reg
  ∧ max_buckets (hdr reg') = max_buckets (hdr reg).
Proof.
  unfold add_free_block. destruct (_ && _); cbn; (split; [by eexists|done]).
Qed.

Lemma is_used_unset_used_eq reg b :
  0 ≤ b → b mod 64 < 31 →
  (Z.to_nat (b / 64) < length (bucket_flags reg))%nat →
  is_used_bucket (unset_used_bits reg b) b = 0.
Proof.
  intros Hb Hlow Hlen. unfold is_used_bucket, unset_used_bits.
  cbn [bucket_flags with_bucket_flags].
  rewrite nthZ_setZ_eq by done. apply unset_then_is_used_low.
  pose proof (Z.mod_pos_bound b 64). lia.
Qed.

Lemma is_used_unset_used_ne reg b s :
  0 ≤ b → 0 ≤ s → s ≠ b → b mod 64 < 31 →
  is_used_bucket (unset_used_bits reg b) s = is_used_bucket reg s.
Proof.
  intros Hb Hs Hne Hlow. unfold is_used_bucket, unset_used_bits.
  cbn [bucket_flags with_bucket_flags].
  pose proof (Z.mod_pos_bound b 64). pose proof (Z.mod_pos_bound s 64).
  destruct (Z.eq_dec (s / 64) (b / 64)) as [Hw|Hw].
  - rewrite Hw.
    destruct (decide (Z.to_nat (b / 64) < length (bucket_flags reg))%nat) as [Hin|Hout].
    + rewrite nthZ_setZ_eq by done.
      rewrite !is_used_word_testbit by lia.
      unfold unset_used_word, int_not, to_uint64. rewrite int_shl_one_low by lia.
      rewrite Z.land_spec, Z.mod_pow2_bits_low by lia.
      rewrite Z.lnot_spec by lia. rewrite Z.pow2_bits_false; [by rewrite andb_true_r|].
      intros Heq. apply Hne.
      rewrite (Z.div_mod s 64), (Z.div_mod b 64) by lia. congruence.
    + unfold setZ. rewrite list_insert_ge by lia. done.
  - rewrite nthZ_setZ_ne; [done| |  |congruence].
    + apply Z.div_pos; lia.
    + apply Z.div_pos; lia.
Qed.

(** A key that no slot of the table holds is not found, and deleting it
    changes nothing. *)
Lemma absent_from_table m key :
  lock m = 0 →
  0 < max_buckets (hdr (region m)) →
  (∀ s, 0 ≤ s < max_buckets (hdr (region m)) → ¬ key_at (region m) key s) →
  hm_search m key (Z.of_nat (length key)) = (HM_NOT_FOUND, None)
  ∧ hm_delete m key (Z.of_nat (length key)) = (HM_NOT_FOUND, m).
Proof.
  intros Hlock Hmb Habsent.
  unfold hm_search, hm_delete, lock_region_for_read, lock_region_for_write,
    unlock_region.
  rewrite Hlock. cbn [Z.eqb negb].
  destruct (find_record _ _ _) as [[r|] b] eqn:Hfind; [|done].
  exfalso. unfold find_record in Hfind.
  apply (Habsent b); [by eapply find_record_loop_found_range|].
  apply find_record_loop_found in Hfind as (Hr & Hnz & Hused & Hhash & Hsize & Hcmp).
  rewrite take_whole_key in Hcmp.
  unfold key_at. rewrite Hr. done.
Qed.

(** After a [del] of a present key the key is in no slot of the table. *)
Lemma hm_delete_then_absent (m : hashmap_t) (key : list Z) (r b : Z) :
  lock m = 0 →
  0 < max_buckets (hdr (region m)) →
  has_empty_free_block (region m) = true →
  find_record (region m) key (Z.of_nat (length key)) = (Some r, b) →
  b mod 64 < 31 →
  b / 64 < Z.of_nat (length (bucket_flags (region m))) →
  other_keys_outside (region m) b r (r + 8) →
  (∀ s, 0 ≤ s < max_buckets (hdr (region m)) → s ≠ b → ¬ key_at (region m) key s) →
  let m' := snd (hm_delete m key (Z.of_nat (length key))) in
  fst (hm_delete m key (Z.of_nat (length key))) = HM_OK
  ∧ hm_search m' key (Z.of_nat (length key)) = (HM_NOT_FOUND, None)
  ∧ hm_delete m' key (Z.of_nat (length key)) = (HM_NOT_FOUND, m').
Proof.
  intros Hlock Hmb Hempty Hfind Hlow Hword Hout Huniq m'.
  pose proof (find_record_loop_found_range _ _ _ _ _ _ _ _ _ _ Hmb Hfind) as Hb.
  set (reg1 := snd (add_free_block (region m) r (hm_get_record_size (data (region m)) r))).
  assert (Hdel : hm_delete m key (Z.of_nat (length key))
                 = (HM_OK, with_region m (unset_used_bits reg1 b))).
  { unfold hm_delete, lock_region_for_write, unlock_region.
    rewrite Hlock. cbn [Z.eqb negb]. rewrite Hfind, Hempty. reflexivity. }
  subst m'. rewrite Hdel. cbn [fst snd]. split; [done|].
  destruct (add_free_block_touches (region m) r (hm_get_record_size (data (region m)) r))
    as ((v & Hdata) & Hbuckets & Hflags & Hmax).
  fold reg1 in Hdata, Hbuckets, Hflags, Hmax.
  assert (Hword' : 0 ≤ b / 64) by (apply Z.div_pos; lia).
  apply absent_from_table; [done|cbn; by rewrite Hmax|].
  cbn [region with_region].
  change (max_buckets (hdr (unset_used_bits reg1 b))) with (max_buckets (hdr reg1)).
  rewrite Hmax. intros s Hs (Hnz & Hu & Hhash & Hsize & Hcmp).
  change (buckets (unset_used_bits reg1 b)) with (buckets reg1) in *.
  change (data (unset_used_bits reg1 b)) with (data reg1) in *.
  rewrite Hbuckets in *. rewrite Hdata in *.
  destruct (Z.eq_dec s b) as [->|Hne].
  - apply Hu. apply is_used_unset_used_eq; [lia|done|rewrite Hflags; lia].
  - rewrite is_used_unset_used_ne in Hu by lia.
    assert (Hu' : is_used_bucket (region m) s ≠ 0).
    { unfold is_used_bucket in *. by rewrite Hflags in Hu. }
    apply (Huniq s Hs Hne).
    destruct (Hout s Hs Hne Hnz Hu') as [Hks0 Hdisj].
    set (rs := nthZ (buckets (region m)) s) in *.
    unfold hm_get_record_key, sizeof_hashmap_record_t in Hdisj.
    assert (Hhdr : ∀ c, rs ≤ c < rs + 16 →
                        load8 (store64 (data (region m)) r v) c = load8 (data (region m)) c).
    { intros c Hc. apply load8_store64_out. lia. }
    assert (Hsize' : record_key_size (store64 (data (region m)) r v) rs
                     = record_key_size (data (region m)) rs).
    { unfold record_key_size. apply load64_frame. intros c Hc. apply Hhdr. lia. }
    rewrite Hsize' in Hsize.
    unfold key_at. fold rs. split; [done|]. split; [done|]. split.
    { rewrite <- Hhash. unfold record_hash. symmetry. apply load64_frame.
      intros c Hc. apply Hhdr. lia. }
    split; [done|].
    rewrite <- Hcmp. symmetry. apply memcmp_eq_frame. intros c Hc.
    unfold hm_get_record_key, sizeof_hashmap_record_t in Hc.
    apply load8_store64_out. lia.
Qed.



End RoundTrips.

(** ** Statistics *)

Section Statistics.

(** *** Bytes of a word *)

Lemma land_low_high a a' c c' :
  0 ≤ a < 256 → 0 ≤ c < 256 →
  Z.land (a + 256 * a') (c + 256 * c') = Z.land a c + 256 * Z.land a' c'.
Proof.
  intros Ha Hc.
  assert (Hmod : ∀ x y, Z.land x y mod 2 ^ 8 = Z.land (x mod 2 ^ 8) (y mod 2 ^ 8)).
  { intros x y. rewrite <- !Z.land_ones by lia. apply Z.bits_inj'. intros n Hn.
    rewrite !Z.land_spec.
    destruct (Z.testbit x n), (Z.testbit y n), (Z.testbit (Z.ones 8) n); reflexivity. }
  assert (Hdiv : ∀ x y, Z.land x y / 2 ^ 8 = Z.land (x / 2 ^ 8) (y / 2 ^ 8)).
  { intros x y. rewrite <- !Z.shiftr_div_pow2 by lia. apply Z.shiftr_land. }
  change (2 ^ 8) with 256 in *.
  rewrite (Z.div_mod (Z.land (a + 256 * a') (c + 256 * c')) 256) by lia.
  rewrite Hmod, Hdiv.
  replace ((a + 256 * a') mod 256) with a by (Z.div_mod_to_equations; lia).
  replace ((c + 256 * c') mod 256) with c by (Z.div_mod_to_equations; lia).
  replace ((a + 256 * a') / 256) with a' by (Z.div_mod_to_equations; lia).
  replace ((c + 256 * c') / 256) with c' by (Z.div_mod_to_equations; lia).
  lia.
Qed.

(** A property of all bytes holds when it holds for each of the 256. *)
Lemma all_bytes (P : Z → bool) :
  forallb P (seqZ 0 256) = true → ∀ b, 0 ≤ b < 256 → P b = true.
Proof.
  intros Hall b Hb. rewrite forallb_forall in Hall. apply Hall.
  apply list_elem_of_In, elem_of_seqZ. lia.
Qed.

Lemma all_bytes_and_bits (k : Z) (P : Z → Z → bool) :
  forallb (λ b, forallb (P b) (seqZ 0 k)) (seqZ 0 256) = true →
  ∀ b t, 0 ≤ b < 256 → 0 ≤ t < k → P b t = true.
Proof.
  intros Hall b t Hb Ht.
  pose proof (all_bytes _ Hall b Hb) as Hb'. cbn beta in Hb'.
  rewrite forallb_forall in Hb'. apply Hb'.
  apply list_elem_of_In, elem_of_seqZ. lia.
Qed.

Lemma is_byte_spec b : is_byte b = true ↔ 0 ≤ b < 256.
Proof. unfold is_byte. rewrite andb_true_iff, Z.leb_le, Z.ltb_lt. done. Qed.

Lemma of_bytes_range bs :
  Forall (λ b, 0 ≤ b < 256) bs → 0 ≤ of_bytes bs < 256 ^ Z.of_nat (length bs).
Proof.
  induction 1 as [|b bs Hb _ IH]; [cbn; lia|].
  cbn [of_bytes length]. rewrite Nat2Z.inj_succ, Z.pow_succ_r by lia. lia.
Qed.

Lemma of_to_bytes n x :
  0 ≤ x < 256 ^ Z.of_nat n → of_bytes (to_bytes n x) = x.
Proof.
  revert x. induction n as [|n IH]; intros x Hx.
  - cbn in *. lia.
  - cbn [to_bytes of_bytes]. rewrite Nat2Z.inj_succ, Z.pow_succ_r in Hx by lia.
    rewrite IH; [Z.div_mod_to_equations; lia|].
    split; [apply Z.div_pos; lia|]. apply Z.div_lt_upper_bound; lia.
Qed.

Lemma to_bytes_bytes n x : Forall (λ b, 0 ≤ b < 256) (to_bytes n x).
Proof.
  revert x. induction n as [|n IH]; intros x; cbn [to_bytes]; constructor; [|apply IH].
  apply Z.mod_pos_bound. lia.
Qed.

(** *** The folding steps, byte by byte *)

Lemma fold_pairs_bytes bs :
  Forall (λ b, 0 ≤ b < 256) bs →
  of_bytes bs - Z.land (Z.shiftr (of_bytes bs) 1) (of_bytes (replicate (length bs) 0x55))
  = of_bytes (map fold_pairs bs).
Proof.
  induction 1 as [|b bs Hb Hbs IH]; [done|].
  cbn [of_bytes length replicate map]. pose proof (of_bytes_range bs Hbs) as [HX _].
  set (X := of_bytes bs) in *. set (M := of_bytes (replicate (length bs) 85)) in *.
  rewrite <- IH. clear IH.
  rewrite !Z.shiftr_div_pow2 by lia. change (2 ^ 1) with 2.
  replace ((b + 256 * X) / 2) with ((b / 2 + 128 * (X mod 2)) + 256 * (X / 2))
    by (Z.div_mod_to_equations; lia).
  rewrite land_low_high by (Z.div_mod_to_equations; lia).
  assert (Hlow : ∀ b t, 0 ≤ b < 256 → 0 ≤ t < 2 →
            (Z.land (b / 2 + 128 * t) 85 =? Z.land (Z.shiftr b 1) 85) = true).
  { apply all_bytes_and_bits. vm_compute. reflexivity. }
  specialize (Hlow b (X mod 2) Hb ltac:(Z.div_mod_to_equations; lia)).
  apply Z.eqb_eq in Hlow. rewrite Hlow. unfold fold_pairs. lia.
Qed.

Lemma fold_nibbles_bytes bs :
  Forall (λ b, 0 ≤ b < 256) bs →
  Z.land (of_bytes bs) (of_bytes (replicate (length bs) 0x33))
  + Z.land (Z.shiftr (of_bytes bs) 2) (of_bytes (replicate (length bs) 0x33))
  = of_bytes (map fold_nibbles bs).
Proof.
  induction 1 as [|b bs Hb Hbs IH]; [done|].
  cbn [of_bytes length replicate map]. pose proof (of_bytes_range bs Hbs) as [HX _].
  set (X := of_bytes bs) in *. set (M := of_bytes (replicate (length bs) 51)) in *.
  rewrite <- IH. clear IH.
  rewrite !Z.shiftr_div_pow2 by lia. change (2 ^ 2) with 4.
  replace ((b + 256 * X) / 4) with ((b / 4 + 64 * (X mod 4)) + 256 * (X / 4))
    by (Z.div_mod_to_equations; lia).
  rewrite !land_low_high by (Z.div_mod_to_equations; lia).
  assert (Hlow : ∀ b t, 0 ≤ b < 256 → 0 ≤ t < 4 →
            (Z.land (b / 4 + 64 * t) 51 =? Z.land (Z.shiftr b 2) 51) = true).
  { apply all_bytes_and_bits. vm_compute. reflexivity. }
  specialize (Hlow b (X mod 4) Hb ltac:(Z.div_mod_to_equations; lia)).
  apply Z.eqb_eq in Hlow. rewrite Hlow. unfold fold_nibbles. lia.
Qed.

Lemma small_nibbles_spec b :
  small_nibbles b = true ↔ 0 ≤ b < 256 ∧ b mod 16 ≤ 4 ∧ b / 16 ≤ 4.
Proof.
  unfold small_nibbles. rewrite !andb_true_iff, is_byte_spec, !Z.leb_le. tauto.
Qed.

Lemma fold_byte_bytes bs :
  Forall (λ b, small_nibbles b = true) bs →
  Z.land (of_bytes bs + Z.shiftr (of_bytes bs) 4) (of_bytes (replicate (length bs) 0x0F))
  = of_bytes (map fold_byte bs).
Proof.
  induction 1 as [|b bs Hb Hbs IH]; [done|].
  cbn [of_bytes length replicate map].
  assert (Hbytes : Forall (λ b, 0 ≤ b < 256) bs).
  { eapply Forall_impl; [exact Hbs|]. cbn. intros c Hc.
    by apply small_nibbles_spec in Hc as [? _]. }
  pose proof (of_bytes_range bs Hbytes) as [HX _].
  assert (Hnib : of_bytes bs mod 16 ≤ 4).
  { destruct Hbs as [|c bs' Hc _]; [done|]. cbn [of_bytes].
    apply small_nibbles_spec in Hc. Z.div_mod_to_equations; lia. }
  set (X := of_bytes bs) in *. set (M := of_bytes (replicate (length bs) 15)) in *.
  rewrite <- IH. clear IH.
  apply small_nibbles_spec in Hb as (Hb & Hlo & Hhi).
  rewrite !Z.shiftr_div_pow2 by lia. change (2 ^ 4) with 16.
  replace (b + 256 * X + (b + 256 * X) / 16)
    with ((b + b / 16 + 16 * (X mod 16)) + 256 * (X + X / 16))
    by (Z.div_mod_to_equations; lia).
  rewrite land_low_high by (Z.div_mod_to_equations; lia).
  assert (Hlow : ∀ b t, 0 ≤ b < 256 → 0 ≤ t < 5 →
            (Z.land (b + b / 16 + 16 * t) 15 =? Z.land (b + Z.shiftr b 4) 15) = true).
  { apply all_bytes_and_bits. vm_compute. reflexivity. }
  specialize (Hlow b (X mod 16) Hb ltac:(Z.div_mod_to_equations; lia)).
  apply Z.eqb_eq in Hlow. rewrite Hlow. unfold fold_byte. lia.
Qed.

(** The three steps on one byte leave its number of 1 bits, and the values
    between the steps are as the next step needs them. *)
Lemma fold_byte_popcount b :
  0 ≤ b < 256 →
  0 ≤ fold_pairs b < 256
  ∧ small_nibbles (fold_nibbles (fold_pairs b)) = true
  ∧ fold_byte (fold_nibbles (fold_pairs b)) = popcount 8 b
  ∧ 0 ≤ popcount 8 b ≤ 8.
Proof.
  intros Hb.
  assert (Hall : ∀ b, 0 ≤ b < 256 →
            is_byte (fold_pairs b)
            && small_nibbles (fold_nibbles (fold_pairs b))
            && (fold_byte (fold_nibbles (fold_pairs b)) =? popcount 8 b)
            && (0 <=? popcount 8 b) && (popcount 8 b <=? 8) = true).
  { apply all_bytes. vm_compute. reflexivity. }
  specialize (Hall b Hb).
  rewrite !andb_true_iff, is_byte_spec, Z.eqb_eq, !Z.leb_le in Hall. tauto.
Qed.

(** *** Bits of a word, byte by byte *)

Lemma popcount_low n x y : popcount n (x + 2 ^ Z.of_nat n * y) = popcount n x.
Proof.
  revert x y. induction n as [|n IH]; intros x y; [done|].
  cbn [popcount]. rewrite Nat2Z.inj_succ, Z.pow_succ_r by lia.
  replace ((x + 2 * 2 ^ Z.of_nat n * y) mod 2) with (x mod 2)
    by (Z.div_mod_to_equations; nia).
  replace ((x + 2 * 2 ^ Z.of_nat n * y) / 2) with (x / 2 + 2 ^ Z.of_nat n * y)
    by (Z.div_mod_to_equations; nia).
  by rewrite IH.
Qed.

Lemma popcount_add n k x :
  popcount (n + k) x = popcount n x + popcount k (x / 2 ^ Z.of_nat n).
Proof.
  revert x. induction n as [|n IH]; intros x.
  - cbn. by rewrite Z.div_1_r.
  - cbn [Nat.add popcount]. rewrite IH.
    rewrite Nat2Z.inj_succ, Z.pow_succ_r by lia.
    rewrite Z.div_div by lia. lia.
Qed.

Lemma popcount_bytes n x :
  popcount (8 * n) x = sumZ (map (popcount 8) (to_bytes n x)).
Proof.
  revert x. induction n as [|n IH]; intros x; [done|].
  replace (8 * S n)%nat with (8 + 8 * n)%nat by lia.
  rewrite popcount_add. cbn [to_bytes map sumZ fold_right].
  change (2 ^ Z.of_nat 8) with 256. rewrite IH. f_equal.
  rewrite (Z.div_mod x 256) at 1 by lia.
  rewrite Z.add_comm. apply (popcount_low 8).
Qed.

Lemma popcount_range n x : 0 ≤ popcount n x ≤ Z.of_nat n.
Proof.
  revert x. induction n as [|n IH]; intros x; [cbn; lia|].
  cbn [popcount]. specialize (IH (x / 2)).
  pose proof (Z.mod_pos_bound x 2). lia.
Qed.

Lemma count_bits_bytes bs :
  length bs = 8%nat → Forall (λ b, 0 ≤ b < 256) bs →
  count_bits (of_bytes bs) = sumZ (map (popcount 8) bs).
Proof.
  intros Hlen Hbs.
  (* the three folding steps *)
  pose proof (fold_pairs_bytes bs Hbs) as H1.
  set (bs1 := map fold_pairs bs) in *.
  assert (Hbs1 : Forall (λ b, 0 ≤ b < 256) bs1).
  { subst bs1. apply Forall_map. eapply Forall_impl; [exact Hbs|].
    cbn. intros b Hb. by apply fold_byte_popcount. }
  pose proof (fold_nibbles_bytes bs1 Hbs1) as H2.
  set (bs2 := map fold_nibbles bs1) in *.
  assert (Hbs2 : Forall (λ b, small_nibbles b = true) bs2).
  { subst bs2 bs1. rewrite map_map. apply Forall_map. eapply Forall_impl; [exact Hbs|].
    cbn. intros b Hb. by apply fold_byte_popcount. }
  pose proof (fold_byte_bytes bs2 Hbs2) as H3.
  assert (Hbs3 : map fold_byte bs2 = map (popcount 8) bs).
  { subst bs2 bs1. rewrite !map_map. apply map_ext_in. intros b Hb.
    rewrite Forall_forall in Hbs. apply fold_byte_popcount, Hbs, list_elem_of_In, Hb. }
  rewrite Hbs3 in H3.
  assert (Hbytes2 : Forall (λ b, 0 ≤ b ≤ 68) bs2).
  { eapply Forall_impl; [exact Hbs2|]. cbn. intros b Hb.
    apply small_nibbles_spec in Hb. Z.div_mod_to_equations; lia. }
  assert (Hlen1 : length bs1 = 8%nat) by (subst bs1; by rewrite length_map).
  assert (Hlen2 : length bs2 = 8%nat) by (subst bs2; by rewrite length_map).
  rewrite Hlen in H1. rewrite Hlen1 in H2. rewrite Hlen2 in H3.
  change (of_bytes (replicate 8 85)) with 0x5555555555555555 in H1.
  change (of_bytes (replicate 8 51)) with 0x3333333333333333 in H2.
  change (of_bytes (replicate 8 15)) with 0x0F0F0F0F0F0F0F0F in H3.
  pose proof (of_bytes_range bs1 Hbs1) as Hr1. rewrite Hlen1 in Hr1.
  change (256 ^ Z.of_nat 8) with (2 ^ 64) in Hr1.
  assert (Hr2 : 0 ≤ of_bytes bs2 + Z.shiftr (of_bytes bs2) 4 < 2 ^ 64).
  { clear - Hbytes2 Hlen2. rewrite Z.shiftr_div_pow2 by lia. change (2 ^ 4) with 16.
    destruct bs2 as [|c0 [|c1 [|c2 [|c3 [|c4 [|c5 [|c6 [|c7 [|]]]]]]]]]; try discriminate.
    repeat match goal with
           | H : Forall _ (_ :: _) |- _ => apply Forall_cons in H as [? H]
           end.
    cbn [of_bytes]. Z.div_mod_to_equations; lia. }
  unfold count_bits.
  rewrite H1, (to_uint64_small (of_bytes bs1)) by done.
  rewrite H2.
  assert (Hr2' : 0 ≤ of_bytes bs2 < 2 ^ 64).
  { pose proof (Z.shiftr_nonneg (of_bytes bs2) 4).
    assert (0 ≤ of_bytes bs2).
    { clear - Hbytes2. induction Hbytes2; cbn [of_bytes]; lia. }
    lia. }
  rewrite (to_uint64_small (of_bytes bs2)) by done.
  rewrite (to_uint64_small (of_bytes bs2 + _)) by done.
  rewrite H3.
  (* the multiplication adds the eight bytes up in the top byte *)
  assert (Hcs : Forall (λ c, 0 ≤ c ≤ 8) (map (popcount 8) bs)).
  { apply Forall_map, Forall_true. intros b. apply (popcount_range 8). }
  clear - Hlen Hcs. revert Hcs.
  generalize (map (popcount 8) bs) (length_map (popcount 8) bs). rewrite Hlen.
  intros cs Hlencs Hcs.
  destruct cs as [|c0 [|c1 [|c2 [|c3 [|c4 [|c5 [|c6 [|c7 [|]]]]]]]]]; try discriminate.
  repeat match goal with
         | H : Forall _ (_ :: _) |- _ => apply Forall_cons in H as [? H]
         end.
  cbn [of_bytes sumZ fold_right]. unfold to_uint64.
  rewrite Z.shiftr_div_pow2 by lia.
  set (P := c0 + (c1 + (c2 + (c3 + (c4 + (c5 + (c6 + (c7 + 0)))))))).
  set (R := (c0) * 1 + (c0 + c1) * 256 + (c0 + c1 + c2) * 65536
         + (c0 + c1 + c2 + c3) * 16777216 + (c0 + c1 + c2 + c3 + c4) * 4294967296
         + (c0 + c1 + c2 + c3 + c4 + c5) * 1099511627776
         + (c0 + c1 + c2 + c3 + c4 + c5 + c6) * 281474976710656).
  set (Hi := (c1 + c2 + c3 + c4 + c5 + c6 + c7) * 1 + (c2 + c3 + c4 + c5 + c6 + c7) * 256
         + (c3 + c4 + c5 + c6 + c7) * 65536 + (c4 + c5 + c6 + c7) * 16777216
         + (c5 + c6 + c7) * 4294967296 + (c6 + c7) * 1099511627776
         + (c7) * 281474976710656).
  replace ((c0 + 256 * (c1 + 256 * (c2 + 256 * (c3 + 256 * (c4 + 256 * (c5
             + 256 * (c6 + 256 * (c7 + 256 * 0)))))))) * 72340172838076673)
    with (R + P * 2 ^ 56 + Hi * 2 ^ 64) by (subst P R Hi; ring).
  rewrite Z_mod_plus_full.
  assert (HR : 0 ≤ R < 2 ^ 56) by (subst R; lia).
  assert (HP : 0 ≤ P ≤ 64) by (subst P; lia).
  rewrite Z.mod_small by lia.
  rewrite Z_div_plus_full by lia. rewrite Z.div_small by lia. lia.
Qed.

(** [count_bits] returns the number of 1 bits of a 64-bit word. *)
Lemma count_bits_popcount x : 0 ≤ x < 2 ^ 64 → count_bits x = popcount 64 x.
Proof.
  intros Hx. change 64%nat with (8 * 8)%nat. rewrite popcount_bytes.
  rewrite <- (of_to_bytes 8 x) at 1 by done.
  apply count_bits_bytes; [done|apply to_bytes_bytes].
Qed.

Lemma count_bucket_flags_loop_sum k fs i count :
  0 ≤ i → (Z.to_nat i + k ≤ length fs)%nat →
  0 ≤ count → count + 64 * Z.of_nat k < 2 ^ 64 →
  Forall (λ w, 0 ≤ w < 2 ^ 64) fs →
  count_bucket_flags_loop k fs i count
  = count + sumZ (map (popcount 64) (take k (drop (Z.to_nat i) fs))).
Proof.
  intros Hi Hlen Hcount Hroom Hwords. revert i count Hi Hlen Hcount Hroom.
  induction k as [|k IH]; intros i count Hi Hlen Hcount Hroom.
  - unfold sumZ. simpl. lia.
  - cbn [count_bucket_flags_loop].
    destruct (lookup_lt_is_Some_2 fs (Z.to_nat i)) as [w Hw]; [lia|].
    assert (Hword : 0 ≤ w < 2 ^ 64).
    { rewrite Forall_lookup in Hwords. by apply (Hwords (Z.to_nat i)). }
    rewrite (nthZ_lookup fs i w) by done.
    rewrite count_bits_popcount by done.
    pose proof (popcount_range 64 w) as Hpc.
    rewrite to_uint64_small by lia.
    rewrite IH by lia.
    rewrite (drop_S fs w (Z.to_nat i)) by done.
    replace (Z.to_nat (i + 1)) with (S (Z.to_nat i)) by lia.
    unfold sumZ. cbn [firstn map fold_right]. lia.
Qed.

(** X14.  [count_bits] returns the number of 1 bits of a 64-bit word, and
    the [used_buckets] that [hm_stat] reports is the number of 1 bits in
    the bucket flags; [hm_stat] takes the layout fields from the header,
    [used_free_blocks] from [num_free_blocks] and [used_data_size] from
    the distance of [data_tail] to [data_offset]. *)
Theorem hm_stat_counts_flag_bits (s : hashmap_stat_t) (m : hashmap_t) :
  lock m = 0 →
  max_bucket_flags (hdr (region m)) = Z.of_nat (length (bucket_flags (region m))) →
  Z.of_nat (length (bucket_flags (region m))) < 2 ^ 31 →
  Forall (λ w, 0 ≤ w < 2 ^ 64) (bucket_flags (region m)) →
  (∀ x, 0 ≤ x < 2 ^ 64 → count_bits x = popcount 64 x)
  ∧ ∃ s',
      hm_stat s m = (HM_OK, s')
      ∧ s_used_buckets s' = sumZ (map (popcount 64) (bucket_flags (region m)))
      ∧ s_used_free_blocks s' = to_uint64 (num_free_blocks (hdr (region m)))
      ∧ s_used_data_size s'
        = to_uint64 (data_tail (hdr (region m)) - data_offset (hdr (region m)))
      ∧ s_memory_size s' = memory_size (hdr (region m))
      ∧ s_max_buckets s' = max_buckets (hdr (region m))
      ∧ s_max_free_blocks s' = max_free_blocks (hdr (region m)).
Proof.
  intros Hlock Hmax Hlen Hwords. split; [apply count_bits_popcount|].
  unfold hm_stat, lock_region_for_read. rewrite Hlock. cbn [Z.eqb negb].
  eexists. split; [reflexivity|]. cbn -[popcount count_bucket_flags to_uint64].
  split; [|done].
  unfold count_bucket_flags. rewrite Hmax, Nat2Z.id.
  rewrite count_bucket_flags_loop_sum by first [done | lia | cbn; lia].
  change (Z.to_nat 0) with 0%nat. rewrite drop_0, firstn_all. lia.
Qed.

Lemma hm_stat_counts_flag_bits_witness :
  let m := snd (run (init_map 1000 4 0) [Insert [97] [49]; Insert [98] [50; 51]]) in
  bucket_flags (region m) = [12]
  ∧ count_bits 12 = popcount 64 12
  ∧ s_used_buckets (snd (hm_stat stat_zero m)) = 2.
Proof.
  intros m.
  assert (Hflags : bucket_flags (region m) = [12]) by (vm_compute; reflexivity).
  destruct (hm_stat_counts_flag_bits stat_zero m) as (Hbits & s' & Hstat & Hused & _).
  - vm_compute. reflexivity.
  - vm_compute. reflexivity.
  - vm_compute. reflexivity.
  - rewrite Hflags. repeat constructor; lia.
  - split; [exact Hflags|]. split; [apply Hbits; lia|].
    rewrite Hstat. cbn [snd]. rewrite Hused, Hflags. reflexivity.
Defined.

End Statistics.

(** ** The Lua binding *)

Section LuaValues.

Variable strerror : Z → list Z.
Variable errno : Z.

Lemma load64_read_bytes d a : load64 d a = of_bytes (read_bytes d a 8).
Proof. unfold load64. cbn [load_le read_bytes of_bytes]. lia. Qed.

Lemma of_to_bytes_mod n x : of_bytes (to_bytes n x) = x mod 256 ^ Z.of_nat n.
Proof.
  revert x. induction n as [|n IH]; intros x.
  - cbn. by rewrite Z.mod_1_r.
  - cbn [to_bytes of_bytes]. rewrite IH.
    rewrite Nat2Z.inj_succ, Z.pow_succ_r by lia.
    rewrite Z.rem_mul_r by lia. reflexivity.
Qed.

Lemma length_to_bytes n x : length (to_bytes n x) = n.
Proof. revert x. induction n as [|n IH]; intros x; cbn; [done|by rewrite IH]. Qed.

Lemma length_read_bytes d a n : length (read_bytes d a n) = n.
Proof. revert a. induction n as [|n IH]; intros a; cbn; [done|by rewrite IH]. Qed.

(** [decode_value] on the bytes that [encode_value] produces. *)
Lemma decode_encode d p v val :
  storable v → encode_value v = Some val →
  read_bytes d p (length val) = val →
  decode_value strerror d p (Z.of_nat (length val)) = ([v], 1%nat).
Proof.
  intros Hv Henc Hmem. unfold decode_value.
  destruct v as [|b|n|bits|s|]; try done; cbn [encode_value] in Henc;
    apply (inj Some) in Henc; subst val.
  - (* boolean *)
    cbn [length read_bytes] in Hmem. injection Hmem as Ht Hb.
    rewrite Ht, Hb. by destruct b.
  - (* integer *)
    change (length (T_INTEGER :: to_bytes 8 n)) with (S (length (to_bytes 8 n))) in Hmem.
    rewrite length_to_bytes in Hmem. change (read_bytes d p 9)
      with (load8 d p :: read_bytes d (p + 1) 8) in Hmem.
    assert (Ht : load8 d p = T_INTEGER) by congruence.
    assert (Hn : read_bytes d (p + 1) 8 = to_bytes 8 n) by congruence.
    rewrite Ht, load64_read_bytes, Hn, of_to_bytes_mod.
    change (char_to_int T_INTEGER =? T_STRING) with false.
    change (char_to_int T_INTEGER =? T_BOOLEAN) with false.
    change (char_to_int T_INTEGER =? T_NUMBER) with false.
    change (char_to_int T_INTEGER =? T_INTEGER) with true.
    cbv iota. do 3 f_equal. cbn [storable] in Hv. unfold to_int64.
    change (256 ^ Z.of_nat 8) with (2 ^ 64). Z.div_mod_to_equations. lia.
  - (* float *)
    change (length (T_NUMBER :: to_bytes 8 bits)) with (S (length (to_bytes 8 bits)))
      in Hmem.
    rewrite length_to_bytes in Hmem. change (read_bytes d p 9)
      with (load8 d p :: read_bytes d (p + 1) 8) in Hmem.
    assert (Ht : load8 d p = T_NUMBER) by congruence.
    assert (Hn : read_bytes d (p + 1) 8 = to_bytes 8 bits) by congruence.
    rewrite Ht, load64_read_bytes, Hn, of_to_bytes_mod.
    change (char_to_int T_NUMBER =? T_STRING) with false.
    change (char_to_int T_NUMBER =? T_BOOLEAN) with false.
    change (char_to_int T_NUMBER =? T_NUMBER) with true.
    cbv iota. do 3 f_equal. cbn [storable] in Hv. change (256 ^ Z.of_nat 8) with (2 ^ 64).
    apply Z.mod_small. lia.
  - (* string *)
    change (length (T_STRING :: s)) with (S (length s)) in *.
    change (read_bytes d p (S (length s)))
      with (load8 d p :: read_bytes d (p + 1) (length s)) in Hmem.
    assert (Ht : load8 d p = T_STRING) by congruence.
    assert (Hs : read_bytes d (p + 1) (length s) = s) by congruence.
    destruct Hv as [_ Hlen].
    rewrite Ht. change (char_to_int T_STRING =? T_STRING) with true. cbv iota.
    rewrite Nat2Z.inj_succ. replace (Z.succ (Z.of_nat (length s)) - 1)
      with (Z.of_nat (length s)) by lia.
    rewrite to_uint64_small, Nat2Z.id, Hs by lia. reflexivity.
Qed.



End LuaValues.


